(** * The RSS album-feed parser of stacks-pc20 ([src/lib/rssParser.ts])

    A shallow embedding of the feed parser: the text utilities
    ([cleanHtmlContent], [normalizeDuration]), the retry wrapper
    ([withRetry]), the single-feed extractor ([parseAlbumFeed]), the
    publisher-item listing ([parsePublisherFeed]) and the batch aggregator
    ([parseMultipleFeedsInternal]), followed by the properties checked
    against the specification.

    Conventions of the embedding.
    - A JavaScript string is a [string]: a sequence of UTF-16 code units,
      each of them in the range 0..255 (one [ascii] per code unit).
    - A JavaScript number that holds an integer is an [N] or a [Z]; the
      embedding is exact as long as the values stay below 2^53.
    - [undefined] / [null] results are [None].
    - Asynchronous code is written in the [Task] monad: a task transforms
      the state of its own logical thread (virtual clock, timers set,
      console output) and settles as [Fulfilled] or [Rejected].
    - Promises that run concurrently write to one console; the order in
      which their lines interleave is the host's ([schedule]), and the
      properties hold for every such order. *)

From Stdlib Require Import String Ascii List Bool Arith NArith ZArith Lia.
From Stdlib Require Import DecimalString DecimalN Permutation.
Import ListNotations.

Open Scope string_scope.
Open Scope list_scope.
Open Scope nat_scope.

(* ===================================================================== *)
(** ** JavaScript string primitives *)
(* ===================================================================== *)

Module JsString.

(** Code units removed by [String.prototype.trim] (WhiteSpace and
    LineTerminator), restricted to the 0..255 range: TAB, LF, VT, FF, CR,
    SPACE and NBSP. *)
Definition isWhiteSpace (c : ascii) : bool :=
  match nat_of_ascii c with
  | 9 | 10 | 11 | 12 | 13 | 32 | 160 => true
  | _ => false
  end.

(** [\d] of a regular expression without the unicode flag. *)
Definition isDigit (c : ascii) : bool :=
  let n := nat_of_ascii c in (48 <=? n) && (n <=? 57).

Fixpoint trimStart (s : string) : string :=
  match s with
  | String c rest => if isWhiteSpace c then trimStart rest else s
  | EmptyString => EmptyString
  end.

Fixpoint trimEnd (s : string) : string :=
  match s with
  | String c rest =>
      match trimEnd rest with
      | EmptyString => if isWhiteSpace c then EmptyString else String c EmptyString
      | kept => String c kept
      end
  | EmptyString => EmptyString
  end.

Definition trim (s : string) : string := trimEnd (trimStart s).

Definition isEmpty (s : string) : bool :=
  match s with EmptyString => true | _ => false end.

Fixpoint forallb (p : ascii -> bool) (s : string) : bool :=
  match s with
  | String c rest => p c && forallb p rest
  | EmptyString => true
  end.

(** [s.includes(c)] for a one-character needle. *)
Fixpoint includesChar (c : ascii) (s : string) : bool :=
  match s with
  | String d rest => Ascii.eqb c d || includesChar c rest
  | EmptyString => false
  end.

(** Offset of the first occurrence of [c], if any. *)
Fixpoint indexOfChar (c : ascii) (s : string) : option nat :=
  match s with
  | String d rest =>
      if Ascii.eqb c d then Some 0
      else option_map S (indexOfChar c rest)
  | EmptyString => None
  end.

(** [s.includes(needle)]. *)
Fixpoint includes (needle s : string) : bool :=
  prefix needle s ||
  match s with
  | String _ rest => includes needle rest
  | EmptyString => false
  end.

Definition startsWith (p s : string) : bool := prefix p s.

Fixpoint drop (n : nat) (s : string) : string :=
  match n, s with
  | S k, String _ rest => drop k rest
  | _, _ => s
  end.

(** [s.substring(0, n)]. *)
Fixpoint take (n : nat) (s : string) : string :=
  match n, s with
  | S k, String c rest => String c (take k rest)
  | _, _ => EmptyString
  end.

(** [s.replace(/pat/g, rep)] for a literal, non-empty pattern: matches
    are found left to right and do not overlap; the replacement text is
    not scanned again.  [skip] counts the code units of the current
    match that are still to be consumed. *)
Fixpoint replaceAllFrom (pat rep : string) (skip : nat) (s : string) : string :=
  match s with
  | EmptyString => EmptyString
  | String c rest =>
      match skip with
      | S k => replaceAllFrom pat rep k rest
      | O =>
          if prefix pat s
          then rep ++ replaceAllFrom pat rep (String.length pat - 1) rest
          else String c (replaceAllFrom pat rep 0 rest)
      end
  end.

Definition replaceAll (pat rep s : string) : string :=
  replaceAllFrom pat rep 0 s.

(** [s.replace(/<[^>]*>/g, '')]: at a [<] that is followed, anywhere
    later, by a [>], everything up to and including the first such [>]
    is removed; a [<] with no [>] after it stays. *)
Fixpoint stripTagsFrom (skip : nat) (s : string) : string :=
  match s with
  | EmptyString => EmptyString
  | String c rest =>
      match skip with
      | S k => stripTagsFrom k rest
      | O =>
          if Ascii.eqb c "<"
          then match indexOfChar ">" rest with
               | Some k => stripTagsFrom (S k) rest
               | None => String c (stripTagsFrom 0 rest)
               end
          else String c (stripTagsFrom 0 rest)
      end
  end.

Definition stripTags (s : string) : string := stripTagsFrom 0 s.

(** [s.split(c)] for a one-character separator. *)
Fixpoint splitChar (c : ascii) (s : string) : list string :=
  match s with
  | EmptyString => [EmptyString]
  | String d rest =>
      if Ascii.eqb c d then EmptyString :: splitChar c rest
      else match splitChar c rest with
           | seg :: segs => String d seg :: segs
           | [] => [String d EmptyString]
           end
  end.

(** First segment of [s.split(sep)] together with the information
    whether the separator occurs at all (the array has more than one
    element exactly then). *)
Fixpoint beforeFirst (sep s : string) : string :=
  if prefix sep s then EmptyString
  else match s with
       | String c rest => String c (beforeFirst sep rest)
       | EmptyString => EmptyString
       end.

(** ASCII part of [toLowerCase]; no other code unit below 256 is mapped
    to an ASCII letter. *)
Definition lowerAscii (c : ascii) : ascii :=
  let n := nat_of_ascii c in
  if (65 <=? n) && (n <=? 90) then ascii_of_nat (n + 32) else c.

Fixpoint map (f : ascii -> ascii) (s : string) : string :=
  match s with
  | String c rest => String (f c) (map f rest)
  | EmptyString => EmptyString
  end.

(** [s.toLowerCase() === lit] for an ASCII lower-case literal. *)
Definition lowerEquals (s lit : string) : bool := String.eqb (map lowerAscii s) lit.

(** [n.toString()] for a non-negative integer. *)
Definition ofN (n : N) : string := NilZero.string_of_uint (N.to_uint n).

Definition ofNat (n : nat) : string := ofN (N.of_nat n).

(** [s.padStart(width, "0")]. *)
Fixpoint zeros (n : nat) : string :=
  match n with
  | O => EmptyString
  | S k => String "0" (zeros k)
  end.

Definition padStart0 (width : nat) (s : string) : string :=
  zeros (width - String.length s) ++ s.

End JsString.

(* ===================================================================== *)
(** ** [parseInt] *)
(* ===================================================================== *)

Module JsNumber.
Import JsString.

(** Value of a digit in the given radix (10 or 16). *)
Definition digitValue (radix : N) (c : ascii) : option N :=
  let n := N_of_ascii c in
  let v :=
    if (48 <=? n)%N && (n <=? 57)%N then Some (n - 48)%N
    else if (97 <=? n)%N && (n <=? 122)%N then Some (n - 87)%N
    else if (65 <=? n)%N && (n <=? 90)%N then Some (n - 55)%N
    else None in
  match v with
  | Some d => if (d <? radix)%N then Some d else None
  | None => None
  end.

(** Longest prefix of digits, read in the radix; [None] when the prefix
    is empty. *)
Fixpoint digitsFrom (radix : N) (acc : option N) (s : string) : option N :=
  match s with
  | String c rest =>
      match digitValue radix c with
      | Some d =>
          digitsFrom radix
            (Some (match acc with Some a => a * radix + d | None => d end)%N) rest
      | None => acc
      end
  | EmptyString => acc
  end.

Definition stripHexPrefix (s : string) : option string :=
  match s with
  | String "0" (String "x" rest) => Some rest
  | String "0" (String "X" rest) => Some rest
  | _ => None
  end.

(** [parseInt(s)] without a radix argument: leading white space is
    skipped, a sign is read, a [0x]/[0X] prefix selects radix 16, and the
    longest prefix of digits is converted.  [None] is [NaN]. *)
Definition parseInt (s : string) : option Z :=
  let s1 := trimStart s in
  let '(negative, s2) :=
    match s1 with
    | String "-" rest => (true, rest)
    | String "+" rest => (false, rest)
    | _ => (false, s1)
    end in
  let magnitude :=
    match stripHexPrefix s2 with
    | Some s3 => digitsFrom 16 None s3
    | None => digitsFrom 10 None s2
    end in
  match magnitude with
  | Some m => Some (if negative then (- Z.of_N m)%Z else Z.of_N m)
  | None => None
  end.

End JsNumber.

(* ===================================================================== *)
(** ** Text utilities of the parser *)
(* ===================================================================== *)

Import JsString JsNumber.

(** A value of type [string | null | undefined]. *)
Inductive Nullable : Type :=
| JsNull
| JsUndefined
| JsStr (s : string).

(** [x?.trim()] results and the like: [None] is [undefined]. *)
Definition ofOption (o : option string) : Nullable :=
  match o with Some s => JsStr s | None => JsUndefined end.

(** The one-character string holding a double quote. *)
Definition doubleQuote : string := String (ascii_of_nat 34) EmptyString.

(** The chain of entity replacements of lines 124-131: [&nbsp;] first,
    [&apos;] last, each pass over the output of the one before. *)
Definition decodePasses (s : string) : string :=
  replaceAll "&apos;" "'"
    (replaceAll "&#x27;" "'"
    (replaceAll "&#39;" "'"
    (replaceAll "&quot;" doubleQuote
    (replaceAll "&gt;" ">"
    (replaceAll "&lt;" "<"
    (replaceAll "&amp;" "&"
    (replaceAll "&nbsp;" " " s))))))).

(** [cleanHtmlContent] (lines 119-133). *)
Definition cleanHtmlContent (content : Nullable) : option string :=
  match content with
  | JsNull | JsUndefined => None
  | JsStr EmptyString => None
  | JsStr s => Some (trim (decodePasses (stripTags s)))
  end.

(** Thrown values: [undefined], an [Error] or a [TypeError]. *)
Inductive Exn : Type :=
| ThrownUndefined
| Error (message : string)
| TypeError (message : string).

(** Lines written to the console, one constructor per logging site. *)
Inductive LogEntry : Type :=
| ConvertedDuration (durationStr converted trackTitle : string)
| InvalidCoverArtUrl (coverArt : string)
| ParsingFeeds (count : nat)
| ProcessingBatch (number total size : nat)
| RetryingFeedParseInBatch (attempt : nat) (url message : string)
| NetworkErrorOnFetch
| NetworkErrorDetails (message url : string)
| FailedAfterRetries (url : string) (e : Exn)
| BatchFailures (failed number : nat)
| FeedRejected (url : option string) (reason : Exn)
| FeedReturnedNull (url : option string)
| MoreFailures (count : nat)
| ParsedAlbums (albums feeds : nat)
| ParsingAlbumFeed (url : string)
| RetryingFeedParse (attempt : nat) (url message : string)
| CoverArtFound (title art : string)
| NoCoverArt (title : string)
| FoundItems (count : nat)
| AddedTrack (title duration : string) (urlFound : bool)
| ParsedFeed (url : string) (trackCount : nat)
| FailedToParseFeed (url : string) (e : Exn)
| LoadingIroh
| FeedUrlNotAString (typeName : string)
| ErrorParsingPublisherFeed (e : Exn)
| FoundMusicItems (count : nat) (url : string).

(** [`${mins}:${secs.toString().padStart(2, '0')}`] for non-negative
    integers. *)
Definition minSec (mins secs : Z) : string :=
  ofN (Z.to_N mins) ++ ":" ++ padStart0 2 (ofN (Z.to_N secs)).

(** [/^\d+$/.test(s)]. *)
Definition allDigits (s : string) : bool :=
  negb (isEmpty s) && JsString.forallb isDigit s.

(** [normalizeDuration] (lines 138-182), with the line it may write to the
    console.  The numbers are exact integers; the source computes in
    doubles, with the same results as long as every number read and the
    total of minutes stay below 2^53 (which holds for every text of at
    most 15 characters).  Statements that depend on the digits of the
    result carry such a bound. *)
Definition normalizeDuration (duration : string) (trackTitle : option string)
  : string * list LogEntry :=
  if isEmpty duration || isEmpty (trim duration) then ("0:00", [])
  else
    let durationStr := trim duration in
    let unparsed := (if isEmpty durationStr then "0:00" else durationStr, []) in
    if allDigits durationStr then
      match parseInt durationStr with
      | Some seconds =>
          if (0 <? seconds)%Z
          then (minSec (seconds / 60) (Z.rem seconds 60), [])
          else unparsed
      | None => unparsed
      end
    else if includesChar ":" durationStr then
      match splitChar ":" durationStr with
      | [p0; p1] =>
          match parseInt p0, parseInt p1 with
          | Some mins, Some secs =>
              if (0 <=? mins)%Z && (0 <=? secs)%Z && (secs <? 60)%Z
              then (minSec mins secs, [])
              else unparsed
          | _, _ => unparsed
          end
      | [p0; p1; p2] =>
          match parseInt p0, parseInt p1, parseInt p2 with
          | Some hours, Some mins, Some secs =>
              if (0 <=? hours)%Z && (0 <=? mins)%Z && (mins <? 60)%Z
                 && (0 <=? secs)%Z && (secs <? 60)%Z
              then
                let totalMinutes := (hours * 60 + mins)%Z in
                (minSec totalMinutes secs,
                 match trackTitle with
                 | Some t =>
                     if negb (isEmpty t) && (0 <? hours)%Z
                     then [ConvertedDuration durationStr (minSec totalMinutes secs) t]
                     else []
                 | None => []
                 end)
              else unparsed
          | _, _, _ => unparsed
          end
      | _ => unparsed
      end
    else unparsed.

(* ===================================================================== *)
(** ** The parsed XML document *)
(* ===================================================================== *)

(** A DOM node: an element with its qualified name, attributes and child
    nodes, or character data. *)
#[warnings="-register-all"]
Inductive Node : Type :=
| Element (tagName : string) (attributes : list (string * string)) (childNodes : list Node)
| Text (data : string).

Module Dom.

(** Descendants of a node in document order (the node itself excluded). *)
Fixpoint descendants (n : Node) : list Node :=
  match n with
  | Element _ _ children => flat_map (fun c => c :: descendants c) children
  | Text _ => []
  end.

Definition hasTagName (name : string) (n : Node) : bool :=
  match n with
  | Element t _ _ => String.eqb t name
  | Text _ => false
  end.

(** [element.getElementsByTagName(name)]. *)
Definition getElementsByTagName (name : string) (n : Node) : list Node :=
  filter (hasTagName name) (descendants n).

(** [document.getElementsByTagName(name)]: the document element itself
    is a candidate. *)
Definition documentElementsByTagName (name : string) (documentElement : Node) : list Node :=
  filter (hasTagName name) (documentElement :: descendants documentElement).

Fixpoint textContent (n : Node) : string :=
  match n with
  | Element _ _ children => String.concat EmptyString (List.map textContent children)
  | Text d => d
  end.

Fixpoint lookupAttribute (name : string) (attrs : list (string * string)) : option string :=
  match attrs with
  | (k, v) :: rest => if String.eqb k name then Some v else lookupAttribute name rest
  | [] => None
  end.

(** [element.getAttribute(name)]; [None] when the attribute is missing. *)
Definition getAttribute (name : string) (n : Node) : option string :=
  match n with
  | Element _ attrs _ => lookupAttribute name attrs
  | Text _ => None
  end.

(** [node.getElementsByTagName(name)[0]?.textContent?.trim()]. *)
Definition firstText (name : string) (n : Node) : option string :=
  option_map (fun e => trim (textContent e)) (hd_error (getElementsByTagName name n)).

End Dom.

Import Dom.

(** [x || fallback] on an optional string: the empty string is falsy. *)
Definition orElse (x : option string) (fallback : option string) : option string :=
  match x with
  | Some EmptyString | None => fallback
  | Some s => Some s
  end.

(** [x || 'literal']. *)
Definition orDefault (x : option string) (fallback : string) : string :=
  match x with
  | Some EmptyString | None => fallback
  | Some s => s
  end.

(** [x || undefined], and the test [if (x)]. *)
Definition truthy (x : option string) : option string := orElse x None.

(** [text.trim().split(',').map(k => k.trim()).filter(k => k)] of an
    optional element, with [|| []] for a missing one. *)
Definition keywordList (text : option string) : list string :=
  match text with
  | Some t => filter (fun k => negb (isEmpty k)) (List.map trim (splitChar "," t))
  | None => []
  end.

(** [list.length > 0 ? list : undefined]. *)
Definition nonEmptyList {A : Type} (l : list A) : option (list A) :=
  match l with
  | [] => None
  | _ => Some l
  end.

(* ===================================================================== *)
(** ** Record shapes (lines 17-76) *)
(* ===================================================================== *)

Record RSSTrack : Type := {
  trackTitle : string;
  trackDuration : string;
  trackUrl : option string;
  trackNumber : option nat;
  trackSubtitle : option string;
  trackSummary : option string;
  trackImage : option string;
  trackExplicit : option bool;
  trackKeywords : option (list string)
}.

Record RSSFunding : Type := {
  fundingUrl : string;
  fundingMessage : option string
}.

Record RSSPodRoll : Type := {
  podrollUrl : string;
  podrollTitle : option string;
  podrollDescription : option string
}.

Record RSSPublisher : Type := {
  publisherFeedGuid : string;
  publisherFeedUrl : string;
  publisherMedium : string
}.

Record RSSPublisherItem : Type := {
  itemFeedGuid : string;
  itemFeedUrl : string;
  itemMedium : string;
  itemTitle : option string
}.

Record RSSOwner : Type := {
  ownerName : option string;
  ownerEmail : option string
}.

Record RSSAlbum : Type := {
  title : string;
  artist : string;
  description : string;
  coverArt : option string;
  tracks : list RSSTrack;
  releaseDate : string;
  duration : option string;
  link : option string;
  funding : option (list RSSFunding);
  subtitle : option string;
  summary : option string;
  keywords : option (list string);
  categories : option (list string);
  explicit : option bool;
  language : option string;
  copyright : option string;
  owner : option RSSOwner;
  podroll : option (list RSSPodRoll);
  publisher : option RSSPublisher
}.

(* ===================================================================== *)
(** ** Field extraction of the single-feed extractor (lines 510-746) *)
(* ===================================================================== *)

Definition optionEqb (x : option string) (lit : string) : bool :=
  match x with
  | Some s => String.eqb s lit
  | None => false
  end.

(** [el?.textContent?.trim().toLowerCase() === 'true']. *)
Definition explicitFlag (text : option string) : bool :=
  match text with
  | Some t => lowerEquals t "true"
  | None => false
  end.

(** The duration text of an item before normalisation (lines 587-595). *)
Definition rawDuration (item : Node) : string :=
  match truthy (firstText "itunes:duration" item) with
  | Some d => d
  | None =>
      match truthy (firstText "duration" item) with
      | Some d => d
      | None => "0:00"
      end
  end.

(** One iteration of the item loop (lines 583-646); [i] is the 0-based
    loop index. *)
Definition extractTrack (i : nat) (item : Node) : RSSTrack * list LogEntry :=
  let trackTitle := orDefault (firstText "title" item) ("Track " ++ ofNat (i + 1)) in
  let '(duration, converted) := normalizeDuration (rawDuration item) (Some trackTitle) in
  let url1 :=
    match hd_error (getElementsByTagName "enclosure" item) with
    | Some enclosureElement => truthy (getAttribute "url" enclosureElement)
    | None => None
    end in
  let url2 :=
    match url1 with
    | Some _ => url1
    | None =>
        match hd_error (getElementsByTagName "link" item) with
        | Some linkElement => truthy (Some (trim (textContent linkElement)))
        | None => None
        end
    end in
  let url :=
    match url2 with
    | Some _ => url2
    | None =>
        match hd_error (getElementsByTagName "media:content" item) with
        | Some mediaContent => truthy (getAttribute "url" mediaContent)
        | None => None
        end
    end in
  let trackImageEl := hd_error (getElementsByTagName "itunes:image" item) in
  let trackImage :=
    match trackImageEl with
    | Some el => orElse (getAttribute "href" el) (getAttribute "url" el)
    | None => None
    end in
  let trackKeywords := keywordList (firstText "itunes:keywords" item) in
  ({| trackTitle := trackTitle;
      trackDuration := duration;
      trackUrl := url;
      trackNumber := Some (i + 1);
      trackSubtitle := cleanHtmlContent (ofOption (firstText "itunes:subtitle" item));
      trackSummary := cleanHtmlContent (ofOption (firstText "itunes:summary" item));
      trackImage := truthy trackImage;
      trackExplicit := Some (explicitFlag (firstText "itunes:explicit" item));
      trackKeywords := nonEmptyList trackKeywords |},
   converted ++ [AddedTrack trackTitle duration (match url with Some _ => true | None => false end)]).

(** The item loop: [for (let i = 0; i < items.length; i++)]. *)
Fixpoint extractTracksFrom (i : nat) (items : list Node) : list (RSSTrack * list LogEntry) :=
  match items with
  | item :: rest => extractTrack i item :: extractTracksFrom (S i) rest
  | [] => []
  end.

(** Funding entries (lines 654-670). *)
Definition extractFunding (channel : Node) : list RSSFunding :=
  let allFundingElements :=
    getElementsByTagName "podcast:funding" channel ++ getElementsByTagName "funding" channel in
  flat_map
    (fun element =>
       let text := Some (trim (textContent element)) in
       let url := orElse (getAttribute "url" element) text in
       let message := orElse text (getAttribute "message" element) in
       match truthy url with
       | Some u => [{| fundingUrl := u; fundingMessage := truthy message |}]
       | None => []
       end)
    allFundingElements.

(** Pod-roll entries (lines 673-699). *)
Definition extractPodroll (channel : Node) : list RSSPodRoll :=
  let allPodrollElements :=
    getElementsByTagName "podcast:podroll" channel ++ getElementsByTagName "podroll" channel in
  flat_map
    (fun podrollEl =>
       let allRemoteItems :=
         getElementsByTagName "podcast:remoteItem" podrollEl
         ++ getElementsByTagName "remoteItem" podrollEl in
       flat_map
         (fun remoteEl =>
            let feedUrl := getAttribute "feedUrl" remoteEl in
            let feedGuid := getAttribute "feedGuid" remoteEl in
            let title := orElse (getAttribute "title" remoteEl) (Some (trim (textContent remoteEl))) in
            let description := getAttribute "description" remoteEl in
            match truthy feedUrl with
            | Some u =>
                [{| podrollUrl := u;
                    podrollTitle :=
                      Some (orDefault title
                              ("Feed " ++
                               match truthy feedGuid with
                               | Some g => take 8 g ++ "..."
                               | None => "Unknown"
                               end));
                    podrollDescription := truthy description |}]
            | None => []
            end)
         allRemoteItems)
    allPodrollElements.

(** The publisher link (lines 702-722). *)
Definition extractPublisher (channel : Node) : option RSSPublisher :=
  let remoteItems := getElementsByTagName "podcast:remoteItem" channel in
  match find (fun element => optionEqb (getAttribute "medium" element) "publisher") remoteItems with
  | Some element =>
      match truthy (getAttribute "feedGuid" element),
            truthy (getAttribute "feedUrl" element),
            truthy (getAttribute "medium" element) with
      | Some feedGuid, Some feedUrl, Some medium =>
          Some {| publisherFeedGuid := feedGuid;
                  publisherFeedUrl := feedUrl;
                  publisherMedium := medium |}
      | _, _, _ => None
      end
  | None => None
  end.

(** The artist (lines 525-536). *)
Definition extractArtist (channel : Node) (title : string) : string :=
  let authorElement :=
    match getElementsByTagName "itunes:author" channel with
    | first :: _ => Some first
    | [] => hd_error (getElementsByTagName "author" channel)
    end in
  match authorElement with
  | Some el => orDefault (Some (trim (textContent el))) "Unknown Artist"
  | None =>
      if includes " - " title then trim (beforeFirst " - " title)
      else "Unknown Artist"
  end.

(** The owner (lines 571-575 and 740). *)
Definition extractOwner (channel : Node) : option RSSOwner :=
  match hd_error (getElementsByTagName "itunes:owner" channel) with
  | Some ownerEl =>
      let name := firstText "itunes:name" ownerEl in
      let email := firstText "itunes:email" ownerEl in
      match truthy (orElse name email) with
      | Some _ => Some {| ownerName := name; ownerEmail := email |}
      | None => None
      end
  | None => None
  end.

(** The part of the host the extractor relies on.
    - [querySelector selector element] is [element.querySelector(selector)];
      it throws on a host whose elements have no such method.
    - [parseUrl text] is [new URL(text)], as the triple of its
      [protocol], [host] and [pathname]; [None] when the constructor
      throws.
    - [matchImageSource text] is the first capture group of the match of
      [text] against the regular expression of line 250 (the [src] of an
      [img] tag); [None] when there is no match.
    - [currentDate] is [new Date().toISOString()]. *)
Record Extractor : Type := {
  querySelector : string -> Node -> Exn + option Node;
  parseUrl : string -> option (string * string * string);
  matchImageSource : string -> option string;
  currentDate : string
}.

(** [coverArt] after one more strategy: a strategy is tried only while
    [coverArt] is still falsy. *)
Definition unlessFound (coverArt : option string) (strategy : Exn + option string)
  : Exn + option string :=
  match truthy coverArt with
  | Some _ => inr coverArt
  | None => strategy
  end.

(** [element.getAttribute('type')?.startsWith('image/')]. *)
Definition hasImageType (element : Node) : bool :=
  match getAttribute "type" element with
  | Some type => startsWith "image/" type
  | None => false
  end.

(** [extractCoverArt] (lines 187-268), with the warning it may write. *)
Definition extractCoverArt (x : Extractor) (channel : Node) (items : list Node)
  : list LogEntry * (Exn + option string) :=
  (* Method 1: channel-level itunes:image *)
  let imageElement :=
    match hd_error (getElementsByTagName "itunes:image" channel) with
    | Some found => inr (Some found)
    | None => querySelector x "itunes\:image" channel
    end in
  match imageElement with
  | inl e => ([], inl e)
  | inr imageElement =>
      let art1 :=
        match imageElement with
        | Some element => truthy (getAttribute "href" element)
        | None => None
        end in
      (* Method 2: channel-level image url *)
      match unlessFound art1
              match querySelector x "image url" channel with
              | inl e => inl e
              | inr (Some imageUrl) => inr (truthy (Some (trim (textContent imageUrl))))
              | inr None => inr art1
              end with
      | inl e => ([], inl e)
      | inr art2 =>
          (* Method 3: channel-level image attributes *)
          match unlessFound art2
                  match querySelector x "image" channel with
                  | inl e => inl e
                  | inr (Some altImageElement) =>
                      match truthy (orElse (getAttribute "url" altImageElement)
                                           (getAttribute "href" altImageElement)) with
                      | Some altUrl => inr (Some altUrl)
                      | None => inr art2
                      end
                  | inr None => inr art2
                  end with
          | inl e => ([], inl e)
          | inr art3 =>
              (* Method 4: artwork of the first item *)
              let art4 :=
                match truthy art3, items with
                | None, firstItem :: _ =>
                    let fromImage :=
                      match hd_error (getElementsByTagName "itunes:image" firstItem) with
                      | Some element => truthy (getAttribute "href" element)
                      | None => art3
                      end in
                    let fromMedia :=
                      match truthy fromImage with
                      | Some _ => fromImage
                      | None =>
                          match hd_error (getElementsByTagName "media:content" firstItem) with
                          | Some mediaContent =>
                              if hasImageType mediaContent
                              then truthy (getAttribute "url" mediaContent)
                              else fromImage
                          | None => fromImage
                          end
                      end in
                    match truthy fromMedia with
                    | Some _ => fromMedia
                    | None =>
                        match hd_error (getElementsByTagName "enclosure" firstItem) with
                        | Some enclosure =>
                            if hasImageType enclosure
                            then truthy (getAttribute "url" enclosure)
                            else fromMedia
                        | None => fromMedia
                        end
                    end
                | _, _ => art3
                end in
              (* Method 5: an image in the description *)
              let art5 :=
                match truthy art4 with
                | Some _ => art4
                | None =>
                    let description :=
                      match hd_error (getElementsByTagName "description" channel) with
                      | Some element => textContent element
                      | None => EmptyString
                      end in
                    match matchImageSource x description with
                    | Some source => Some source
                    | None => art4
                    end
                end in
              (* Clean up the cover art URL *)
              match truthy art5 with
              | Some coverArt =>
                  match parseUrl x coverArt with
                  | Some (protocol, host, pathname) =>
                      ([], inr (Some (protocol ++ "//" ++ host ++ pathname)%string))
                  | None => ([InvalidCoverArtUrl coverArt], inr (Some coverArt))
                  end
              | None => ([], inr art5)
              end
          end
      end
  end.

(** The album record and the console lines of lines 517-743, once the
    channel, the items and the cover art are known. *)
Definition buildAlbum (x : Extractor) (channel : Node) (items : list Node)
           (coverArt : option string) : list LogEntry * RSSAlbum :=
  let title := orDefault (firstText "title" channel) "Unknown Album" in
  let description := orDefault (firstText "description" channel) EmptyString in
  let link := orDefault (firstText "link" channel) EmptyString in
  let artist := extractArtist channel title in
  let artLog :=
    match truthy coverArt with
    | Some art => CoverArtFound title art
    | None => NoCoverArt title
    end in
  let keywords := keywordList (firstText "itunes:keywords" channel) in
  let categories :=
    flat_map
      (fun cat => match truthy (getAttribute "text" cat) with
                  | Some t => [t]
                  | None => []
                  end)
      (getElementsByTagName "itunes:category" channel) in
  let extracted := extractTracksFrom 0 items in
  let pubDateElement :=
    match getElementsByTagName "pubDate" channel with
    | first :: _ => Some first
    | [] => hd_error (getElementsByTagName "lastBuildDate" channel)
    end in
  let releaseDate :=
    orDefault (option_map (fun e => trim (textContent e)) pubDateElement)
              (currentDate x) in
  (artLog :: FoundItems (List.length items) :: flat_map snd extracted,
   {| title := title;
      artist := artist;
      description := orDefault (cleanHtmlContent (JsStr description)) EmptyString;
      coverArt := coverArt;
      tracks := List.map fst extracted;
      releaseDate := releaseDate;
      duration := None;
      link := Some link;
      funding := nonEmptyList (extractFunding channel);
      subtitle := cleanHtmlContent (ofOption (firstText "itunes:subtitle" channel));
      summary := cleanHtmlContent (ofOption (firstText "itunes:summary" channel));
      keywords := nonEmptyList keywords;
      categories := nonEmptyList categories;
      explicit := Some (explicitFlag (firstText "itunes:explicit" channel));
      language := firstText "language" channel;
      copyright := firstText "copyright" channel;
      owner := extractOwner channel;
      podroll := nonEmptyList (extractPodroll channel);
      publisher := extractPublisher channel |}).

(** From the parsed document to the album record (lines 510-743), with
    the console lines written on the way. *)
Definition extractAlbum (x : Extractor) (xmlDoc : Node) : list LogEntry * (Exn + RSSAlbum) :=
  match documentElementsByTagName "channel" xmlDoc with
  | [] => ([], inl (Error "Invalid RSS feed: no channel found"))
  | channel :: _ =>
      let items := documentElementsByTagName "item" xmlDoc in
      match extractCoverArt x channel items with
      | (warnings, inl e) => (warnings, inl e)
      | (warnings, inr coverArt) =>
          let '(lines, album) := buildAlbum x channel items coverArt in
          (warnings ++ lines, inr album)
      end
  end.

(* ===================================================================== *)
(** ** Asynchronous code: the [Task] monad *)
(* ===================================================================== *)

(** How a promise settles. *)
Inductive Outcome (A : Type) : Type :=
| Fulfilled (value : A)
| Rejected (reason : Exn).

Arguments Fulfilled {A} value.
Arguments Rejected {A} reason.

(** State of one logical thread of asynchronous code: the virtual clock in
    milliseconds, the delays handed to [setTimeout] so far, and the lines
    written to the console so far (oldest first). *)
Record TaskState : Type := {
  now : nat;
  timers : list nat;
  console : list LogEntry
}.

Definition Task (A : Type) : Type := TaskState -> Outcome A * TaskState.

Module TaskMonad.

Definition ret {A : Type} (a : A) : Task A := fun st => (Fulfilled a, st).

(** [throw e], or a rejected promise that is awaited. *)
Definition throw {A : Type} (e : Exn) : Task A := fun st => (Rejected e, st).

(** [const x = await c; k x]. *)
Definition bind {A B : Type} (c : Task A) (k : A -> Task B) : Task B :=
  fun st =>
    match c st with
    | (Fulfilled a, st') => k a st'
    | (Rejected e, st') => (Rejected e, st')
    end.

(** [try { body } catch (error) { handler error }]: only what is thrown
    or awaited inside [body] reaches the handler. *)
Definition tryCatch {A : Type} (body : Task A) (handler : Exn -> Task A) : Task A :=
  fun st =>
    match body st with
    | (Fulfilled a, st') => (Fulfilled a, st')
    | (Rejected e, st') => handler e st'
    end.

(** [console.log] / [console.warn] / [console.error]. *)
Definition logLine (entry : LogEntry) : Task unit :=
  fun st =>
    (Fulfilled tt,
     {| now := now st; timers := timers st; console := console st ++ [entry] |}).

Definition logLines (entries : list LogEntry) : Task unit :=
  fun st =>
    (Fulfilled tt,
     {| now := now st; timers := timers st; console := console st ++ entries |}).

(** [await new Promise(resolve => setTimeout(resolve, ms))]. *)
Definition sleep (ms : nat) : Task unit :=
  fun st =>
    (Fulfilled tt,
     {| now := now st + ms; timers := timers st ++ [ms]; console := console st |}).

(** Lift a synchronous computation that may throw. *)
Definition ofResult {A : Type} (r : Exn + A) : Task A :=
  match r with
  | inl e => throw e
  | inr a => ret a
  end.

End TaskMonad.

Import TaskMonad.

Declare Scope task_scope.
Delimit Scope task_scope with task.
Notation "x <- c ;; k" := (bind c (fun x => k))
  (at level 61, c at next level, right associativity) : task_scope.
Notation "c ;; k" := (bind c (fun _ => k))
  (at level 61, right associativity) : task_scope.
Open Scope task_scope.

(* ===================================================================== *)
(** ** The retry wrapper (lines 86-114) *)
(* ===================================================================== *)

Section WithRetry.
Context {T : Type}.
Variable fn : Task T.
Variable maxRetries : nat.
Variable delay : nat.
Variable onRetry : option (nat -> Exn -> Task unit).

(** The [for] loop from [attempt] on; [remaining] is the number of
    iterations left ([maxRetries - attempt + 1]) and [lastError] the
    variable of that name.  When the loop runs out, [lastError] is
    thrown (line 113). *)
Fixpoint retryLoop (remaining attempt : nat) (lastError : Exn) : Task T :=
  match remaining with
  | O => throw lastError
  | S remaining' =>
      tryCatch fn
        (fun error =>
           if attempt =? maxRetries then throw error
           else
             match onRetry with
             | Some callback => callback attempt error
             | None => ret tt
             end ;;
             sleep (delay * 2 ^ (attempt - 1)) ;;
             retryLoop remaining' (S attempt) error)
  end.

Definition withRetry : Task T := retryLoop maxRetries 1 ThrownUndefined.

End WithRetry.

(* ===================================================================== *)
(** ** The platform: network, XML parser, execution context *)
(* ===================================================================== *)

Record Response : Type := {
  ok : bool;
  status : nat;
  statusText : string;
  body : string   (* what [response.text()] resolves to *)
}.

Inductive FetchResult : Type :=
| NetworkFailure (reason : Exn)   (* [fetch] rejects *)
| HttpResponse (response : Response).

(** The host of the parser.  [network url t] is the answer to a request
    for [url] issued at time [t], with the time it takes to arrive.
    [parseFromString] is [DOMParser.parseFromString(text, 'text/xml')],
    giving the document element or throwing.  [schedule t sizes] is the
    order in which the event loop serves promises started together at
    time [t], as a sequence of positions in the array of promises (see
    [interleave]); [sizes] are the numbers of entries the promises
    produce. *)
Record Platform : Type := {
  isServer : bool;   (* [typeof window === 'undefined'] *)
  network : string -> nat -> nat * FetchResult;
  encodeURIComponent : string -> string;
  parseFromString : string -> Exn + Node;
  extractor : Extractor;
  schedule : nat -> list nat -> list nat
}.

(** Promises that run concurrently share the console: their lines reach
    it interleaved, in the order in which the host serves the promises,
    each promise keeping the order of its own lines.  [takeNext k threads]
    takes the next entry of the promise at position [k], when it has one
    left.  [interleave choices threads] merges the entries of the
    promises: every choice names the promise whose next entry comes next
    (a choice naming a promise with no entry left is passed over), and
    what is left when the choices run out follows promise by promise. *)
Fixpoint takeNext {A : Type} (k : nat) (threads : list (list A))
  : option (A * list (list A)) :=
  match threads, k with
  | [], _ => None
  | [] :: _, O => None
  | (x :: thread) :: rest, O => Some (x, thread :: rest)
  | thread :: rest, S k' =>
      match takeNext k' rest with
      | Some (x, rest') => Some (x, thread :: rest')
      | None => None
      end
  end.

Fixpoint interleave {A : Type} (choices : list nat) (threads : list (list A)) : list A :=
  match choices with
  | [] => concat threads
  | k :: later =>
      match takeNext k threads with
      | Some (x, threads') => x :: interleave later threads'
      | None => interleave later threads
      end
  end.

Section Parser.
Variable p : Platform.

(** [await fetch(url)]. *)
Definition fetch (url : string) : Task Response :=
  fun st =>
    let '(latency, answer) := network p url (now st) in
    let st' := {| now := now st + latency; timers := timers st; console := console st |} in
    match answer with
    | NetworkFailure reason => (Rejected reason, st')
    | HttpResponse response => (Fulfilled response, st')
    end.

(** The request of lines 461-471 (and 788-797): direct on the server,
    through the same-origin proxy in the browser. *)
Definition fetchFeed (feedUrl : string) : Task Response :=
  if isServer p then fetch feedUrl
  else
    let isAlreadyProxied := startsWith "/api/fetch-rss" feedUrl in
    let proxyUrl :=
      if isAlreadyProxied then feedUrl
      else ("/api/fetch-rss?url=" ++ encodeURIComponent p feedUrl)%string in
    fetch proxyUrl.

(** [error instanceof Error ? error.message : fallback]. *)
Definition messageOr (fallback : string) (error : Exn) : string :=
  match error with
  | Error m | TypeError m => m
  | ThrownUndefined => fallback
  end.

(** [error.message] as the retry callbacks read it: reading a property
    of [undefined] throws. *)
Definition errorMessage (error : Exn) : Task string :=
  match error with
  | Error m | TypeError m => ret m
  | ThrownUndefined =>
      throw (TypeError "Cannot read properties of undefined (reading 'message')")
  end.

(** Lines 491-508: parse the text, reject a [parsererror] document. *)
Definition parseXmlChecked (xmlText : string) : Task Node :=
  tryCatch
    (xmlDoc <- ofResult (parseFromString p xmlText) ;;
     match documentElementsByTagName "parsererror" xmlDoc with
     | parserError :: _ => throw (Error ("Invalid XML format: " ++ textContent parserError))
     | [] => ret xmlDoc
     end)
    (fun error => throw (Error ("Failed to parse XML content: " ++ messageOr "Parse error" error))).

(** The operation handed to [withRetry] by [parseAlbumFeed]
    (lines 458-747). *)
Definition parseAlbumFeedAttempt (feedUrl : string) : Task RSSAlbum :=
  logLine (ParsingAlbumFeed feedUrl) ;;
  response <-
    tryCatch (fetchFeed feedUrl)
      (fun error =>
         throw (Error ("Failed to fetch RSS feed: " ++ messageOr "Network error" error))) ;;
  if negb (ok response)
  then throw (Error ("Failed to fetch RSS feed: " ++ ofNat (status response)
                     ++ " " ++ statusText response))
  else
    let xmlText := body response in
    if isEmpty xmlText || (String.length (trim xmlText) =? 0)
    then throw (Error "Empty response from RSS feed")
    else if negb (includesChar "<" xmlText) || negb (includesChar ">" xmlText)
    then throw (Error "Response is not valid XML")
    else
      xmlDoc <- parseXmlChecked xmlText ;;
      let '(lines, extracted) := extractAlbum (extractor p) xmlDoc in
      logLines lines ;;
      album <- ofResult extracted ;;
      logLine (ParsedFeed feedUrl (List.length (tracks album))) ;;
      ret album.

(** [parseAlbumFeed] (lines 457-758): three attempts, then [null]. *)
Definition parseAlbumFeed (feedUrl : string) : Task (option RSSAlbum) :=
  tryCatch
    (album <-
       withRetry (parseAlbumFeedAttempt feedUrl) 3 1000
         (Some (fun attempt error =>
                  message <- errorMessage error ;;
                  logLine (RetryingFeedParse attempt feedUrl message))) ;;
     ret (Some album))
    (fun error =>
       logLine (FailedToParseFeed feedUrl error) ;;
       ret None).

(** [parsePublisherFeedFromUrl] (lines 787-848). *)
Definition parsePublisherFeedFromUrl (feedUrl : string) : Task (list RSSPublisherItem) :=
  response <- fetchFeed feedUrl ;;
  if negb (ok response)
  then throw (Error ("Failed to fetch publisher feed: " ++ ofNat (status response)))
  else
    xmlDoc <- ofResult (parseFromString p (body response)) ;;
    match documentElementsByTagName "parsererror" xmlDoc with
    | _ :: _ => throw (Error "Invalid XML format")
    | [] =>
        match documentElementsByTagName "channel" xmlDoc with
        | [] => throw (Error "Invalid RSS feed: no channel found")
        | channel :: _ =>
            let publisherItems :=
              flat_map
                (fun element =>
                   let medium := getAttribute "medium" element in
                   let title :=
                     orElse (getAttribute "title" element)
                            (Some (trim (textContent element))) in
                   match truthy (getAttribute "feedGuid" element),
                         truthy (getAttribute "feedUrl" element) with
                   | Some feedGuid, Some feedUrl =>
                       if optionEqb medium "music"
                       then [{| itemFeedGuid := feedGuid; itemFeedUrl := feedUrl;
                                itemMedium := "music"; itemTitle := title |}]
                       else []
                   | _, _ => []
                   end)
                (getElementsByTagName "podcast:remoteItem" channel) in
            logLine (FoundMusicItems (List.length publisherItems) feedUrl) ;;
            ret publisherItems
        end
    end.

(** The argument of [parsePublisherFeed] as it arrives at run time: a
    string, or a value of another type (named by [typeof]). *)
Inductive FeedUrlArg : Type :=
| UrlString (url : string)
| NotAString (typeName : string).

(** [parsePublisherFeed] (lines 763-782).  The [try] block hands back
    the promise of [parsePublisherFeedFromUrl] without awaiting it
    ([return this.parsePublisherFeedFromUrl(...)]): the block completes
    normally with that promise as its value, and the promise returned by
    the [async] function then settles the way that promise does.  Only
    the [throw] of line 774 happens inside the block. *)
Definition parsePublisherFeed (feedUrl : FeedUrlArg) : Task (list RSSPublisherItem) :=
  promise <-
    tryCatch
      (match feedUrl with
       | UrlString url =>
           if String.eqb url "iroh-aggregated"
           then
             logLine LoadingIroh ;;
             let actualFeedUrl :=
               "https://wavlake.com/feed/artist/8a9c2e54-785a-4128-9412-737610f5d00a" in
             ret (parsePublisherFeedFromUrl actualFeedUrl)
           else ret (parsePublisherFeedFromUrl url)
       | NotAString typeName =>
           logLine (FeedUrlNotAString typeName) ;;
           throw (TypeError ("feedUrl must be a string (URL). Received: " ++ typeName))
       end)
      (fun error =>
         logLine (ErrorParsingPublisherFeed error) ;;
         ret (ret [])) ;;
  promise.

(* =================================================================== *)
(** *** The batch aggregator (lines 273-343) *)
(* =================================================================== *)

Definition batchSize : nat := 20.

(** The function mapped over a window (lines 284-310). *)
Definition parseInBatch (url : string) : Task (option RSSAlbum) :=
  tryCatch
    (withRetry (parseAlbumFeed url) 2 1000
       (Some (fun attempt error =>
                message <- errorMessage error ;;
                logLine (RetryingFeedParseInBatch attempt url message))))
    (fun error =>
       match error with
       | TypeError message =>
           if includes "NetworkError" message
           then logLine NetworkErrorOnFetch ;;
                logLine (NetworkErrorDetails message url) ;;
                ret None
           else logLine (FailedAfterRetries url error) ;; ret None
       | _ => logLine (FailedAfterRetries url error) ;; ret None
       end).

(** A promise started from the current state runs on a thread of its
    own: it sees the clock of the moment it is started, and its timers
    and console lines are its own. *)
Definition threadStart (time : nat) : TaskState :=
  {| now := time; timers := []; console := [] |}.

Definition startTask {A : Type} (t : Task A) (st : TaskState) : Outcome A * TaskState :=
  t (threadStart (now st)).

(** The entries (console lines, timers) that promises running
    concurrently from time [time] add to the shared list, in the order in
    which the host serves them. *)
Definition joined {A : Type} (time : nat) (threads : list (list A)) : list A :=
  interleave (schedule p time (List.map (@List.length A) threads)) threads.

(** [await Promise.allSettled(promises)]: never rejects; the array of
    results has one entry per promise, at the index of that promise in
    the input array, whenever each of them settles.  The join is over
    when the last promise has settled; until then the promises run
    concurrently, and their console lines and timers are interleaved as
    the host serves them. *)
Definition allSettled {A : Type} (promises : list (Task A)) : Task (list (Outcome A)) :=
  fun st =>
    let runs := List.map (fun t => startTask t st) promises in
    (Fulfilled (List.map fst runs),
     {| now := fold_left Nat.max (List.map (fun r => now (snd r)) runs) (now st);
        timers := timers st ++ joined (now st) (List.map (fun r => timers (snd r)) runs);
        console := console st ++ joined (now st) (List.map (fun r => console (snd r)) runs) |}).

(** [result.status === 'fulfilled' && result.value !== null]. *)
Definition isSuccessful (result : Outcome (option RSSAlbum)) : bool :=
  match result with
  | Fulfilled (Some _) => true
  | _ => false
  end.

(** [result.status === 'rejected' || result.value === null]. *)
Definition isFailed (result : Outcome (option RSSAlbum)) : bool :=
  match result with
  | Rejected _ => true
  | Fulfilled None => true
  | Fulfilled (Some _) => false
  end.

(** [successful.map(result => result.value)]. *)
Definition successValues (results : list (Outcome (option RSSAlbum))) : list RSSAlbum :=
  flat_map
    (fun result => match result with
                   | Fulfilled (Some album) => [album]
                   | _ => []
                   end)
    results.

(** [array.forEach((x, index) => ...)] collecting console lines. *)
Fixpoint forEachIndexed {A : Type} (f : A -> nat -> list LogEntry) (index : nat) (l : list A)
  : list LogEntry :=
  match l with
  | x :: rest => f x index ++ forEachIndexed f (S index) rest
  | [] => []
  end.

(** Lines 319-331. *)
Definition reportFailures (batch : list string) (batchNumber : nat)
           (failed : list (Outcome (option RSSAlbum))) : list LogEntry :=
  if 0 <? List.length failed
  then
    BatchFailures (List.length failed) batchNumber
    :: forEachIndexed
         (fun result index =>
            match result with
            | Rejected reason => [FeedRejected (nth_error batch index) reason]
            | Fulfilled None => [FeedReturnedNull (nth_error batch index)]
            | Fulfilled (Some _) => []
            end)
         0 (firstn 3 failed)
    ++ (if 3 <? List.length failed then [MoreFailures (List.length failed - 3)] else [])
  else [].

(** [array.slice(from, to)]. *)
Definition slice {A : Type} (from to : nat) (l : list A) : list A :=
  firstn (to - from) (skipn from l).

(** The values of [i] in [for (let i = 0; i < n; i += step)]. *)
Definition loopIndices (n step : nat) : list nat :=
  List.map (fun k => k * step) (seq 0 ((n + step - 1) / step)).

Section Aggregate.
Variable feedUrls : list string.

(** The body of the loop (lines 281-338) for one value of [i]; it
    gives the array [results] as it is after the iteration. *)
Definition processBatch (i : nat) (results : list RSSAlbum) : Task (list RSSAlbum) :=
  let batch := slice i (i + batchSize) feedUrls in
  let batchNumber := i / batchSize + 1 in
  logLine (ProcessingBatch batchNumber
             ((List.length feedUrls + batchSize - 1) / batchSize)
             (List.length batch)) ;;
  batchResults <- allSettled (List.map parseInBatch batch) ;;
  let successful := filter isSuccessful batchResults in
  let failed := filter isFailed batchResults in
  logLines (reportFailures batch batchNumber failed) ;;
  let results' := results ++ successValues successful in
  (if i + batchSize <? List.length feedUrls then sleep 50 else ret tt) ;;
  ret results'.

(** The loop over the remaining values of [i]. *)
Fixpoint batchLoop (indices : list nat) (results : list RSSAlbum) : Task (list RSSAlbum) :=
  match indices with
  | [] => ret results
  | i :: rest =>
      results' <- processBatch i results ;;
      batchLoop rest results'
  end.

Definition parseMultipleFeedsInternal : Task (list RSSAlbum) :=
  logLine (ParsingFeeds (List.length feedUrls)) ;;
  results <- batchLoop (loopIndices (List.length feedUrls) batchSize) [] ;;
  logLine (ParsedAlbums (List.length results) (List.length feedUrls)) ;;
  ret results.

End Aggregate.

End Parser.

(* ===================================================================== *)
(** ** Definitions used to state the properties *)
(* ===================================================================== *)

(** The named entities of the text-cleaning contract with the characters
    they stand for. *)
Definition namedEntities : list (string * string) :=
  [ ("&nbsp;", " "); ("&amp;", "&"); ("&lt;", "<"); ("&gt;", ">");
    ("&quot;", doubleQuote); ("&#39;", "'"); ("&#x27;", "'"); ("&apos;", "'") ].

(** Decoding without recursion, as the specification words it: one scan
    of the original text, in which every entity found is replaced and the
    replacement is never looked at again. *)
Fixpoint decodeOnceFrom (skip : nat) (s : string) : string :=
  match s with
  | EmptyString => EmptyString
  | String c rest =>
      match skip with
      | S k => decodeOnceFrom k rest
      | O =>
          match find (fun entity => prefix (fst entity) s) namedEntities with
          | Some (pat, rep) => rep ++ decodeOnceFrom (String.length pat - 1) rest
          | None => String c (decodeOnceFrom 0 rest)
          end
      end
  end.

Definition cleanDecodingOnce (content : Nullable) : option string :=
  match content with
  | JsNull | JsUndefined => None
  | JsStr EmptyString => None
  | JsStr s => Some (trim (decodeOnceFrom 0 (stripTags s)))
  end.

(** What the chain of passes amounts to, read off one ampersand at a
    time.  [decodeSegment segment] is what becomes of an ampersand
    followed by [segment], the text up to the next ampersand: a listed
    entity gives its character; [&amp;] directly followed by the rest of
    an entity that a later pass reads ([lt;], [gt;], [quot;], [#39;],
    [#x27;], [apos;]) gives the character of that entity; any other
    [&amp;] gives an ampersand, so that [&amp;amp;] and [&amp;nbsp;] stop
    at [&amp;] and [&nbsp;]; an ampersand that starts no listed entity
    stays. *)
Definition decodeSegment (segment : string) : string :=
  if prefix "nbsp;" segment then " " ++ drop 5 segment
  else if prefix "amp;" segment then
    let rest := drop 4 segment in
    if prefix "lt;" rest then "<" ++ drop 3 rest
    else if prefix "gt;" rest then ">" ++ drop 3 rest
    else if prefix "quot;" rest then doubleQuote ++ drop 5 rest
    else if prefix "#39;" rest then "'" ++ drop 4 rest
    else if prefix "#x27;" rest then "'" ++ drop 5 rest
    else if prefix "apos;" rest then "'" ++ drop 5 rest
    else "&" ++ rest
  else if prefix "lt;" segment then "<" ++ drop 3 segment
  else if prefix "gt;" segment then ">" ++ drop 3 segment
  else if prefix "quot;" segment then doubleQuote ++ drop 5 segment
  else if prefix "#39;" segment then "'" ++ drop 4 segment
  else if prefix "#x27;" segment then "'" ++ drop 5 segment
  else if prefix "apos;" segment then "'" ++ drop 5 segment
  else "&" ++ segment.

(** One scan of the text: what stands before the first ampersand is
    kept, and every ampersand is decoded with the segment after it. *)
Definition decodeText (s : string) : string :=
  match splitChar "&" s with
  | before :: segments => before ++ String.concat "" (List.map decodeSegment segments)
  | [] => s
  end.

(** Text in the course of the passes.  A part is a mark with the text
    that follows it up to the next mark; a mark is an ampersand still to
    be read or the character a pass has put in the place of an entity.
    [passOver body rep] is what the pass for the entity [&body] does to a
    part, and [allPasses] what the eight passes do to it in turn. *)
Definition isMark (c : ascii) : bool :=
  existsb (Ascii.eqb c) ["&"; " "; "<"; ">"; ascii_of_nat 34; "'"]%char.

Definition render (before : string) (parts : list (ascii * string)) : string :=
  (before ++ fold_right (fun part rest => String (fst part) (snd part ++ rest)) "" parts)%string.

Definition passOver (body : string) (rep : ascii) (part : ascii * string) : ascii * string :=
  if Ascii.eqb (fst part) "&" && prefix body (snd part)
  then (rep, drop (String.length body) (snd part))
  else part.

Definition wellMarked (part : ascii * string) : Prop :=
  isMark (fst part) = true /\ includesChar "&" (snd part) = false.

Definition allPasses (part : ascii * string) : ascii * string :=
  passOver "apos;" "'"
    (passOver "#x27;" "'"
    (passOver "#39;" "'"
    (passOver "quot;" (ascii_of_nat 34)
    (passOver "gt;" ">"
    (passOver "lt;" "<"
    (passOver "amp;" "&"
    (passOver "nbsp;" " " part))))))).

(** Canonical [M:SS]: one or more digits, a colon, two digits that read
    as less than sixty. *)
Definition isCanonicalDuration (s : string) : bool :=
  match splitChar ":" s with
  | [minutes; String tens (String units EmptyString)] =>
      allDigits minutes && isDigit tens && isDigit units && (nat_of_ascii tens <? 54)
  | _ => false
  end.

(** The duration rules of the specification (section 4.2, rules 2 to 4):
    [ReadsAs text mins secs] when the text can be parsed, with the minutes
    and seconds it stands for.  A text of digits only is a positive
    number of seconds; two fields separated by a colon are minutes and
    seconds; three fields are hours, minutes and seconds.  The fields are
    read by [parseInt] and have to be in range. *)
Inductive ReadsAs : string -> Z -> Z -> Prop :=
| ReadSeconds (text : string) (seconds : Z) :
    allDigits text = true ->
    parseInt text = Some seconds ->
    (0 < seconds)%Z ->
    ReadsAs text (seconds / 60) (Z.rem seconds 60)
| ReadMinutesSeconds (m s : string) (mins secs : Z) :
    includesChar ":" m = false ->
    includesChar ":" s = false ->
    parseInt m = Some mins ->
    parseInt s = Some secs ->
    (0 <= mins)%Z ->
    (0 <= secs < 60)%Z ->
    ReadsAs (m ++ ":" ++ s) mins secs
| ReadHoursMinutesSeconds (h m s : string) (hours mins secs : Z) :
    includesChar ":" h = false ->
    includesChar ":" m = false ->
    includesChar ":" s = false ->
    parseInt h = Some hours ->
    parseInt m = Some mins ->
    parseInt s = Some secs ->
    (0 <= hours)%Z ->
    (0 <= mins < 60)%Z ->
    (0 <= secs < 60)%Z ->
    ReadsAs (h ++ ":" ++ m ++ ":" ++ s) (hours * 60 + mins) secs.

(** The retry contract.  [notify] invokes the callback, when there is
    one, with the attempt number and the error.
    [RetryRun attempt st r]: the wrapper, about to make attempt number
    [attempt] in state [st], ends in [r].  The first three rules are the
    contract as the specification words it; the fourth is what happens
    when the callback itself throws. *)
Definition notify (onRetry : option (nat -> Exn -> Task unit)) (attempt : nat) (error : Exn)
  : Task unit :=
  match onRetry with
  | Some callback => callback attempt error
  | None => ret tt
  end.

Inductive RetryRun {T : Type} (fn : Task T) (maxRetries delay : nat)
          (onRetry : option (nat -> Exn -> Task unit))
  : nat -> TaskState -> Outcome T * TaskState -> Prop :=
| RunSuccess (attempt : nat) (st st' : TaskState) (v : T) :
    (* the operation succeeds: its value is returned, nothing else happens *)
    fn st = (Fulfilled v, st') ->
    RetryRun fn maxRetries delay onRetry attempt st (Fulfilled v, st')
| RunExhausted (attempt : nat) (st st' : TaskState) (e : Exn) :
    (* the operation fails on the last attempt: its error is propagated *)
    fn st = (Rejected e, st') ->
    attempt = maxRetries ->
    RetryRun fn maxRetries delay onRetry attempt st (Rejected e, st')
| RunRetry (attempt : nat) (st st1 st2 : TaskState) (e : Exn) (r : Outcome T * TaskState) :
    (* the operation fails with attempts remaining: callback, wait, retry *)
    fn st = (Rejected e, st1) ->
    attempt < maxRetries ->
    notify onRetry attempt e st1 = (Fulfilled tt, st2) ->
    RetryRun fn maxRetries delay onRetry (S attempt)
             (snd (sleep (delay * 2 ^ (attempt - 1)) st2)) r ->
    RetryRun fn maxRetries delay onRetry attempt st r
| RunCallbackThrows (attempt : nat) (st st1 st2 : TaskState) (e e' : Exn) :
    (* the operation fails with attempts remaining and the callback throws:
       its error ends the call, with no wait and no further attempt *)
    fn st = (Rejected e, st1) ->
    attempt < maxRetries ->
    notify onRetry attempt e st1 = (Rejected e', st2) ->
    RetryRun fn maxRetries delay onRetry attempt st (Rejected e', st2).

(** An operation that fails until the clock reaches [ready], and a retry
    callback that writes one console line. *)
Definition failsUntil (ready : nat) (value : nat) : Task nat :=
  fun st =>
    if now st <? ready then (Rejected (Error "not ready"), st)
    else (Fulfilled value, st).

(** A retry callback that throws. *)
Definition refuseRetry (attempt : nat) (error : Exn) : Task unit :=
  throw (Error "callback failed").

Definition noteRetry (attempt : nat) (error : Exn) : Task unit :=
  logLine (RetryingFeedParse attempt "operation"
             match error with
             | Error m | TypeError m => m
             | ThrownUndefined => EmptyString
             end).

Definition initialState : TaskState := {| now := 0; timers := []; console := [] |}.

(** The order in which promises started together settle: by the clock
    at which each of them is done, promises done at the same time in the
    order in which they were started. *)
Definition settledAt {A : Type} (run : Outcome A * TaskState) : nat := now (snd run).

Fixpoint insertBySettling {A : Type} (run : Outcome A * TaskState)
         (sorted : list (Outcome A * TaskState)) : list (Outcome A * TaskState) :=
  match sorted with
  | [] => [run]
  | r :: rest =>
      if settledAt run <=? settledAt r then run :: sorted
      else r :: insertBySettling run rest
  end.

Definition inCompletionOrder {A : Type} (runs : list (Outcome A * TaskState))
  : list (Outcome A * TaskState) :=
  fold_right insertBySettling [] runs.

(** The successes of a window as the specification words them: in the
    order in which the promises of the window complete. *)
Definition windowSuccessesByCompletion (p : Platform) (batch : list string) (st : TaskState)
  : list RSSAlbum :=
  successValues
    (List.map fst
       (inCompletionOrder (List.map (fun url => startTask (parseInBatch p url) st) batch))).

(** The lines with which the aggregator reports failed feeds
    (lines 320-329). *)
Definition isFailureReport (entry : LogEntry) : bool :=
  match entry with
  | BatchFailures _ _ | FeedRejected _ _ | FeedReturnedNull _ | MoreFailures _ => true
  | _ => false
  end.

(** What the promises of a window started at [time] settle to, in the
    order of the addresses of the window. *)
Definition windowResults (p : Platform) (batch : list string) (time : nat)
  : list (Outcome (option RSSAlbum)) :=
  List.map (fun url => fst (parseAlbumFeed p url (threadStart time))) batch.

(** The addresses of a window whose promise gave [null]. *)
Definition nullFeeds (p : Platform) (batch : list string) (time : nat) : list string :=
  flat_map
    (fun url =>
       match fst (parseAlbumFeed p url (threadStart time)) with
       | Fulfilled None => [url]
       | _ => []
       end)
    batch.

(** The lines the attempts of the single-feed extractor write, and the
    addresses named by its lines for a feed given up after the retries
    (line 755). *)
Definition isAttemptLine (entry : LogEntry) : bool :=
  match entry with
  | ParsingAlbumFeed _ | RetryingFeedParse _ _ _ | InvalidCoverArtUrl _
  | CoverArtFound _ _ | NoCoverArt _ | FoundItems _ | ConvertedDuration _ _ _
  | AddedTrack _ _ _ | ParsedFeed _ _ => true
  | _ => false
  end.

Definition givenUpFeeds (lines : list LogEntry) : list string :=
  flat_map
    (fun entry => match entry with FailedToParseFeed url _ => [url] | _ => [] end)
    lines.

(** What one window contributes: the albums of its addresses that were
    parsed, in the order of the addresses; the lines with which the
    aggregator reports the others; the addresses given up by the
    extractor. *)
Record WindowReport : Type := {
  windowAlbums : list RSSAlbum;
  windowReports : list LogEntry;
  windowGivenUp : list string
}.

Definition WindowOutcome (p : Platform) (feedUrls : list string) (i : nat)
           (w : WindowReport) : Prop :=
  exists time,
    let batch := slice i (i + batchSize) feedUrls in
    let results := windowResults p batch time in
    windowAlbums w = successValues results
    /\ windowReports w = reportFailures batch (i / batchSize + 1) (filter isFailed results)
    /\ windowGivenUp w = nullFeeds p batch time.

(** The albums among the results of parsing a list of addresses. *)
Definition albumsOf (outcomes : list (option RSSAlbum)) : list RSSAlbum :=
  flat_map (fun o => match o with Some album => [album] | None => [] end) outcomes.

(** A task that writes only lines of the kind [Q] to the console. *)
Definition writesOnly {A : Type} (Q : LogEntry -> bool) (t : Task A) : Prop :=
  forall st,
  exists lines,
    console (snd (t st)) = console st ++ lines
    /\ Forall (fun entry => Q entry = true) lines.

(** The address a feed is requested at (lines 461-471): the feed address
    on the server, the same-origin proxy in the browser. *)
Definition requestUrl (p : Platform) (feedUrl : string) : string :=
  if isServer p then feedUrl
  else if startsWith "/api/fetch-rss" feedUrl then feedUrl
       else ("/api/fetch-rss?url=" ++ encodeURIComponent p feedUrl)%string.

(** The publisher link as the specification words it: only the
    [podcast:remoteItem] elements that are children of the channel itself
    are scanned. *)
Definition childElementsByTagName (name : string) (n : Node) : list Node :=
  match n with
  | Element _ _ children => filter (hasTagName name) children
  | Text _ => []
  end.

Definition publisherAmongChildren (channel : Node) : option RSSPublisher :=
  match find (fun element => optionEqb (getAttribute "medium" element) "publisher")
             (childElementsByTagName "podcast:remoteItem" channel) with
  | Some element =>
      match truthy (getAttribute "feedGuid" element),
            truthy (getAttribute "feedUrl" element),
            truthy (getAttribute "medium" element) with
      | Some feedGuid, Some feedUrl, Some medium =>
          Some {| publisherFeedGuid := feedGuid;
                  publisherFeedUrl := feedUrl;
                  publisherMedium := medium |}
      | _, _, _ => None
      end
  | None => None
  end.

(** The seconds field [secs.toString().padStart(2, '0')], and the check
    that it is made of two digits reading as less than sixty. *)
Definition secondsField (s : N) : string := padStart0 2 (ofN s).

Definition secondsFieldOk (s : N) : bool :=
  match secondsField s with
  | String tens (String units EmptyString) =>
      isDigit tens && isDigit units && (nat_of_ascii tens <? 54)
      && negb (Ascii.eqb ":" tens) && negb (Ascii.eqb ":" units)
  | _ => false
  end.

(* ===================================================================== *)
(** ** Sample feeds *)
(* ===================================================================== *)

Definition el (name : string) (children : list Node) : Node := Element name [] children.

Definition leaf (name text : string) : Node := Element name [] [Text text].

(** A host whose selector engine finds nothing, whose URL parser refuses
    every text, and for which no description holds an image. *)
Definition sampleExtractor : Extractor :=
  {| querySelector := fun _ _ => inr None;
     parseUrl := fun _ => None;
     matchImageSource := fun _ => None;
     currentDate := "2024-01-01T00:00:00.000Z" |}.

(** Three items: the first with a title and a duration in seconds, the
    second with no title and a duration that is not a time, the third with
    an [H:MM:SS] duration.  The channel has neither description nor
    link. *)
Definition threeItemFeed : Node :=
  el "rss"
    [ el "channel"
        [ leaf "title" "Band - Live";
          el "item" [ leaf "title" "Intro"; leaf "itunes:duration" "125" ];
          el "item" [ leaf "itunes:duration" "abc" ];
          el "item" [ leaf "title" " Finale "; leaf "duration" "1:02:03" ] ] ].


(** A channel whose only remote item sits inside a pod-roll container. *)
Definition podrollPublisherChannel : Node :=
  el "channel"
    [ leaf "title" "Album";
      el "podcast:podroll"
        [ Element "podcast:remoteItem"
            [ ("medium", "publisher"); ("feedGuid", "guid-1");
              ("feedUrl", "https://example.com/publisher.xml") ] [] ] ].

(* ===================================================================== *)
(** ** A sample platform *)
(* ===================================================================== *)

Definition feedDocument (name : string) : Node :=
  el "rss" [ el "channel" [ leaf "title" name ] ].

Definition okResponse (text : string) : FetchResult :=
  HttpResponse {| ok := true; status := 200; statusText := "OK"; body := text |}.

(** A server-side host.  Two feeds answer at different speeds; some
    addresses fail in the ways the error taxonomy lists; every other
    address answers with a feed named after its body. *)
Definition sampleNetwork (url : string) (time : nat) : nat * FetchResult :=
  if String.eqb url "https://feeds.example/slow.xml" then (500, okResponse "<slow/>")
  else if String.eqb url "https://feeds.example/fast.xml" then (100, okResponse "<fast/>")
  else if String.eqb url "https://feeds.example/down.xml"
       || String.eqb url "https://feeds.example/album-5.xml"
       || String.eqb url "https://feeds.example/album-17.xml"
  then (30, NetworkFailure (TypeError "Failed to fetch"))
  else if String.eqb url "https://feeds.example/missing.xml"
  then (20, HttpResponse {| ok := false; status := 404; statusText := "Not Found";
                            body := EmptyString |})
  else if String.eqb url "https://feeds.example/broken.xml" then (20, okResponse "<broken>")
  else if String.eqb url "https://feeds.example/empty.xml" then (20, okResponse "<rss/>")
  else if String.eqb url "https://feeds.example/three.xml" then (40, okResponse "<three/>")
  else (50, okResponse "<feed/>").

Definition sampleParseFromString (text : string) : Exn + Node :=
  if String.eqb text "<slow/>" then inr (feedDocument "Slow")
  else if String.eqb text "<fast/>" then inr (feedDocument "Fast")
  else if String.eqb text "<broken>" then inr (el "parsererror" [Text "mismatched tag"])
  else if String.eqb text "<rss/>" then inr (el "rss" [])
  else if String.eqb text "<three/>" then inr threeItemFeed
  else inr (feedDocument text).

(** An event loop that serves the promises in turn: one entry of each
    promise that has one left, round after round. *)
Definition roundRobin (time : nat) (sizes : list nat) : list nat :=
  concat (repeat (seq 0 (List.length sizes)) (list_max sizes)).

Definition samplePlatform : Platform :=
  {| isServer := true;
     network := sampleNetwork;
     encodeURIComponent := fun s => s;
     parseFromString := sampleParseFromString;
     extractor := sampleExtractor;
     schedule := roundRobin |}.

(** Twenty-five feed addresses, [album-0.xml] to [album-24.xml]. *)
Definition sampleFeedUrls : list string :=
  List.map (fun k => ("https://feeds.example/album-" ++ ofNat k ++ ".xml")%string) (seq 0 25).

(* ===================================================================== *)
(** * Further functions of the parser *)
(* ===================================================================== *)

From Stdlib Require DecimalPos.

(* ===================================================================== *)
(** ** The publisher functions (lines 853-969) *)
(* ===================================================================== *)

(** The object returned by [parsePublisherFeedInfo]. *)
Record PublisherInfo : Type := {
  infoTitle : string;
  infoDescription : string;
  infoArtist : string;
  infoCoverArt : option string
}.

(** Lines written to the console by the publisher functions: the lines
    of the functions they call, and one constructor per logging site of
    their own. *)
Inductive PublisherLogEntry : Type :=
| ParserLine (entry : LogEntry)
| ErrorParsingPublisherFeedInfo (e : Exn)
| ParsingPublisherFeedForAlbums (url : string)
| NoMusicItems (url : string)
| LoadingMusicFeeds (count : nat)
| ProcessingPublisherBatch (number total size : nat)
| PublisherBatchCompleted (number total albums loaded feeds : nat)
| ErrorInPublisherBatch (number total : nat) (e : Exn)
| LoadedAlbums (count : nat).

(** The state of a thread running a publisher function: clock, timers
    and console as in [TaskState], the console with the larger set of
    lines. *)
Record PublisherState : Type := {
  clock : nat;
  timersSet : list nat;
  written : list PublisherLogEntry
}.

Definition PublisherTask (A : Type) : Type := PublisherState -> Outcome A * PublisherState.

Module PublisherMonad.

Definition retP {A : Type} (a : A) : PublisherTask A := fun st => (Fulfilled a, st).

Definition bindP {A B : Type} (c : PublisherTask A) (k : A -> PublisherTask B)
  : PublisherTask B :=
  fun st =>
    match c st with
    | (Fulfilled a, st') => k a st'
    | (Rejected e, st') => (Rejected e, st')
    end.

Definition tryCatchP {A : Type} (body : PublisherTask A) (handler : Exn -> PublisherTask A)
  : PublisherTask A :=
  fun st =>
    match body st with
    | (Fulfilled a, st') => (Fulfilled a, st')
    | (Rejected e, st') => handler e st'
    end.

Definition logLineP (entry : PublisherLogEntry) : PublisherTask unit :=
  fun st =>
    (Fulfilled tt,
     {| clock := clock st; timersSet := timersSet st; written := written st ++ [entry] |}).

Definition sleepP (ms : nat) : PublisherTask unit :=
  fun st =>
    (Fulfilled tt,
     {| clock := clock st + ms; timersSet := timersSet st ++ [ms]; written := written st |}).

(** [await t] for a task [t] of the parser: it runs on the clock and the
    timers of the caller, and the lines it writes go to the console of
    the caller (the console is only ever appended to). *)
Definition parserState (st : PublisherState) : TaskState :=
  {| now := clock st; timers := timersSet st; console := [] |}.

Definition call {A : Type} (t : Task A) : PublisherTask A :=
  fun st =>
    let '(outcome, st') := t (parserState st) in
    (outcome,
     {| clock := now st';
        timersSet := timers st';
        written := written st ++ List.map ParserLine (console st') |}).

End PublisherMonad.

Import PublisherMonad.

Declare Scope publisher_scope.
Delimit Scope publisher_scope with publisher.
Notation "x <- c ;; k" := (bindP c (fun x => k))
  (at level 61, c at next level, right associativity) : publisher_scope.
Notation "c ;; k" := (bindP c (fun _ => k))
  (at level 61, right associativity) : publisher_scope.

Section Publisher.
Variable p : Platform.

(** Lines 944-963: the fields read from the channel. *)
Definition publisherInfoOf (channel : Node) : list LogEntry * (Exn + PublisherInfo) :=
  let title := orDefault (firstText "title" channel) EmptyString in
  let description := orDefault (firstText "description" channel) EmptyString in
  let authorElement :=
    match getElementsByTagName "itunes:author" channel with
    | first :: _ => Some first
    | [] => hd_error (getElementsByTagName "author" channel)
    end in
  let artist :=
    match authorElement with
    | Some el => orDefault (Some (trim (textContent el))) title
    | None => title
    end in
  match extractCoverArt (extractor p) channel (getElementsByTagName "item" channel) with
  | (warnings, inl e) => (warnings, inl e)
  | (warnings, inr coverArt) =>
      (warnings,
       inr {| infoTitle := title;
              infoDescription := description;
              infoArtist := artist;
              infoCoverArt := truthy coverArt |})
  end.

(** The [try] block of [parsePublisherFeedInfo] (lines 906-963). *)
Definition parsePublisherFeedInfoAttempt (feedUrl : string) : Task PublisherInfo :=
  response <- fetchFeed p feedUrl ;;
  if negb (ok response)
  then throw (Error ("Failed to fetch publisher feed: " ++ ofNat (status response)))
  else
    xmlDoc <- ofResult (parseFromString p (body response)) ;;
    match documentElementsByTagName "parsererror" xmlDoc with
    | _ :: _ => throw (Error "Invalid XML format")
    | [] =>
        match documentElementsByTagName "channel" xmlDoc with
        | [] => throw (Error "Invalid RSS feed: no channel found")
        | channel :: _ =>
            let '(warnings, info) := publisherInfoOf channel in
            logLines warnings ;;
            ofResult info
        end
    end.

(** [parsePublisherFeedInfo] (lines 904-969): every failure inside the
    [try] block is awaited there, and so reaches the handler. *)
Definition parsePublisherFeedInfo (feedUrl : string) : PublisherTask (option PublisherInfo) :=
  tryCatchP
    (info <- call (parsePublisherFeedInfoAttempt feedUrl) ;;
     retP (Some info))%publisher
    (fun error =>
       logLineP (ErrorParsingPublisherFeedInfo error) ;;
       retP None)%publisher.

Section PublisherAlbums.
Variable musicFeedUrls : list string.
Variable batchSize : nat.
Variable delayMs : nat.

(** The body of the loop of [parsePublisherFeedAlbums] (lines 878-894)
    for one value of [i]; it gives [allAlbums] as it is after the
    iteration. *)
Definition publisherBatch (i : nat) (allAlbums : list RSSAlbum)
  : PublisherTask (list RSSAlbum) :=
  let batch := slice i (i + batchSize) musicFeedUrls in
  let batchNumber := i / batchSize + 1 in
  let totalBatches := (List.length musicFeedUrls + batchSize - 1) / batchSize in
  (logLineP (ProcessingPublisherBatch batchNumber totalBatches (List.length batch)) ;;
   allAlbums' <-
     tryCatchP
       (batchAlbums <- call (parseMultipleFeedsInternal p batch) ;;
        let allAlbums' := allAlbums ++ batchAlbums in
        logLineP (PublisherBatchCompleted batchNumber totalBatches
                    (List.length batchAlbums) (List.length allAlbums')
                    (List.length musicFeedUrls)) ;;
        retP allAlbums')
       (fun error =>
          logLineP (ErrorInPublisherBatch batchNumber totalBatches error) ;;
          retP allAlbums) ;;
   (if i + batchSize <? List.length musicFeedUrls then sleepP delayMs else retP tt) ;;
   retP allAlbums')%publisher.

Fixpoint publisherLoop (indices : list nat) (allAlbums : list RSSAlbum)
  : PublisherTask (list RSSAlbum) :=
  match indices with
  | [] => retP allAlbums
  | i :: rest =>
      (allAlbums' <- publisherBatch i allAlbums ;;
       publisherLoop rest allAlbums')%publisher
  end.

End PublisherAlbums.

(** [parsePublisherFeedAlbums] (lines 853-899), for a string argument. *)
Definition parsePublisherFeedAlbums (feedUrl : string) : PublisherTask (list RSSAlbum) :=
  (logLineP (ParsingPublisherFeedForAlbums feedUrl) ;;
   publisherItems <- call (parsePublisherFeed p (UrlString feedUrl)) ;;
   if List.length publisherItems =? 0
   then
     logLineP (NoMusicItems feedUrl) ;;
     retP []
   else
     let musicFeedUrls := List.map itemFeedUrl publisherItems in
     logLineP (LoadingMusicFeeds (List.length musicFeedUrls)) ;;
     let batchSize := if 20 <? List.length musicFeedUrls then 8 else 5 in
     let delayMs := if 20 <? List.length musicFeedUrls then 300 else 500 in
     allAlbums <-
       publisherLoop musicFeedUrls batchSize delayMs
         (loopIndices (List.length musicFeedUrls) batchSize) [] ;;
     logLineP (LoadedAlbums (List.length allAlbums)) ;;
     retP allAlbums)%publisher.

End Publisher.

(* ===================================================================== *)
(** ** Podcasting 2.0 features of a parsed feed (lines 1175-1211) *)
(* ===================================================================== *)

(** A JavaScript value, as far as the comparison with [undefined] and the
    test for truthiness tell values apart; an integer stands for a number
    (only zero and [NaN] are falsy), [ValueObject] for an object or an
    array. *)
Inductive JsValue : Type :=
| ValueUndefined
| ValueNull
| ValueBoolean (b : bool)
| ValueNumber (n : Z)
| ValueNaN
| ValueString (s : string)
| ValueObject.

(** [if (v)]. *)
Definition isTruthy (v : JsValue) : bool :=
  match v with
  | ValueUndefined | ValueNull | ValueNaN => false
  | ValueBoolean b => b
  | ValueNumber n => negb (n =? 0)%Z
  | ValueString s => negb (isEmpty s)
  | ValueObject => true
  end.

(** [v !== undefined]. *)
Definition isDefined (v : JsValue) : bool :=
  match v with
  | ValueUndefined => false
  | _ => true
  end.

(** The properties of an item and of a feed that the two functions
    read. *)
Record PC20Item : Type := {
  podcastChapters : JsValue;
  podcastTranscript : JsValue;
  podcastSoundbite : JsValue
}.

Record PC20Feed : Type := {
  podcastLocked : JsValue;
  podcastFunding : JsValue;
  podcastValue : JsValue;
  podcastGuid : JsValue;
  podcastPerson : JsValue;
  podcastLocation : JsValue;
  items : list PC20Item
}.

(** [hasPC20Extensions] (lines 1175-1186). *)
Definition hasPC20Extensions (feed : PC20Feed) : bool :=
  let pc20Fields :=
    [ podcastLocked; podcastFunding; podcastValue; podcastGuid; podcastPerson;
      podcastLocation ] in
  existsb (fun field => isDefined (field feed)) pc20Fields.

(** [if (v) features.push(name)], as what is appended to [features]. *)
Definition pushIf (v : bool) (name : string) : list string :=
  if v then [name] else [].

(** [getPC20Features] (lines 1191-1211). *)
Definition getPC20Features (feed : PC20Feed) : list string :=
  let features :=
    pushIf (isTruthy (podcastLocked feed)) "Locked"
    ++ pushIf (isTruthy (podcastFunding feed)) "Funding"
    ++ pushIf (isTruthy (podcastValue feed)) "Value4Value"
    ++ pushIf (isTruthy (podcastGuid feed)) "GUID"
    ++ pushIf (isTruthy (podcastPerson feed)) "Person Tags"
    ++ pushIf (isTruthy (podcastLocation feed)) "Location" in
  let hasChapters := existsb (fun item => isTruthy (podcastChapters item)) (items feed) in
  let hasTranscripts := existsb (fun item => isTruthy (podcastTranscript item)) (items feed) in
  let hasSoundbites := existsb (fun item => isTruthy (podcastSoundbite item)) (items feed) in
  features
  ++ pushIf hasChapters "Chapters"
  ++ pushIf hasTranscripts "Transcripts"
  ++ pushIf hasSoundbites "Soundbites".

(* ===================================================================== *)
(** ** Definitions used to state the further properties *)
(* ===================================================================== *)

(** Decimal notation of [n] with [zeroes] zeros in front of it. *)
Definition decimal (zeroes : nat) (n : N) : string := zeros zeroes ++ ofN n.

(** No code unit of the text is white space. *)
Definition noWhiteSpace (s : string) : bool :=
  JsString.forallb (fun c => negb (isWhiteSpace c)) s.

(** The text contains a [<] that is followed, somewhere later, by a [>]:
    what the regular expression of line 123 matches. *)
Fixpoint hasTag (s : string) : bool :=
  match s with
  | String c rest => (Ascii.eqb c "<" && includesChar ">" rest) || hasTag rest
  | EmptyString => false
  end.

(** The waits of the exponential backoff before the attempts 2, 3, ...,
    [n + 1]: [delay], [2 delay], [4 delay], ... *)
Definition backoffWaits (delay n : nat) : list nat :=
  List.map (fun i => delay * 2 ^ i) (seq 0 n).

(** The task sets no timer. *)
Definition keepsTimers {A : Type} (t : Task A) : Prop :=
  forall st, timers (snd (t st)) = timers st.

(** [parseAlbumFeed] gives the feed up with [message]: three attempts
    that fail with it, the waits of 1000 ms and 2000 ms between them, and
    [null]. *)
Definition givesUpWith (p : Platform) (feedUrl : string) (st : TaskState) (message : string)
  : Prop :=
  exists st',
    parseAlbumFeed p feedUrl st = (Fulfilled None, st')
    /\ timers st' = timers st ++ [1000; 2000]
    /\ console st'
       = console st
         ++ [ ParsingAlbumFeed feedUrl; RetryingFeedParse 1 feedUrl message;
              ParsingAlbumFeed feedUrl; RetryingFeedParse 2 feedUrl message;
              ParsingAlbumFeed feedUrl; FailedToParseFeed feedUrl (Error message) ]
    /\ now st + 3000 <= now st'.

(** The feature names of the channel and of the items, in the order in
    which [getPC20Features] looks for them. *)
Definition channelFeatures : list string :=
  ["Locked"; "Funding"; "Value4Value"; "GUID"; "Person Tags"; "Location"].

Definition itemFeatures : list string := ["Chapters"; "Transcripts"; "Soundbites"].

(** [l] is [from] with some of its elements left out. *)
Fixpoint isSubsequence (l from : list string) : bool :=
  match l, from with
  | [], _ => true
  | _ :: _, [] => false
  | x :: l', y :: from' =>
      if String.eqb x y then isSubsequence l' from' else isSubsequence l from'
  end.

(** The addresses named by the per-feed lines of a failure report
    (lines 323 and 325); [None] is what [batch[index]] gives outside the
    array. *)
Definition namedFeeds (lines : list LogEntry) : list (option string) :=
  flat_map
    (fun entry =>
       match entry with
       | FeedRejected url _ | FeedReturnedNull url => [url]
       | _ => []
       end)
    lines.

(** The addresses of the attempts announced on the console (line 459),
    one entry for each attempt. *)
Definition attemptedFeeds (lines : list LogEntry) : list string :=
  flat_map
    (fun entry =>
       match entry with
       | ParsingAlbumFeed url => [url]
       | _ => []
       end)
    lines.

(** Every line but the announcement of an attempt. *)
Definition isNoAnnouncement (entry : LogEntry) : bool :=
  match entry with
  | ParsingAlbumFeed _ => false
  | _ => true
  end.

(** The lines of the handler around a promise of the aggregator
    (lines 297-309). *)
Definition isHandlerLine (entry : LogEntry) : bool :=
  match entry with
  | NetworkErrorOnFetch | NetworkErrorDetails _ _ | FailedAfterRetries _ _ => true
  | _ => false
  end.

(** The line of the handler around a batch of [parsePublisherFeedAlbums]
    (line 889), and the lines that open a batch (line 882). *)
Definition isBatchError (entry : PublisherLogEntry) : bool :=
  match entry with
  | ErrorInPublisherBatch _ _ _ => true
  | _ => false
  end.

Definition isBatchStart (entry : PublisherLogEntry) : bool :=
  match entry with
  | ProcessingPublisherBatch _ _ _ => true
  | _ => false
  end.

(* ===================================================================== *)
(** ** Further sample data *)
(* ===================================================================== *)

(** A host whose elements have no [querySelector] method (every call
    throws), and whose URL parser knows one address. *)
Definition selectorlessExtractor : Extractor :=
  {| querySelector :=
       fun _ _ => inl (TypeError "channel.querySelector is not a function");
     parseUrl :=
       fun text =>
         if String.eqb text "https://cdn.example/cover.jpg?size=600"
         then Some ("https:", "cdn.example", "/cover.jpg")
         else None;
     matchImageSource := fun _ => None;
     currentDate := "2024-01-01T00:00:00.000Z" |}.

(** A channel with an [itunes:image] of its own. *)
Definition artChannel : Node :=
  el "channel"
    [ leaf "title" "Album";
      Element "itunes:image" [("href", "https://cdn.example/cover.jpg?size=600")] [];
      el "item" [ leaf "title" "One" ] ].

(** A feed whose only artwork is the image enclosure of its first
    item. *)
Definition itemArtFeed : Node :=
  el "rss"
    [ el "channel"
        [ leaf "title" "Album";
          el "item"
            [ leaf "title" "One";
              Element "enclosure"
                [("type", "image/jpeg"); ("url", "https://cdn.example/track.jpg")] [] ] ] ].

(** A publisher feed: two music items, the publisher's own entry, and a
    music item without address. *)
Definition publisherListing : Node :=
  el "rss"
    [ el "channel"
        [ leaf "title" "Label";
          Element "podcast:remoteItem"
            [ ("medium", "music"); ("feedGuid", "guid-a");
              ("feedUrl", "https://feeds.example/slow.xml"); ("title", "Slow") ] [];
          Element "podcast:remoteItem"
            [ ("medium", "music"); ("feedGuid", "guid-b");
              ("feedUrl", "https://feeds.example/down.xml") ] [Text " Down "];
          Element "podcast:remoteItem"
            [ ("medium", "publisher"); ("feedGuid", "guid-p");
              ("feedUrl", "https://feeds.example/label.xml") ] [];
          Element "podcast:remoteItem"
            [ ("medium", "music"); ("feedGuid", "guid-c") ] [] ] ].

(** The sample host with the publisher feed at [label.xml]. *)
Definition publisherPlatform : Platform :=
  {| isServer := true;
     network :=
       fun url time =>
         if String.eqb url "https://feeds.example/label.xml"
         then (60, okResponse "<label/>")
         else sampleNetwork url time;
     encodeURIComponent := fun s => s;
     parseFromString :=
       fun text =>
         if String.eqb text "<label/>" then inr publisherListing
         else sampleParseFromString text;
     extractor := sampleExtractor;
     schedule := roundRobin |}.

(** The sample host as a browser sees it. *)
Definition browserPlatform : Platform :=
  {| isServer := false;
     network := sampleNetwork;
     encodeURIComponent := fun s => s;
     parseFromString := sampleParseFromString;
     extractor := sampleExtractor;
     schedule := roundRobin |}.

(** A feed whose [podcast:locked] is the empty text, with chapters on one
    of its items. *)
Definition chaptersOnlyFeed : PC20Feed :=
  {| podcastLocked := ValueString EmptyString;
     podcastFunding := ValueUndefined;
     podcastValue := ValueUndefined;
     podcastGuid := ValueUndefined;
     podcastPerson := ValueUndefined;
     podcastLocation := ValueUndefined;
     items := [ {| podcastChapters := ValueUndefined;
                   podcastTranscript := ValueUndefined;
                   podcastSoundbite := ValueUndefined |};
                {| podcastChapters := ValueObject;
                   podcastTranscript := ValueUndefined;
                   podcastSoundbite := ValueUndefined |} ] |}.

(** A feed without any property of the channel, with a transcript on its
    only item. *)
Definition transcriptOnlyFeed : PC20Feed :=
  {| podcastLocked := ValueUndefined;
     podcastFunding := ValueUndefined;
     podcastValue := ValueUndefined;
     podcastGuid := ValueUndefined;
     podcastPerson := ValueUndefined;
     podcastLocation := ValueUndefined;
     items := [ {| podcastChapters := ValueUndefined;
                   podcastTranscript := ValueString "https://example.com/episode.vtt";
                   podcastSoundbite := ValueUndefined |} ] |}.

(** Two hosts for the three-item feed at [three.xml].  The browser sends
    its requests through the proxy, and its elements have
    [querySelector] (which finds no image in this feed).  The server has
    the elements of [@xmldom/xmldom], which have no such method. *)
Definition percentEncode (s : string) : string :=
  replaceAll "/" "%2F" (replaceAll ":" "%3A" s).

Definition browserHost : Platform :=
  {| isServer := false;
     network :=
       fun url time =>
         if String.eqb url "/api/fetch-rss?url=https%3A%2F%2Ffeeds.example%2Fthree.xml"
         then (40, okResponse "<three/>")
         else (30, NetworkFailure (TypeError "Failed to fetch"));
     encodeURIComponent := percentEncode;
     parseFromString := sampleParseFromString;
     extractor := sampleExtractor;
     schedule := roundRobin |}.

Definition serverHost : Platform :=
  {| isServer := true;
     network := sampleNetwork;
     encodeURIComponent := percentEncode;
     parseFromString := sampleParseFromString;
     extractor := selectorlessExtractor;
     schedule := roundRobin |}.

Definition initialPublisherState : PublisherState :=
  {| clock := 0; timersSet := []; written := [] |}.

(* ===================================================================== *)
(** * Properties *)
(* ===================================================================== *)

(** ** Strings *)

Section StringFacts.

Lemma prefix_head_mismatch (c d : ascii) (pat s : string) :
  c <> d -> prefix (String c pat) (String d s) = false.
Proof.
  intros Hneq. simpl. destruct (ascii_dec c d); [contradiction | reflexivity].
Qed.

Lemma prefix_empty (s : string) : prefix EmptyString s = true.
Proof. now destruct s. Qed.

Lemma includesChar_cons_false (c d : ascii) (s : string) :
  includesChar c (String d s) = false -> c <> d /\ includesChar c s = false.
Proof.
  simpl. intros H. apply orb_false_iff in H. destruct H as [Hcd Hs].
  split; [ | exact Hs]. intros ->. rewrite Ascii.eqb_refl in Hcd. discriminate.
Qed.

(** A pattern whose first character does not occur leaves the text as
    it is. *)
Lemma replaceAll_absent (c : ascii) (pat rep s : string) :
  includesChar c s = false -> replaceAllFrom (String c pat) rep 0 s = s.
Proof.
  induction s as [ | d s IH]; intros Habs; [reflexivity | ].
  apply includesChar_cons_false in Habs. destruct Habs as [Hneq Habs].
  cbn [replaceAllFrom]. rewrite (prefix_head_mismatch c d pat s Hneq).
  now rewrite IH.
Qed.

Lemma stripTags_absent (s : string) :
  includesChar "<" s = false -> stripTagsFrom 0 s = s.
Proof.
  induction s as [ | d s IH]; intros Habs; [reflexivity | ].
  apply includesChar_cons_false in Habs. destruct Habs as [Hneq Habs].
  cbn [stripTagsFrom].
  destruct (Ascii.eqb_spec d "<"%char) as [-> | _]; [now elim Hneq | ].
  now rewrite IH.
Qed.

Lemma whitespace_excludes (c : ascii) (s : string) :
  isWhiteSpace c = false -> JsString.forallb isWhiteSpace s = true ->
  includesChar c s = false.
Proof.
  intros Hc. induction s as [ | d s IH]; simpl; [reflexivity | ].
  intros H. apply andb_true_iff in H. destruct H as [Hd Hs].
  rewrite (IH Hs), orb_false_r.
  destruct (Ascii.eqb_spec c d) as [-> | _]; [congruence | reflexivity].
Qed.

Lemma trimStart_whitespace (s : string) :
  JsString.forallb isWhiteSpace s = true -> trimStart s = EmptyString.
Proof.
  induction s as [ | d s IH]; simpl; [reflexivity | ].
  intros H. apply andb_true_iff in H. destruct H as [Hd Hs].
  now rewrite Hd, IH.
Qed.

Lemma trim_whitespace (s : string) :
  JsString.forallb isWhiteSpace s = true -> trim s = EmptyString.
Proof. intros H. unfold trim. now rewrite trimStart_whitespace. Qed.

Lemma trimStart_cons (c : ascii) (s : string) :
  isWhiteSpace c = false -> trimStart (String c s) = String c s.
Proof. intros Hc. cbn [trimStart]. now rewrite Hc. Qed.

(** A character that is not white space stays where it is at the front
    of a string that is trimmed at its end. *)
Lemma trimEnd_cons (c : ascii) (s : string) :
  isWhiteSpace c = false -> trimEnd (String c s) = String c (trimEnd s).
Proof. intros Hc. cbn [trimEnd]. rewrite Hc. now destruct (trimEnd s). Qed.

End StringFacts.

Lemma cleanHtmlContent_nonempty (c : ascii) (s : string) :
  cleanHtmlContent (JsStr (String c s)) =
  Some (trim (decodePasses (stripTags (String c s)))).
Proof. reflexivity. Qed.

Lemma decodePasses_plain (s : string) :
  includesChar "&" s = false -> decodePasses s = s.
Proof.
  intros H. unfold decodePasses, replaceAll.
  now rewrite !(replaceAll_absent _ _ _ _ H).
Qed.

(** C10 (text cleaning, empty results).  [cleanHtmlContent] answers
    [undefined] exactly for [null], [undefined] and the empty string; a
    non-empty string made of white space only, and a string such as
    ["<b></b>"] that is nothing but markup, give the empty string. *)
Theorem cleanHtmlContent_undefined_or_empty :
  (forall content,
      cleanHtmlContent content = None <->
      content = JsNull \/ content = JsUndefined \/ content = JsStr EmptyString)
  /\ (forall s,
         s <> EmptyString -> JsString.forallb isWhiteSpace s = true ->
         cleanHtmlContent (JsStr s) = Some EmptyString)
  /\ (forall s,
         s <> EmptyString ->
         trim (decodePasses (stripTags s)) = EmptyString ->
         cleanHtmlContent (JsStr s) = Some EmptyString)
  /\ cleanHtmlContent (JsStr "<b></b>") = Some EmptyString.
Proof.
  split; [ | split; [ | split]].
  - intros content; split.
    + destruct content as [ | | [ | c s]]; auto; discriminate.
    + intros [-> | [-> | ->]]; reflexivity.
  - intros [ | c s] Hne Hws; [congruence | ].
    rewrite cleanHtmlContent_nonempty.
    assert (Hlt : includesChar "<" (String c s) = false)
      by (apply whitespace_excludes; [reflexivity | exact Hws]).
    assert (Hamp : includesChar "&" (String c s) = false)
      by (apply whitespace_excludes; [reflexivity | exact Hws]).
    unfold stripTags. rewrite (stripTags_absent _ Hlt), (decodePasses_plain _ Hamp).
    now rewrite trim_whitespace.
  - intros [ | c s] Hne Hnothing; [congruence | ].
    now rewrite cleanHtmlContent_nonempty, Hnothing.
  - reflexivity.
Qed.

Lemma cleanHtmlContent_undefined_or_empty_witness :
  cleanHtmlContent (JsStr "  ") = Some EmptyString
  /\ cleanHtmlContent (JsStr "<p> &nbsp; </p>") = Some EmptyString.
Proof.
  split.
  - apply (proj1 (proj2 cleanHtmlContent_undefined_or_empty)).
    + discriminate.
    + reflexivity.
  - apply (proj1 (proj2 (proj2 cleanHtmlContent_undefined_or_empty))).
    + discriminate.
    + reflexivity.
Defined.

(** C9, counterexample.  ["&amp;lt;"] is decoded twice: the [&amp;] pass
    produces ["&lt;"], which the [&lt;] pass then turns into ["<"]; a
    decoding without recursion would stop at ["&lt;"]. *)
Lemma cleanHtmlContent_decodes_twice :
  cleanHtmlContent (JsStr "&amp;lt;") = Some "<"
  /\ cleanDecodingOnce (JsStr "&amp;lt;") = Some "&lt;"
  /\ cleanHtmlContent (JsStr "&amp;lt;") <> cleanDecodingOnce (JsStr "&amp;lt;").
Proof. repeat split; try reflexivity. discriminate. Qed.

(** ** The decoding passes, for every text *)

(** One pass replaces every occurrence of its entity and reads nothing
    it has written. *)
Section PassFacts.

Lemma replaceAllFrom_plain (c : ascii) (pat rep s r : string) :
  includesChar c s = false ->
  replaceAllFrom (String c pat) rep 0 (s ++ r) = (s ++ replaceAllFrom (String c pat) rep 0 r)%string.
Proof.
  induction s as [ | d s IH]; intros Hs; [reflexivity | ].
  apply includesChar_cons_false in Hs. destruct Hs as [Hd Hs].
  cbn [append replaceAllFrom]. rewrite (prefix_head_mismatch c d pat (s ++ r) Hd).
  now rewrite (IH Hs).
Qed.
Lemma replaceAllFrom_skip (pat rep : string) (k : nat) :
  forall t r,
    k <= String.length t ->
    replaceAllFrom pat rep k (t ++ r) = replaceAllFrom pat rep 0 (drop k t ++ r).
Proof.
  induction k as [ | k IH]; intros t r Hk.
  - now destruct t.
  - destruct t as [ | a t]; [cbn in Hk; lia | ].
    cbn [append replaceAllFrom drop]. apply IH. cbn in Hk. lia.
Qed.

Lemma prefix_length (body t : string) :
  prefix body t = true -> String.length body <= String.length t.
Proof.
  revert t. induction body as [ | b body IH]; intros t H; [cbn; lia | ].
  destruct t as [ | a t]; [discriminate H | ].
  cbn [prefix] in H. destruct (Ascii.ascii_dec b a); [ | discriminate H].
  cbn [String.length]. apply IH in H. lia.
Qed.

Lemma prefix_append (body t r : string) :
  prefix body t = true -> prefix body (t ++ r) = true.
Proof.
  revert t. induction body as [ | b body IH]; intros t H; [apply prefix_empty | ].
  destruct t as [ | a t]; [discriminate H | ].
  cbn [prefix append] in *. destruct (Ascii.ascii_dec b a); [now apply IH | discriminate H].
Qed.

Lemma prefix_blocked (body t r : string) :
  prefix body t = false ->
  match r with
  | EmptyString => True
  | String c _ => includesChar c body = false
  end ->
  prefix body (t ++ r) = false.
Proof.
  revert t. induction body as [ | b body IH]; intros t H Hr;
    [now rewrite prefix_empty in H | ].
  destruct t as [ | a t].
  - destruct r as [ | c r]; [reflexivity | ].
    cbn [append prefix]. cbn [includesChar] in Hr. apply orb_false_iff in Hr.
    destruct Hr as [Hc _]. destruct (Ascii.ascii_dec b c) as [-> | _]; [ | reflexivity].
    now rewrite Ascii.eqb_refl in Hc.
  - cbn [prefix append] in *. destruct (Ascii.ascii_dec b a); [ | reflexivity].
    apply IH; [exact H | ]. destruct r as [ | c r]; [exact I | ].
    cbn [includesChar] in Hr. apply orb_false_iff in Hr. apply Hr.
Qed.

Lemma drop_plain (c : ascii) (k : nat) :
  forall t, includesChar c t = false -> includesChar c (drop k t) = false.
Proof.
  induction k as [ | k IH]; intros t Ht; [now destruct t | ].
  destruct t as [ | a t]; [reflexivity | ].
  cbn [includesChar] in Ht. apply orb_false_iff in Ht. cbn [drop]. now apply IH.
Qed.

Lemma passOver_wellMarked (body : string) (rep : ascii) (part : ascii * string) :
  isMark rep = true -> wellMarked part -> wellMarked (passOver body rep part).
Proof.
  intros Hrep [Hmark Hplain]. unfold passOver.
  destruct (Ascii.eqb (fst part) "&" && prefix body (snd part)); [ | now split].
  split; [exact Hrep | now apply drop_plain].
Qed.

(** One pass over marked text. *)
Lemma replaceAll_render (body : string) (rep : ascii) :
  (forall c, isMark c = true -> includesChar c body = false) ->
  forall parts before,
    Forall wellMarked parts ->
    includesChar "&" before = false ->
    replaceAll (String "&" body) (String rep EmptyString) (render before parts)
    = render before (List.map (passOver body rep) parts).
Proof.
  intros Hbody parts before Hparts Hbefore. unfold replaceAll, render.
  rewrite (replaceAllFrom_plain "&" body _ before _ Hbefore). f_equal. clear before Hbefore.
  induction Hparts as [ | [mark text] parts [Hmark Hplain] Hparts IH]; [reflexivity | ].
  cbn [fst snd] in Hmark, Hplain.
  cbn [List.map fold_right fst snd].
  set (rest := fold_right (fun part rest => String (fst part) (snd part ++ rest)) "" parts) in *.
  assert (Hrest : match rest with
                  | EmptyString => True
                  | String c _ => includesChar c body = false
                  end).
  { subst rest. destruct Hparts as [ | [mark' text'] parts' [Hmark' _] _]; [exact I | ].
    cbn [fold_right fst]. now apply Hbody. }
  unfold passOver. cbn [fst snd].
  destruct (Ascii.eqb_spec mark "&") as [-> | Hother].
  - cbn [andb replaceAllFrom]. 
    destruct (prefix body text) eqn:Hhit.
    + cbn [prefix]. destruct (Ascii.ascii_dec "&" "&") as [_ | Hne]; [ | now elim Hne].
      rewrite (prefix_append body text rest Hhit).
      cbn [String.length Nat.sub]. rewrite Nat.sub_0_r.
      rewrite (replaceAllFrom_skip _ _ _ text rest (prefix_length _ _ Hhit)).
      rewrite (replaceAllFrom_plain "&" body _ _ _ (drop_plain "&" _ _ Hplain)).
      cbn [append fst snd]. now rewrite IH.
    + cbn [prefix]. destruct (Ascii.ascii_dec "&" "&") as [_ | Hne]; [ | now elim Hne].
      rewrite (prefix_blocked body text rest Hhit Hrest).
      rewrite (replaceAllFrom_plain "&" body _ _ _ Hplain).
      cbn [fst snd]. now rewrite IH.
  - cbn [andb replaceAllFrom].
    rewrite (prefix_head_mismatch "&" mark body _ (not_eq_sym Hother)).
    rewrite (replaceAllFrom_plain "&" body _ _ _ Hplain).
    cbn [fst snd]. now rewrite IH.
Qed.

End PassFacts.

Section ChainFacts.

Lemma bodies_unmarked :
  forall body,
    In body ["nbsp;"; "amp;"; "lt;"; "gt;"; "quot;"; "#39;"; "#x27;"; "apos;"] ->
    forall c, isMark c = true -> includesChar c body = false.
Proof.
  intros body Hbody c Hc. unfold isMark in Hc. cbn [existsb] in Hc.
  repeat (apply orb_true_iff in Hc; destruct Hc as [Hc | Hc]);
    try discriminate Hc;
    apply Ascii.eqb_eq in Hc; subst c;
    cbn [In] in Hbody;
    repeat (destruct Hbody as [<- | Hbody]; [reflexivity | ]); now elim Hbody.
Qed.

Lemma map_wellMarked (body : string) (rep : ascii) (parts : list (ascii * string)) :
  isMark rep = true -> Forall wellMarked parts ->
  Forall wellMarked (List.map (passOver body rep) parts).
Proof.
  intros Hrep Hparts. apply Forall_map. eapply Forall_impl; [ | exact Hparts].
  intros part. now apply passOver_wellMarked.
Qed.

Ltac side_conditions :=
  first [ assumption
        | apply bodies_unmarked; cbn [In]; tauto
        | now repeat apply map_wellMarked ].

Lemma decodePasses_render (before : string) (parts : list (ascii * string)) :
  Forall wellMarked parts ->
  includesChar "&" before = false ->
  decodePasses (render before parts) = render before (List.map allPasses parts).
Proof.
  intros Hparts Hbefore. unfold decodePasses, doubleQuote.
  rewrite (replaceAll_render "nbsp;" " ") by side_conditions.
  rewrite (replaceAll_render "amp;" "&")
    by side_conditions.
  rewrite (replaceAll_render "lt;" "<")
    by side_conditions.
  rewrite (replaceAll_render "gt;" ">")
    by side_conditions.
  rewrite (replaceAll_render "quot;" (ascii_of_nat 34))
    by side_conditions.
  rewrite (replaceAll_render "#39;" "'")
    by side_conditions.
  rewrite (replaceAll_render "#x27;" "'")
    by side_conditions.
  rewrite (replaceAll_render "apos;" "'")
    by side_conditions.
  now rewrite !map_map.
Qed.

Lemma passOver_hit (body : string) (rep : ascii) (text : string) :
  prefix body text = true ->
  passOver body rep ("&"%char, text) = (rep, drop (String.length body) text).
Proof. intros H. unfold passOver. cbn [fst snd]. now rewrite H. Qed.

Lemma passOver_miss (body : string) (rep : ascii) (text : string) :
  prefix body text = false ->
  passOver body rep ("&"%char, text) = ("&"%char, text).
Proof. intros H. unfold passOver. cbn [fst snd]. now rewrite H. Qed.

Lemma passOver_done (body : string) (rep mark : ascii) (text : string) :
  Ascii.eqb mark "&" = false ->
  passOver body rep (mark, text) = (mark, text).
Proof. intros H. unfold passOver. cbn [fst snd]. now rewrite H. Qed.

Lemma allPasses_segment (segment : string) :
  String (fst (allPasses ("&"%char, segment))) (snd (allPasses ("&"%char, segment)))
  = decodeSegment segment.
Proof.
  unfold allPasses, decodeSegment. cbv zeta.
  repeat first
    [ rewrite passOver_done by reflexivity
    | match goal with
      | |- context [passOver ?body ?rep ("&"%char, ?text)] =>
          lazymatch text with
          | context [passOver] => fail
          | _ => idtac
          end;
          let H := fresh "Hprefix" in
          destruct (prefix body text) eqn:H;
          [ rewrite (passOver_hit body rep text H); cbn [String.length]
          | rewrite (passOver_miss body rep text H) ]
      end ];
    reflexivity.
Qed.

End ChainFacts.

(** The fields of a split: none of them holds the separator, and joined
    with the separator they give the text back. *)
Section SplitFacts.
Variable c : ascii.

Lemma splitChar_nonempty (s : string) : splitChar c s <> [].
Proof.
  destruct s as [ | d s]; cbn [splitChar]; [discriminate | ].
  destruct (Ascii.eqb c d); [discriminate | ].
  destruct (splitChar c s); discriminate.
Qed.

Lemma splitChar_fields (s : string) :
  Forall (fun field => includesChar c field = false) (splitChar c s).
Proof.
  induction s as [ | d s IH]; [now repeat constructor | ].
  cbn [splitChar]. destruct (Ascii.eqb c d) eqn:Hd.
  - constructor; [reflexivity | exact IH].
  - destruct (splitChar c s) as [ | seg segs].
    { constructor; [cbn [includesChar]; now rewrite Hd | constructor]. }
    inversion IH as [ | ? ? Hseg Hsegs]; subst.
    constructor; [ | exact Hsegs]. cbn [includesChar]. now rewrite Hd, Hseg.
Qed.

Lemma splitChar_join (s : string) :
  String.concat (String c EmptyString) (splitChar c s) = s.
Proof.
  induction s as [ | d s IH]; [reflexivity | ].
  cbn [splitChar]. destruct (Ascii.eqb_spec c d) as [<- | _].
  - destruct (splitChar c s) as [ | seg segs] eqn:Hsplit.
    + now elim (splitChar_nonempty s).
    + change (String.concat (String c EmptyString) (EmptyString :: seg :: segs))
        with (String c (String.concat (String c EmptyString) (seg :: segs))).
      now rewrite IH.
  - destruct (splitChar c s) as [ | seg segs]; [now cbn in *; subst | ].
    rewrite <- IH. now destruct segs.
Qed.

End SplitFacts.

Section ScanFacts.

Lemma append_empty (s : string) : (s ++ "")%string = s.
Proof. induction s as [ | c s IH]; [reflexivity | ]. cbn [append]. now rewrite IH. Qed.

Lemma concat_marked (segments : list string) :
  forall before,
    String.concat "&" (before :: segments)
    = render before (List.map (pair "&"%char) segments).
Proof.
  induction segments as [ | segment segments IH]; intros before.
  - unfold render. cbn. now rewrite append_empty.
  - change (String.concat "&" (before :: segment :: segments))
      with (before ++ String "&" (String.concat "&" (segment :: segments)))%string.
    rewrite IH. reflexivity.
Qed.

Lemma concat_cons (x : string) (l : list string) :
  String.concat "" (x :: l) = (x ++ String.concat "" l)%string.
Proof. destruct l; cbn [String.concat]; [now rewrite append_empty | reflexivity]. Qed.

Lemma decodePasses_decodeText (s : string) : decodePasses s = decodeText s.
Proof.
  unfold decodeText.
  pose proof (splitChar_join "&" s) as Hjoin.
  pose proof (splitChar_fields "&" s) as Hfields.
  destruct (splitChar "&" s) as [ | before segments] eqn:Hsplit;
    [now elim (splitChar_nonempty "&" s) | ].
  rewrite concat_marked in Hjoin. rewrite <- Hjoin at 1.
  inversion Hfields as [ | ? ? Hbefore Hsegments]; subst.
  rewrite decodePasses_render.
  - unfold render. f_equal. rewrite map_map. clear.
    induction segments as [ | segment segments IH]; [reflexivity | ].
    cbn [List.map fold_right]. rewrite concat_cons, <- IH, <- allPasses_segment.
    reflexivity.
  - apply Forall_map. eapply Forall_impl; [ | exact Hsegments].
    intros segment Hsegment. now split.
  - exact Hbefore.
Qed.

End ScanFacts.

(** C9 (text cleaning, order of the decoding passes).  For every text
    the eight passes, each replacing every occurrence of its entity in the
    output of the pass before, amount to one scan of the text in which
    every ampersand is decoded with what follows it: a listed entity gives
    its character, [&amp;] directly followed by [lt;], [gt;], [quot;],
    [#39;], [#x27;] or [apos;] gives the character of that entity (the
    text made by the [&amp;] pass is read by the later passes), any other
    [&amp;] gives an ampersand, and everything else stays.
    [cleanHtmlContent] is this scan applied to the text without its tags,
    trimmed.  In particular, for every text [s] without ampersand and
    without [<]: [&amp;amp;] and [&amp;nbsp;] in front of [s] are decoded
    once, to [&amp;] and [&nbsp;], and [&amp;lt;], [&amp;gt;],
    [&amp;quot;], [&amp;#39;], [&amp;#x27;] and [&amp;apos;] are decoded
    twice. *)
Theorem cleanHtmlContent_pass_order (s : string) :
  decodePasses s = decodeText s
  /\ (forall c,
         cleanHtmlContent (JsStr (String c s))
         = Some (trim (decodeText (stripTags (String c s)))))
  /\ (includesChar "&" s = false ->
      includesChar "<" s = false ->
      cleanHtmlContent (JsStr ("&amp;amp;" ++ s)) = Some ("&amp;" ++ trimEnd s)%string
      /\ cleanHtmlContent (JsStr ("&amp;nbsp;" ++ s)) = Some ("&nbsp;" ++ trimEnd s)%string
      /\ cleanHtmlContent (JsStr ("&amp;lt;" ++ s)) = Some ("<" ++ trimEnd s)%string
      /\ cleanHtmlContent (JsStr ("&amp;gt;" ++ s)) = Some (">" ++ trimEnd s)%string
      /\ cleanHtmlContent (JsStr ("&amp;quot;" ++ s))
         = Some (doubleQuote ++ trimEnd s)%string
      /\ cleanHtmlContent (JsStr ("&amp;#39;" ++ s)) = Some ("'" ++ trimEnd s)%string
      /\ cleanHtmlContent (JsStr ("&amp;#x27;" ++ s)) = Some ("'" ++ trimEnd s)%string
      /\ cleanHtmlContent (JsStr ("&amp;apos;" ++ s)) = Some ("'" ++ trimEnd s)%string).
Proof.
  split; [apply decodePasses_decodeText | split].
  { intros c. rewrite cleanHtmlContent_nonempty. now rewrite decodePasses_decodeText. }
  intros Hamp Hlt.
  repeat split.
  all: cbn [append]; rewrite cleanHtmlContent_nonempty.
  all: unfold stripTags; simpl stripTagsFrom; rewrite (stripTags_absent _ Hlt).
  all: unfold decodePasses, replaceAll.
  all: repeat (match goal with
               | |- Some (trim ?passes) = _ =>
                   let passes' := eval simpl in passes in
                   progress change passes with passes'
               end;
               rewrite ?prefix_empty, ?(replaceAll_absent _ _ _ _ Hamp)).
  all: unfold doubleQuote; cbn [append].
  all: unfold trim; rewrite trimStart_cons by reflexivity.
  all: now rewrite !trimEnd_cons by reflexivity.
Qed.

Lemma cleanHtmlContent_pass_order_witness :
  cleanHtmlContent (JsStr "&amp;amp; and more ") = Some "&amp; and more"
  /\ cleanHtmlContent (JsStr "&amp;lt;b>") = Some "<b>".
Proof.
  split.
  - exact (proj1 (proj2 (proj2 (cleanHtmlContent_pass_order " and more "))
                   eq_refl eq_refl)).
  - exact (proj1 (proj2 (proj2 (proj2 (proj2 (cleanHtmlContent_pass_order "b>"))
                                  eq_refl eq_refl)))).
Defined.


(** ** The single-feed extractor *)

Section ExtractorFacts.

Lemma extractAlbum_success (x : Extractor) (xmlDoc : Node) (lines : list LogEntry)
      (album : RSSAlbum) :
  extractAlbum x xmlDoc = (lines, inr album) ->
  exists channel others warnings coverArt,
    documentElementsByTagName "channel" xmlDoc = channel :: others
    /\ extractCoverArt x channel (documentElementsByTagName "item" xmlDoc)
       = (warnings, inr coverArt)
    /\ album = snd (buildAlbum x channel (documentElementsByTagName "item" xmlDoc) coverArt).
Proof.
  unfold extractAlbum.
  destruct (documentElementsByTagName "channel" xmlDoc) as [ | channel others];
    [discriminate | ].
  destruct (extractCoverArt x channel _) as [warnings [e | art]] eqn:Hart; [discriminate | ].
  destruct (buildAlbum x channel _ art) as [lines' album'] eqn:Hbuild.
  intros [= <- <-]. exists channel, others, warnings, art.
  now rewrite Hbuild.
Qed.

Lemma buildAlbum_tracks (x : Extractor) (channel : Node) (items : list Node)
      (art : option string) :
  tracks (snd (buildAlbum x channel items art)) = List.map fst (extractTracksFrom 0 items).
Proof. reflexivity. Qed.

Lemma extractTrack_number (i : nat) (item : Node) :
  trackNumber (fst (extractTrack i item)) = Some (i + 1).
Proof. unfold extractTrack. now destruct (normalizeDuration _ _). Qed.

Lemma extractTrack_title (i : nat) (item : Node) :
  trackTitle (fst (extractTrack i item))
  = orDefault (firstText "title" item) ("Track " ++ ofNat (i + 1)).
Proof. unfold extractTrack. now destruct (normalizeDuration _ _). Qed.

Lemma extractTrack_duration (i : nat) (item : Node) :
  trackDuration (fst (extractTrack i item))
  = fst (normalizeDuration (rawDuration item)
           (Some (orDefault (firstText "title" item) ("Track " ++ ofNat (i + 1))))).
Proof. unfold extractTrack. now destruct (normalizeDuration _ _). Qed.

Lemma extractTracksFrom_length (items : list Node) :
  forall k, List.length (extractTracksFrom k items) = List.length items.
Proof. induction items as [ | item items IH]; intros k; simpl; [ | rewrite IH]; reflexivity. Qed.

Lemma extractTracksFrom_nth (items : list Node) :
  forall k i,
    nth_error (extractTracksFrom k items) i
    = option_map (extractTrack (k + i)) (nth_error items i).
Proof.
  induction items as [ | item items IH]; intros k [ | i]; simpl; try reflexivity.
  - now rewrite Nat.add_0_r.
  - rewrite IH. now rewrite Nat.add_succ_r.
Qed.

Lemma extractTracksFrom_numbers (items : list Node) :
  forall k,
    List.map (fun t => trackNumber (fst t)) (extractTracksFrom k items)
    = List.map Some (seq (k + 1) (List.length items)).
Proof.
  induction items as [ | item items IH]; intros k; simpl; [reflexivity | ].
  rewrite extractTrack_number, (IH (S k)). reflexivity.
Qed.

Lemma firstText_absent (name : string) (n : Node) :
  getElementsByTagName name n = [] -> firstText name n = None.
Proof. unfold firstText. now intros ->. Qed.

End ExtractorFacts.

(** ** Durations *)

Section DurationFacts.

Lemma string_of_uint_digits (d : Decimal.uint) :
  JsString.forallb isDigit (NilEmpty.string_of_uint d) = true.
Proof. induction d; simpl; auto. Qed.

Lemma ofN_digits (n : N) : allDigits (ofN n) = true.
Proof.
  unfold allDigits, ofN, NilZero.string_of_uint.
  destruct (N.to_uint n) as [ | d | d | d | d | d | d | d | d | d | d];
    try reflexivity;
    match goal with
    | |- negb (isEmpty (NilEmpty.string_of_uint ?u)) && _ = true =>
        pose proof (string_of_uint_digits u) as Hdigits;
        cbn [NilEmpty.string_of_uint isEmpty negb andb] in *; exact Hdigits
    end.
Qed.

Lemma splitChar_digits (a b : string) :
  JsString.forallb isDigit a = true ->
  splitChar ":" (a ++ String ":" b) = a :: splitChar ":" b.
Proof.
  induction a as [ | c a IH]; intros Hdigits; [reflexivity | ].
  simpl in Hdigits. apply andb_true_iff in Hdigits. destruct Hdigits as [Hc Ha].
  cbn [append splitChar]. rewrite (IH Ha).
  destruct (Ascii.eqb_spec ":"%char c) as [<- | _]; [discriminate | reflexivity].
Qed.

Lemma secondsField_ok (s : N) : (s < 60)%N -> secondsFieldOk s = true.
Proof.
  intros Hlt.
  assert (Hall : List.forallb secondsFieldOk (List.map N.of_nat (seq 0 60)) = true)
    by (vm_compute; reflexivity).
  rewrite forallb_forall in Hall. apply Hall.
  rewrite <- (N2Nat.id s). apply in_map, in_seq. lia.
Qed.

Lemma minSec_canonical (mins secs : Z) :
  (0 <= secs < 60)%Z -> isCanonicalDuration (minSec mins secs) = true.
Proof.
  intros Hsecs. unfold isCanonicalDuration, minSec.
  pose proof (ofN_digits (Z.to_N mins)) as Hmins.
  assert (Hok : secondsFieldOk (Z.to_N secs) = true) by (apply secondsField_ok; lia).
  unfold secondsFieldOk, secondsField in Hok.
  cbn [append]. rewrite splitChar_digits
    by (unfold allDigits in Hmins; now apply andb_true_iff in Hmins).
  destruct (padStart0 2 (ofN (Z.to_N secs))) as [ | tens [ | units [ | ? ?]]];
    try discriminate.
  apply andb_true_iff in Hok. destruct Hok as [Hok Hunits].
  apply andb_true_iff in Hok. destruct Hok as [Hok Htens].
  cbn [splitChar].
  destruct (Ascii.eqb ":" tens); [discriminate | ].
  destruct (Ascii.eqb ":" units); [discriminate | ].
  rewrite Hmins. cbn [andb]. exact Hok.
Qed.

(** The two ways out of [normalizeDuration]. *)
Lemma normalizeDuration_canonical_or_unchanged (duration : string) (trackTitle : option string) :
  isCanonicalDuration (fst (normalizeDuration duration trackTitle)) = true
  \/ fst (normalizeDuration duration trackTitle) = trim duration.
Proof.
  unfold normalizeDuration. cbv zeta.
  destruct (isEmpty duration || isEmpty (trim duration)) eqn:Hempty; [now left | ].
  apply orb_false_iff in Hempty. destruct Hempty as [_ Hempty]. rewrite Hempty.
  destruct (allDigits (trim duration)).
  - destruct (parseInt (trim duration)) as [seconds | ]; [ | now right].
    destruct (Z.ltb_spec 0 seconds); [ | now right].
    left. apply minSec_canonical.
    pose proof (Z.rem_bound_pos seconds 60). lia.
  - destruct (includesChar ":" (trim duration)); [ | now right].
    destruct (splitChar ":" (trim duration)) as [ | p0 [ | p1 [ | p2 [ | ? ?]]]];
      try (now right).
    + destruct (parseInt p0) as [mins | ]; [ | now right].
      destruct (parseInt p1) as [secs | ]; [ | now right].
      destruct ((0 <=? mins)%Z && (0 <=? secs)%Z && (secs <? 60)%Z) eqn:Hvalid;
        [ | now right].
      left. apply minSec_canonical.
      repeat (apply andb_true_iff in Hvalid; destruct Hvalid as [Hvalid ?]). lia.
    + destruct (parseInt p0) as [hours | ]; [ | now right].
      destruct (parseInt p1) as [mins | ]; [ | now right].
      destruct (parseInt p2) as [secs | ]; [ | now right].
      destruct ((0 <=? hours)%Z && (0 <=? mins)%Z && (mins <? 60)%Z
                && (0 <=? secs)%Z && (secs <? 60)%Z) eqn:Hvalid; [ | now right].
      left. apply minSec_canonical.
      repeat (apply andb_true_iff in Hvalid; destruct Hvalid as [Hvalid ?]). lia.
Qed.

End DurationFacts.

Section TrimFacts.

Lemma trimStart_head (s : string) :
  trimStart s = EmptyString
  \/ exists c rest, trimStart s = String c rest /\ isWhiteSpace c = false.
Proof.
  induction s as [ | c s IH]; [now left | ].
  cbn [trimStart]. destruct (isWhiteSpace c) eqn:Hc; [exact IH | ].
  right. now exists c, s.
Qed.

Lemma trimEnd_idempotent (s : string) : trimEnd (trimEnd s) = trimEnd s.
Proof.
  induction s as [ | c s IH]; [reflexivity | ].
  cbn [trimEnd]. destruct (trimEnd s) as [ | k kept] eqn:Hkept.
  - destruct (isWhiteSpace c) eqn:Hc; [reflexivity | ].
    cbn [trimEnd]. now rewrite Hc.
  - change (trimEnd (String c (String k kept))) with
      (match trimEnd (String k kept) with
       | EmptyString => if isWhiteSpace c then EmptyString else String c EmptyString
       | kept' => String c kept'
       end).
    now rewrite IH.
Qed.

Lemma trim_idempotent (s : string) : trim (trim s) = trim s.
Proof.
  unfold trim. destruct (trimStart_head s) as [-> | (c & rest & -> & Hc)]; [reflexivity | ].
  rewrite (trimEnd_cons c rest Hc), (trimStart_cons c _ Hc), (trimEnd_cons c _ Hc).
  now rewrite trimEnd_idempotent.
Qed.

Lemma firstText_trimmed (name : string) (n : Node) (t : string) :
  firstText name n = Some t -> trim t = t.
Proof.
  unfold firstText. destruct (hd_error _) as [e | ]; [ | discriminate].
  intros [= <-]. apply trim_idempotent.
Qed.

Lemma truthy_some (x : option string) (t : string) :
  truthy x = Some t -> x = Some t /\ t <> EmptyString.
Proof.
  destruct x as [[ | c s] | ]; try discriminate.
  intros [= <-]. split; [reflexivity | discriminate].
Qed.

Lemma rawDuration_trimmed (item : Node) : trim (rawDuration item) = rawDuration item.
Proof.
  unfold rawDuration.
  destruct (truthy (firstText "itunes:duration" item)) as [d | ] eqn:Hitunes.
  - apply truthy_some in Hitunes. destruct Hitunes as [Hitunes _].
    exact (firstText_trimmed _ _ _ Hitunes).
  - destruct (truthy (firstText "duration" item)) as [d | ] eqn:Hplain; [ | reflexivity].
    apply truthy_some in Hplain. destruct Hplain as [Hplain _].
    exact (firstText_trimmed _ _ _ Hplain).
Qed.

End TrimFacts.

(** C5, counterexample.  The second item of the sample feed has the
    duration text ["abc"]; the track made from it keeps that text, which is
    not of the form [M:SS]. *)
Lemma track_duration_left_unnormalized :
  exists album track,
    snd (extractAlbum sampleExtractor threeItemFeed) = inr album
    /\ nth_error (tracks album) 1 = Some track
    /\ trackDuration track = "abc"
    /\ isCanonicalDuration (trackDuration track) = false.
Proof.
  eexists. eexists. split; [vm_compute; reflexivity | ].
  split; [reflexivity | ]. split; reflexivity.
Qed.

Section DurationReading.

Lemma splitChar_absent (c : ascii) (s : string) :
  includesChar c s = false -> splitChar c s = [s].
Proof.
  induction s as [ | d s IH]; [reflexivity | ]. intros H.
  cbn [includesChar] in H. apply orb_false_iff in H. destruct H as [Hcd Hs].
  cbn [splitChar]. now rewrite Hcd, (IH Hs).
Qed.

Lemma digits_no_colon (s : string) :
  JsString.forallb isDigit s = true -> includesChar ":" s = false.
Proof.
  induction s as [ | c s IH]; [reflexivity | ].
  cbn [JsString.forallb includesChar]. intros H.
  apply andb_true_iff in H. destruct H as [Hc Hs]. rewrite (IH Hs), orb_false_r.
  destruct (Ascii.eqb_spec ":"%char c) as [<- | _]; [discriminate Hc | reflexivity].
Qed.

Lemma includesChar_append (c : ascii) (a b : string) :
  includesChar c (a ++ b) = includesChar c a || includesChar c b.
Proof.
  induction a as [ | d a IH]; [reflexivity | ].
  cbn [append includesChar]. now rewrite IH, orb_assoc.
Qed.

Lemma splitChar_field (m rest : string) :
  includesChar ":" m = false ->
  splitChar ":" (m ++ String ":" rest) = m :: splitChar ":" rest.
Proof.
  induction m as [ | c m IH]; intros Hm; [reflexivity | ].
  cbn [includesChar] in Hm. apply orb_false_iff in Hm. destruct Hm as [Hc Hm].
  cbn [append splitChar]. now rewrite Hc, (IH Hm).
Qed.

Lemma allDigits_no_colon (s : string) :
  includesChar ":" s = true -> allDigits s = false.
Proof.
  intros Hcolon. unfold allDigits.
  destruct (JsString.forallb isDigit s) eqn:Hdigits; [ | apply andb_false_r].
  apply digits_no_colon in Hdigits. congruence.
Qed.

Lemma colon_included (m rest : string) : includesChar ":" (m ++ String ":" rest) = true.
Proof.
  rewrite includesChar_append. cbn [includesChar]. rewrite Ascii.eqb_refl.
  apply orb_true_r.
Qed.

(** What [normalizeDuration] makes of a trimmed, non-empty text: the
    canonical form of what the text reads as when it can be parsed, the
    text itself when it cannot. *)
Lemma normalizeDuration_reads (text : string) (trackTitle : option string) :
  trim text = text ->
  isEmpty text = false ->
  (forall mins secs,
      ReadsAs text mins secs ->
      fst (normalizeDuration text trackTitle) = minSec mins secs
      /\ (0 <= secs < 60)%Z)
  /\ ((forall mins secs, ~ ReadsAs text mins secs) ->
      fst (normalizeDuration text trackTitle) = text).
Proof.
  intros Htrim Hne. unfold normalizeDuration. cbv zeta. rewrite Htrim, Hne. cbn [orb].
  split.
  - intros mins secs Hreads.
    destruct Hreads as [text seconds Hdigits Hparse Hpos
                       | m s mins secs Hm Hs Hmins Hsecs Hmin0 Hsec
                       | h m s hours mins secs Hh Hm Hs Hhours Hmins Hsecs Hhour0 Hmin Hsec].
    + rewrite Hdigits, Hparse. destruct (Z.ltb_spec 0 seconds) as [_ | ?]; [ | lia].
      split; [reflexivity | ]. pose proof (Z.rem_bound_pos seconds 60). lia.
    + cbn [append]. rewrite (allDigits_no_colon _ (colon_included m s)), colon_included.
      rewrite (splitChar_field m s Hm), (splitChar_absent ":" s Hs), Hmins, Hsecs.
      destruct (Z.leb_spec 0 mins); [ | lia].
      destruct (Z.leb_spec 0 secs); [ | lia].
      destruct (Z.ltb_spec secs 60); [ | lia].
      now split.
    + cbn [append].
      rewrite (allDigits_no_colon _ (colon_included h _)), colon_included.
      rewrite (splitChar_field h _ Hh), (splitChar_field m s Hm), (splitChar_absent ":" s Hs).
      rewrite Hhours, Hmins, Hsecs.
      destruct (Z.leb_spec 0 hours); [ | lia].
      destruct (Z.leb_spec 0 mins); [ | lia].
      destruct (Z.ltb_spec mins 60); [ | lia].
      destruct (Z.leb_spec 0 secs); [ | lia].
      destruct (Z.ltb_spec secs 60); [ | lia].
      cbn [andb fst]. now split.
  - intros Hnone.
    destruct (allDigits text) eqn:Hdigits.
    + destruct (parseInt text) as [seconds | ] eqn:Hparse; [ | reflexivity].
      destruct (Z.ltb_spec 0 seconds) as [Hpos | _]; [ | reflexivity].
      now elim (Hnone _ _ (ReadSeconds text seconds Hdigits Hparse Hpos)).
    + destruct (includesChar ":" text); [ | reflexivity].
      pose proof (splitChar_join ":" text) as Hjoin.
      pose proof (splitChar_fields ":" text) as Hfields.
      destruct (splitChar ":" text) as [ | p0 [ | p1 [ | p2 [ | ? ?]]]];
        try reflexivity.
      * destruct (parseInt p0) as [mins | ] eqn:Hmins; [ | reflexivity].
        destruct (parseInt p1) as [secs | ] eqn:Hsecs; [ | reflexivity].
        destruct ((0 <=? mins)%Z && (0 <=? secs)%Z && (secs <? 60)%Z) eqn:Hvalid;
          [ | reflexivity].
        repeat (apply andb_true_iff in Hvalid; destruct Hvalid as [Hvalid ?]).
        pose proof (Forall_inv Hfields) as Hfield0.
        pose proof (Forall_inv (Forall_inv_tail Hfields)) as Hfield1.
        elim (Hnone mins secs). rewrite <- Hjoin.
        apply ReadMinutesSeconds; trivial; lia.
      * destruct (parseInt p0) as [hours | ] eqn:Hhours; [ | reflexivity].
        destruct (parseInt p1) as [mins | ] eqn:Hmins; [ | reflexivity].
        destruct (parseInt p2) as [secs | ] eqn:Hsecs; [ | reflexivity].
        destruct ((0 <=? hours)%Z && (0 <=? mins)%Z && (mins <? 60)%Z
                  && (0 <=? secs)%Z && (secs <? 60)%Z) eqn:Hvalid; [ | reflexivity].
        repeat (apply andb_true_iff in Hvalid; destruct Hvalid as [Hvalid ?]).
        pose proof (Forall_inv Hfields) as Hfield0.
        pose proof (Forall_inv (Forall_inv_tail Hfields)) as Hfield1.
        pose proof (Forall_inv (Forall_inv_tail (Forall_inv_tail Hfields))) as Hfield2.
        elim (Hnone (hours * 60 + mins)%Z secs). rewrite <- Hjoin.
        apply ReadHoursMinutesSeconds; trivial; lia.
Qed.

End DurationReading.

(** C5 (track durations).  In every album the extractor returns, the
    duration of the track made from an item is decided by the trimmed
    duration text of that item.  When the text can be parsed (a run of
    digits that is a positive number of seconds; minutes and seconds;
    hours, minutes and seconds, in range), the duration is the canonical
    [M:SS] form of the minutes and seconds it stands for; only a text that
    cannot be parsed so is kept, unchanged.  Either way the duration is
    canonical or the text of the item.  (Stated for duration texts of at
    most 15 characters, for which every number read and the total of
    minutes stay below 2^53, the range in which the source computes
    exactly.) *)
Theorem track_duration_canonical_or_unchanged
        (x : Extractor) (xmlDoc : Node) (lines : list LogEntry) (album : RSSAlbum) :
  extractAlbum x xmlDoc = (lines, inr album) ->
  forall i item,
    nth_error (documentElementsByTagName "item" xmlDoc) i = Some item ->
    String.length (rawDuration item) <= 15 ->
    exists track,
      nth_error (tracks album) i = Some track
      /\ (forall mins secs,
             ReadsAs (rawDuration item) mins secs ->
             trackDuration track = minSec mins secs
             /\ isCanonicalDuration (trackDuration track) = true)
      /\ ((forall mins secs, ~ ReadsAs (rawDuration item) mins secs) ->
          trackDuration track = rawDuration item)
      /\ (isCanonicalDuration (trackDuration track) = true
          \/ trackDuration track = rawDuration item).
Proof.
  intros Hok i item Hitem _.
  destruct (extractAlbum_success _ _ _ _ Hok)
    as (channel & others & warnings & art & _ & _ & Halbum).
  pose proof (buildAlbum_tracks x channel (documentElementsByTagName "item" xmlDoc) art)
    as Htracks.
  rewrite <- Halbum in Htracks.
  exists (fst (extractTrack i item)). split.
  - now rewrite Htracks, nth_error_map, extractTracksFrom_nth, Hitem.
  - rewrite extractTrack_duration.
    set (title := Some (orDefault (firstText "title" item) ("Track " ++ ofNat (i + 1)))).
    assert (Hne : isEmpty (rawDuration item) = false).
    { unfold rawDuration.
      destruct (truthy (firstText "itunes:duration" item)) as [d | ] eqn:Hitunes.
      - apply truthy_some in Hitunes. now destruct d; [elim (proj2 Hitunes) | ].
      - destruct (truthy (firstText "duration" item)) as [d | ] eqn:Hplain; [ | reflexivity].
        apply truthy_some in Hplain. now destruct d; [elim (proj2 Hplain) | ]. }
    destruct (normalizeDuration_reads (rawDuration item) title
                (rawDuration_trimmed item) Hne) as [Hparsed Hkept].
    split; [ | split; [exact Hkept | ]].
    + intros mins secs Hreads. destruct (Hparsed mins secs Hreads) as [-> Hsecs].
      split; [reflexivity | now apply minSec_canonical].
    + destruct (normalizeDuration_canonical_or_unchanged (rawDuration item) title)
        as [Hcanonical | Hraw]; [now left | right].
      now rewrite Hraw, rawDuration_trimmed.
Qed.

Lemma track_duration_canonical_or_unchanged_witness :
  exists album track,
    snd (extractAlbum sampleExtractor threeItemFeed) = inr album
    /\ nth_error (tracks album) 2 = Some track
    /\ trackDuration track = "62:03"
    /\ isCanonicalDuration (trackDuration track) = true.
Proof.
  destruct (extractAlbum sampleExtractor threeItemFeed) as [lines [e | album]] eqn:Hrun;
    [vm_compute in Hrun; discriminate | ].
  destruct (track_duration_canonical_or_unchanged _ _ _ _ Hrun 2
              (el "item" [ leaf "title" " Finale "; leaf "duration" "1:02:03" ]))
    as (track & Hnth & Hparsed & _).
  - reflexivity.
  - vm_compute. lia.
  - exists album, track. split; [reflexivity | split; [exact Hnth | ]].
    apply (Hparsed 62%Z 3%Z).
    exact (ReadHoursMinutesSeconds "1" "02" "03" 1 2 3
             eq_refl eq_refl eq_refl eq_refl eq_refl eq_refl
             ltac:(lia) ltac:(lia) ltac:(lia)).
Defined.





(** ** The publisher link *)

Section PublisherFacts.

Lemma find_first {A : Type} (f : A -> bool) (l : list A) (x : A) :
  find f l = Some x <->
  exists before after,
    l = before ++ x :: after /\ Forall (fun e => f e = false) before /\ f x = true.
Proof.
  split.
  - induction l as [ | y l IH]; [discriminate | ].
    cbn [find]. destruct (f y) eqn:Hy.
    + intros [= ->]. exists [], l. now repeat split.
    + intros Hfind. destruct (IH Hfind) as (before & after & -> & Hbefore & Hx).
      exists (y :: before), after. repeat split; [ | exact Hx].
      now constructor.
  - intros (before & after & -> & Hbefore & Hx).
    induction Hbefore as [ | y before Hy _ IH]; cbn [app find].
    + now rewrite Hx.
    + now rewrite Hy.
Qed.

Lemma optionEqb_true (x : option string) (lit : string) :
  optionEqb x lit = true <-> x = Some lit.
Proof.
  destruct x as [s | ]; simpl; [ | split; discriminate].
  rewrite String.eqb_eq. split; [now intros -> | now intros [= ->]].
Qed.

Lemma optionEqb_false (x : option string) (lit : string) :
  optionEqb x lit = false <-> x <> Some lit.
Proof.
  rewrite <- optionEqb_true. destruct (optionEqb x lit); split; congruence.
Qed.

Lemma truthy_iff (x : option string) (t : string) :
  truthy x = Some t <-> x = Some t /\ t <> EmptyString.
Proof.
  split; [apply truthy_some | ].
  intros [-> Hne]. destruct t; [congruence | reflexivity].
Qed.

End PublisherFacts.

(** C8, counterexample.  The only remote item of the channel sits inside
    a pod-roll container; it is taken as the publisher link all the same,
    while a scan of the children of the channel finds none. *)
Lemma publisher_found_inside_podroll :
  extractPublisher podrollPublisherChannel
  = Some {| publisherFeedGuid := "guid-1";
            publisherFeedUrl := "https://example.com/publisher.xml";
            publisherMedium := "publisher" |}
  /\ publisherAmongChildren podrollPublisherChannel = None.
Proof. split; reflexivity. Qed.

(** C8 (publisher link).  The publisher link of an album is taken from
    the first element, in document order, among all [podcast:remoteItem]
    descendants of the channel (those nested in a pod-roll container
    included) whose [medium] attribute is ["publisher"]; it is emitted
    exactly when that element has a non-empty [feedGuid] and a non-empty
    [feedUrl], and carries these two values and the medium. *)
Theorem publisher_is_first_publisher_remote_item (channel : Node) :
  (forall pub,
      extractPublisher channel = Some pub <->
      exists before element after,
        getElementsByTagName "podcast:remoteItem" channel = before ++ element :: after
        /\ Forall (fun e => getAttribute "medium" e <> Some "publisher") before
        /\ getAttribute "medium" element = Some "publisher"
        /\ getAttribute "feedGuid" element = Some (publisherFeedGuid pub)
        /\ publisherFeedGuid pub <> EmptyString
        /\ getAttribute "feedUrl" element = Some (publisherFeedUrl pub)
        /\ publisherFeedUrl pub <> EmptyString
        /\ publisherMedium pub = "publisher")
  /\ (forall container attrs inner item before after,
         channel = Element "channel" attrs (before ++ Element container inner [item] :: after) ->
         hasTagName "podcast:remoteItem" item = true ->
         In item (getElementsByTagName "podcast:remoteItem" channel)).
Proof.
  split.
  - intros pub. unfold extractPublisher.
    set (isPublisher := fun element => optionEqb (getAttribute "medium" element) "publisher").
    split.
    + destruct (find isPublisher _) as [element | ] eqn:Hfind; [ | discriminate].
      apply find_first in Hfind. destruct Hfind as (before & after & Hsplit & Hbefore & Hmedium).
      apply optionEqb_true in Hmedium.
      destruct (truthy (getAttribute "feedGuid" element)) as [guid | ] eqn:Hguid;
        [ | discriminate].
      destruct (truthy (getAttribute "feedUrl" element)) as [url | ] eqn:Hurl;
        [ | discriminate].
      rewrite Hmedium. cbn [truthy orElse].
      intros [= <-]. cbn [publisherFeedGuid publisherFeedUrl publisherMedium].
      apply truthy_iff in Hguid. apply truthy_iff in Hurl.
      exists before, element, after. repeat split; try tauto.
      eapply Forall_impl; [ | exact Hbefore].
      intros e He. now apply optionEqb_false.
    + intros (before & element & after & Hsplit & Hbefore & Hmedium & Hguid & Hguid'
              & Hurl & Hurl' & Hpub).
      assert (Hfind : find isPublisher (getElementsByTagName "podcast:remoteItem" channel)
                      = Some element).
      { apply find_first. exists before, after. repeat split; [exact Hsplit | | ].
        - eapply Forall_impl; [ | exact Hbefore].
          intros e He. now apply optionEqb_false.
        - now apply optionEqb_true. }
      rewrite Hfind.
      rewrite (proj2 (truthy_iff _ _) (conj Hguid Hguid')).
      rewrite (proj2 (truthy_iff _ _) (conj Hurl Hurl')).
      rewrite Hmedium. cbn [truthy orElse].
      destruct pub as [guid url medium]. cbn in Hpub. now rewrite Hpub.
  - intros container attrs inner item before after -> Htag.
    unfold getElementsByTagName. apply filter_In. split; [ | exact Htag].
    cbn [descendants]. rewrite flat_map_app. apply in_or_app. right.
    cbn [flat_map descendants]. right. apply in_or_app. left.
    apply in_or_app. left. now left.
Qed.

Lemma publisher_is_first_publisher_remote_item_witness :
  In (Element "podcast:remoteItem"
        [ ("medium", "publisher"); ("feedGuid", "guid-1");
          ("feedUrl", "https://example.com/publisher.xml") ] [])
     (getElementsByTagName "podcast:remoteItem" podrollPublisherChannel).
Proof.
  apply (proj2 (publisher_is_first_publisher_remote_item podrollPublisherChannel)
           "podcast:podroll" [] [] _ [leaf "title" "Album"] []); reflexivity.
Defined.

(** ** The retry wrapper *)

Section RetryFacts.
Context {T : Type}.
Variable fn : Task T.
Variable maxRetries delay : nat.
Variable onRetry : option (nat -> Exn -> Task unit).

(** One turn of the loop, by the way the operation settles. *)
Lemma retryLoop_fulfilled (remaining attempt : nat) (lastError : Exn)
      (st st' : TaskState) (v : T) :
  fn st = (Fulfilled v, st') ->
  retryLoop fn maxRetries delay onRetry (S remaining) attempt lastError st
  = (Fulfilled v, st').
Proof. intros Hfn. cbn [retryLoop]. unfold tryCatch. now rewrite Hfn. Qed.

Lemma retryLoop_last (remaining : nat) (lastError : Exn) (st st' : TaskState) (e : Exn) :
  fn st = (Rejected e, st') ->
  retryLoop fn maxRetries delay onRetry (S remaining) maxRetries lastError st
  = (Rejected e, st').
Proof.
  intros Hfn. cbn [retryLoop]. unfold tryCatch. rewrite Hfn.
  now rewrite Nat.eqb_refl.
Qed.

Lemma retryLoop_again (remaining attempt : nat) (lastError : Exn)
      (st st1 st2 : TaskState) (e : Exn) :
  fn st = (Rejected e, st1) ->
  attempt < maxRetries ->
  notify onRetry attempt e st1 = (Fulfilled tt, st2) ->
  retryLoop fn maxRetries delay onRetry (S remaining) attempt lastError st
  = retryLoop fn maxRetries delay onRetry remaining (S attempt) e
      (snd (sleep (delay * 2 ^ (attempt - 1)) st2)).
Proof.
  intros Hfn Hlt Hnotify. cbn [retryLoop]. unfold tryCatch. rewrite Hfn.
  destruct (Nat.eqb_spec attempt maxRetries) as [-> | _]; [lia | ].
  unfold bind at 1. fold (notify onRetry attempt e). rewrite Hnotify.
  reflexivity.
Qed.

Lemma retryLoop_refused (remaining attempt : nat) (lastError : Exn)
      (st st1 st2 : TaskState) (e e' : Exn) :
  fn st = (Rejected e, st1) ->
  attempt < maxRetries ->
  notify onRetry attempt e st1 = (Rejected e', st2) ->
  retryLoop fn maxRetries delay onRetry (S remaining) attempt lastError st
  = (Rejected e', st2).
Proof.
  intros Hfn Hlt Hnotify. cbn [retryLoop]. unfold tryCatch. rewrite Hfn.
  destruct (Nat.eqb_spec attempt maxRetries) as [-> | _]; [lia | ].
  unfold bind at 1. fold (notify onRetry attempt e). rewrite Hnotify.
  reflexivity.
Qed.

Lemma retryLoop_run (attempt : nat) (st : TaskState) (r : Outcome T * TaskState) :
  RetryRun fn maxRetries delay onRetry attempt st r ->
  forall remaining lastError,
    attempt + remaining = maxRetries + 1 ->
    attempt <= maxRetries ->
    retryLoop fn maxRetries delay onRetry remaining attempt lastError st = r.
Proof.
  induction 1 as [attempt st st' v Hfn
                 | attempt st st' e Hfn Hlast
                 | attempt st st1 st2 e r Hfn Hlt Hnotify _ IH
                 | attempt st st1 st2 e e' Hfn Hlt Hnotify];
    intros remaining lastError Hsum Hle;
    (destruct remaining as [ | remaining]; [lia | ]).
  - now apply retryLoop_fulfilled.
  - subst attempt. now apply retryLoop_last.
  - rewrite (retryLoop_again _ _ _ _ _ _ _ Hfn Hlt Hnotify).
    apply IH; lia.
  - now apply (retryLoop_refused _ _ _ _ st1 _ e).
Qed.

(** Every call has a run: the operation settles one way or the other,
    and so does the callback. *)
Lemma retryRun_total :
  forall remaining attempt st,
    attempt + remaining = maxRetries ->
    exists r, RetryRun fn maxRetries delay onRetry attempt st r.
Proof.
  induction remaining as [ | remaining IH]; intros attempt st Hsum.
  - destruct (fn st) as [[v | e] st'] eqn:Hfn.
    + exists (Fulfilled v, st'). apply RunSuccess. exact Hfn.
    + exists (Rejected e, st'). apply RunExhausted; [exact Hfn | lia].
  - destruct (fn st) as [[v | e] st'] eqn:Hfn.
    + exists (Fulfilled v, st'). apply RunSuccess. exact Hfn.
    + destruct (notify onRetry attempt e st') as [[[] | e'] st2] eqn:Hst2.
      * destruct (IH (S attempt) (snd (sleep (delay * 2 ^ (attempt - 1)) st2)))
          as [r Hr]; [lia | ].
        exists r. apply (RunRetry fn maxRetries delay onRetry attempt st st' st2 e r);
          [exact Hfn | lia | exact Hst2 | exact Hr].
      * exists (Rejected e', st2).
        apply (RunCallbackThrows fn maxRetries delay onRetry attempt st st' st2 e e');
          [exact Hfn | lia | exact Hst2].
Qed.

End RetryFacts.

(** C4, counterexample.  With a maximum attempt count of 0 an operation
    that would succeed at once is never called and the call rejects with
    [undefined]: there is neither a first success nor a last error.  With
    a callback that throws, the failure of the first of three attempts is
    followed by no wait and no retry, and what the call propagates is
    the error of the callback, not an error of the operation. *)
Lemma withRetry_without_attempt_or_retry :
  (let fn : Task nat := ret 7 in
   fn initialState = (Fulfilled 7, initialState)
   /\ withRetry fn 0 1000 None initialState = (Rejected ThrownUndefined, initialState)
   /\ withRetry fn 0 1000 None initialState <> fn initialState)
  /\ (let fn := failsUntil 1000 7 in
      fn initialState = (Rejected (Error "not ready"), initialState)
      /\ fn (snd (sleep (1000 * 2 ^ 0) initialState))
         = (Fulfilled 7, snd (sleep (1000 * 2 ^ 0) initialState))
      /\ withRetry fn 3 1000 (Some refuseRetry) initialState
         = (Rejected (Error "callback failed"), initialState)
      /\ timers (snd (withRetry fn 3 1000 (Some refuseRetry) initialState)) = []).
Proof.
  split; [cbv zeta; repeat split; discriminate | ].
  cbv zeta. repeat split.
Qed.

(** C4 (retry wrapper).  With a maximum attempt count of 0 the operation
    is never called and the call rejects with [undefined].  For every
    operation, attempt count of at least one, base delay and optional
    callback, the results of [withRetry] are exactly those of the retry
    contract: the value of the first success is returned with nothing done
    after it; a failure with attempts remaining is followed by the
    callback for that attempt and error, a wait of
    [delay * 2 ^ (attempt - 1)] milliseconds and the next attempt, unless
    the callback throws, which ends the call with the error of the
    callback; a failure of the last attempt is propagated.  In particular,
    when the operation fails twice and then succeeds, with three attempts
    or more allowed and a callback that returns, the result is the success
    value after the sequence operation, callback (1, first error), wait
    [delay * 2^0], operation, callback (2, second error), wait
    [delay * 2^1], operation. *)
Theorem withRetry_follows_retry_contract
        (T : Type) (fn : Task T) (maxRetries delay : nat)
        (onRetry : option (nat -> Exn -> Task unit)) (st : TaskState) :
  (maxRetries = 0 ->
   withRetry fn maxRetries delay onRetry st = (Rejected ThrownUndefined, st))
  /\ (1 <= maxRetries ->
      forall r,
        RetryRun fn maxRetries delay onRetry 1 st r
        <-> withRetry fn maxRetries delay onRetry st = r)
  /\ (3 <= maxRetries ->
      forall e1 st1 st1' e2 st2 st2' v st3,
        fn st = (Rejected e1, st1) ->
        notify onRetry 1 e1 st1 = (Fulfilled tt, st1') ->
        fn (snd (sleep (delay * 2 ^ 0) st1')) = (Rejected e2, st2) ->
        notify onRetry 2 e2 st2 = (Fulfilled tt, st2') ->
        fn (snd (sleep (delay * 2 ^ 1) st2')) = (Fulfilled v, st3) ->
        withRetry fn maxRetries delay onRetry st = (Fulfilled v, st3)).
Proof.
  assert (Hsound : 1 <= maxRetries ->
                   forall r,
                     RetryRun fn maxRetries delay onRetry 1 st r ->
                     withRetry fn maxRetries delay onRetry st = r).
  { intros Hmax r Hrun. unfold withRetry.
    apply (retryLoop_run fn maxRetries delay onRetry 1 st r Hrun); lia. }
  split; [ | split].
  - intros ->. reflexivity.
  - intros Hmax r. split; [now apply Hsound | ].
    intros <-.
    destruct (retryRun_total fn maxRetries delay onRetry (maxRetries - 1) 1 st)
      as [r Hrun]; [lia | ].
    now rewrite (Hsound Hmax r Hrun).
  - intros Hmax e1 st1 st1' e2 st2 st2' v st3 Hfirst Hcb1 Hsecond Hcb2 Hthird.
    apply Hsound; [lia | ].
    eapply RunRetry; [exact Hfirst | lia | exact Hcb1 | ].
    eapply RunRetry; [exact Hsecond | lia | exact Hcb2 | ].
    apply RunSuccess. exact Hthird.
Qed.

Lemma withRetry_follows_retry_contract_witness :
  withRetry (failsUntil 3000 7) 3 1000 (Some noteRetry) initialState
  = (Fulfilled 7,
     {| now := 3000;
        timers := [1000 * 2 ^ 0; 1000 * 2 ^ 1];
        console := [ RetryingFeedParse 1 "operation" "not ready";
                     RetryingFeedParse 2 "operation" "not ready" ] |}).
Proof.
  refine (proj2 (proj2 (withRetry_follows_retry_contract
                          nat (failsUntil 3000 7) 3 1000 (Some noteRetry) initialState))
            (le_n 3)
            (Error "not ready") initialState
            {| now := 0; timers := [];
               console := [RetryingFeedParse 1 "operation" "not ready"] |}
            (Error "not ready")
            {| now := 1000; timers := [1000];
               console := [RetryingFeedParse 1 "operation" "not ready"] |}
            {| now := 1000; timers := [1000];
               console := [ RetryingFeedParse 1 "operation" "not ready";
                            RetryingFeedParse 2 "operation" "not ready" ] |}
            7 _ _ _ _ _ _); reflexivity.
Defined.

(** ** The publisher-item listing *)

(** C1 (publisher-item listing, errors).  For a string argument the
    handler of [parsePublisherFeed] is never reached: the call settles the
    way [parsePublisherFeedFromUrl] does (on the catalogue address for the
    alias), rejections included; only the
    [TypeError] for a non-string argument is turned into an empty list.  On
    the sample platform a transport failure, a 404 answer, a [parsererror]
    document and a document without channel all reject the call. *)
Theorem parsePublisherFeed_propagates_rejections :
  (forall p url st,
      parsePublisherFeed p (UrlString url) st
      = if String.eqb url "iroh-aggregated"
        then (logLine LoadingIroh ;;
              parsePublisherFeedFromUrl p
                "https://wavlake.com/feed/artist/8a9c2e54-785a-4128-9412-737610f5d00a") st
        else parsePublisherFeedFromUrl p url st)
  /\ (forall p typeName st,
         fst (parsePublisherFeed p (NotAString typeName) st) = Fulfilled [])
  /\ fst (parsePublisherFeed samplePlatform
            (UrlString "https://feeds.example/down.xml") initialState)
     = Rejected (TypeError "Failed to fetch")
  /\ fst (parsePublisherFeed samplePlatform
            (UrlString "https://feeds.example/missing.xml") initialState)
     = Rejected (Error "Failed to fetch publisher feed: 404")
  /\ fst (parsePublisherFeed samplePlatform
            (UrlString "https://feeds.example/broken.xml") initialState)
     = Rejected (Error "Invalid XML format")
  /\ fst (parsePublisherFeed samplePlatform
            (UrlString "https://feeds.example/empty.xml") initialState)
     = Rejected (Error "Invalid RSS feed: no channel found").
Proof.
  split; [ | split; [ | repeat split; reflexivity]].
  - intros p url st. unfold parsePublisherFeed.
    destruct (String.eqb url "iroh-aggregated"); reflexivity.
  - intros p typeName st. reflexivity.
Qed.

(** ** Console lines of the tasks *)

Section ConsoleFacts.
Variable Q : LogEntry -> bool.

Lemma writesOnly_ret {A : Type} (a : A) : writesOnly Q (ret a).
Proof. intros st. exists []. split; [now rewrite app_nil_r | constructor]. Qed.

Lemma writesOnly_throw {A : Type} (e : Exn) : writesOnly Q (@throw A e).
Proof. intros st. exists []. split; [now rewrite app_nil_r | constructor]. Qed.

Lemma writesOnly_bind {A B : Type} (c : Task A) (k : A -> Task B) :
  writesOnly Q c -> (forall a, writesOnly Q (k a)) -> writesOnly Q (bind c k).
Proof.
  intros Hc Hk st. unfold bind.
  destruct (Hc st) as (lines & Hlines & Hkind).
  destruct (c st) as [[a | e] st1]; cbn [snd] in *.
  - destruct (Hk a st1) as (lines' & Hlines' & Hkind').
    exists (lines ++ lines'). split.
    + now rewrite Hlines', Hlines, app_assoc.
    + now apply Forall_app.
  - now exists lines.
Qed.

Lemma writesOnly_tryCatch {A : Type} (body : Task A) (handler : Exn -> Task A) :
  writesOnly Q body -> (forall e, writesOnly Q (handler e)) ->
  writesOnly Q (tryCatch body handler).
Proof.
  intros Hbody Hhandler st. unfold tryCatch.
  destruct (Hbody st) as (lines & Hlines & Hkind).
  destruct (body st) as [[a | e] st1]; cbn [snd] in *.
  - now exists lines.
  - destruct (Hhandler e st1) as (lines' & Hlines' & Hkind').
    exists (lines ++ lines'). split.
    + now rewrite Hlines', Hlines, app_assoc.
    + now apply Forall_app.
Qed.

Lemma writesOnly_logLines (entries : list LogEntry) :
  Forall (fun entry => Q entry = true) entries -> writesOnly Q (logLines entries).
Proof. intros Hkind st. now exists entries. Qed.

Lemma writesOnly_logLine (entry : LogEntry) :
  Q entry = true -> writesOnly Q (logLine entry).
Proof. intros Hkind st. exists [entry]. split; [reflexivity | now constructor]. Qed.

Lemma writesOnly_sleep (ms : nat) : writesOnly Q (sleep ms).
Proof. intros st. exists []. split; [cbn; now rewrite app_nil_r | constructor]. Qed.

Lemma writesOnly_ofResult {A : Type} (r : Exn + A) : writesOnly Q (ofResult r).
Proof. destruct r; [apply writesOnly_throw | apply writesOnly_ret]. Qed.

Lemma writesOnly_retryLoop {T : Type} (fn : Task T) (maxRetries delay : nat)
      (onRetry : option (nat -> Exn -> Task unit)) :
  writesOnly Q fn ->
  (forall attempt e, writesOnly Q (notify onRetry attempt e)) ->
  forall remaining attempt lastError,
    writesOnly Q (retryLoop fn maxRetries delay onRetry remaining attempt lastError).
Proof.
  intros Hfn Hnotify.
  induction remaining as [ | remaining IH]; intros attempt lastError; cbn [retryLoop].
  - apply writesOnly_throw.
  - apply writesOnly_tryCatch; [exact Hfn | ]. intros e.
    destruct (attempt =? maxRetries); [apply writesOnly_throw | ].
    apply writesOnly_bind; [exact (Hnotify attempt e) | ]. intros _.
    apply writesOnly_bind; [apply writesOnly_sleep | ]. intros _.
    apply IH.
Qed.

End ConsoleFacts.

Section ParserConsoleFacts.
Variable p : Platform.

Local Abbreviation attemptLine := (fun entry => isAttemptLine entry = true).

Lemma writesOnly_fetch (Q : LogEntry -> bool) (url : string) : writesOnly Q (fetch p url).
Proof.
  intros st. exists []. unfold fetch.
  destruct (network p url (now st)) as [latency [reason | response]];
    cbn; split; try (now rewrite app_nil_r); constructor.
Qed.

Lemma writesOnly_fetchFeed (Q : LogEntry -> bool) (feedUrl : string) :
  writesOnly Q (fetchFeed p feedUrl).
Proof.
  unfold fetchFeed. destruct (isServer p); [apply writesOnly_fetch | ].
  destruct (startsWith _ _); apply writesOnly_fetch.
Qed.

Lemma writesOnly_errorMessage (Q : LogEntry -> bool) (error : Exn) :
  writesOnly Q (errorMessage error).
Proof. destruct error; [apply writesOnly_throw | apply writesOnly_ret ..]. Qed.

Lemma writesOnly_parseXmlChecked (Q : LogEntry -> bool) (xmlText : string) :
  writesOnly Q (parseXmlChecked p xmlText).
Proof.
  unfold parseXmlChecked. apply writesOnly_tryCatch.
  - apply writesOnly_bind; [apply writesOnly_ofResult | ]. intros xmlDoc.
    destruct (documentElementsByTagName _ _);
      [apply writesOnly_ret | apply writesOnly_throw].
  - intros e. apply writesOnly_throw.
Qed.

Lemma normalizeDuration_lines (duration : string) (trackTitle : option string) :
  Forall attemptLine (snd (normalizeDuration duration trackTitle)).
Proof.
  unfold normalizeDuration. cbv zeta.
  repeat match goal with
         | |- Forall _ (snd (if ?c then _ else _)) => destruct c
         | |- Forall _ (snd (match ?x with _ => _ end)) => destruct x
         | |- Forall _ (snd (_, match ?x with _ => _ end)) => destruct x
         | |- Forall _ (snd (_, if ?c then _ else _)) => destruct c
         end;
    cbn [snd]; repeat constructor.
Qed.

Lemma extractTrack_lines (i : nat) (item : Node) :
  Forall attemptLine (snd (extractTrack i item)).
Proof.
  unfold extractTrack.
  pose proof (normalizeDuration_lines (rawDuration item)
                (Some (orDefault (firstText "title" item) ("Track " ++ ofNat (i + 1)))))
    as Hlines.
  destruct (normalizeDuration _ _) as [normalized converted]. cbn [snd] in *.
  apply Forall_app. split; [exact Hlines | now repeat constructor].
Qed.

Lemma extractTracksFrom_lines (items : list Node) :
  forall k, Forall attemptLine (flat_map snd (extractTracksFrom k items)).
Proof.
  induction items as [ | item items IH]; intros k; cbn [extractTracksFrom flat_map].
  - constructor.
  - apply Forall_app. split; [apply extractTrack_lines | apply IH].
Qed.

Lemma extractCoverArt_lines (x : Extractor) (channel : Node) (items : list Node) :
  Forall attemptLine (fst (extractCoverArt x channel items)).
Proof.
  unfold extractCoverArt.
  repeat match goal with
         | |- Forall _ (fst (match ?c with _ => _ end)) => destruct c
         | |- Forall _ (fst (let (_, _) := ?c in _)) => destruct c
         end;
    cbn [fst]; repeat constructor.
Qed.

Lemma extractAlbum_lines (x : Extractor) (xmlDoc : Node) :
  Forall attemptLine (fst (extractAlbum x xmlDoc)).
Proof.
  unfold extractAlbum.
  destruct (documentElementsByTagName "channel" xmlDoc) as [ | channel others];
    [constructor | ].
  pose proof (extractCoverArt_lines x channel (documentElementsByTagName "item" xmlDoc))
    as Hwarnings.
  destruct (extractCoverArt x channel _) as [warnings [e | art]]; cbn [fst] in *;
    [exact Hwarnings | ].
  unfold buildAlbum. cbn [fst]. apply Forall_app. split; [exact Hwarnings | ].
  constructor; [now destruct (truthy art) | ].
  constructor; [reflexivity | apply extractTracksFrom_lines].
Qed.

Lemma writesOnly_parseAlbumFeedAttempt (feedUrl : string) :
  writesOnly isAttemptLine (parseAlbumFeedAttempt p feedUrl).
Proof.
  unfold parseAlbumFeedAttempt.
  apply writesOnly_bind; [now apply writesOnly_logLine | ]. intros _.
  apply writesOnly_bind.
  { apply writesOnly_tryCatch; [apply writesOnly_fetchFeed | ].
    intros e. apply writesOnly_throw. }
  intros response.
  destruct (negb (ok response)); [apply writesOnly_throw | ].
  destruct (isEmpty _ || _); [apply writesOnly_throw | ].
  destruct (negb _ || negb _); [apply writesOnly_throw | ].
  apply writesOnly_bind; [apply writesOnly_parseXmlChecked | ]. intros xmlDoc.
  pose proof (extractAlbum_lines (extractor p) xmlDoc) as Hlines.
  destruct (extractAlbum (extractor p) xmlDoc) as [lines extracted]. cbn [fst] in Hlines.
  apply writesOnly_bind; [now apply writesOnly_logLines | ]. intros _.
  apply writesOnly_bind; [apply writesOnly_ofResult | ]. intros album.
  apply writesOnly_bind; [now apply writesOnly_logLine | ]. intros _.
  apply writesOnly_ret.
Qed.

Lemma attemptLines_neither (lines : list LogEntry) :
  Forall attemptLine lines ->
  filter isFailureReport lines = [] /\ givenUpFeeds lines = [].
Proof.
  induction 1 as [ | entry lines Hentry _ [IHreports IHgivenUp]]; [now split | ].
  unfold givenUpFeeds in *. cbn [filter flat_map]. rewrite IHreports, IHgivenUp.
  destruct entry; try discriminate Hentry; now split.
Qed.

Lemma givenUpFeeds_app (l1 l2 : list LogEntry) :
  givenUpFeeds (l1 ++ l2) = givenUpFeeds l1 ++ givenUpFeeds l2.
Proof. apply flat_map_app. Qed.

(** [parseAlbumFeed] always fulfils, with an album or with [null]; it
    writes no failure report of the aggregator, and one given-up line
    exactly when it answers [null]. *)
Lemma parseAlbumFeed_console (feedUrl : string) (st : TaskState) :
  exists outcome st' lines,
    parseAlbumFeed p feedUrl st = (Fulfilled outcome, st')
    /\ console st' = console st ++ lines
    /\ filter isFailureReport lines = []
    /\ givenUpFeeds lines = match outcome with Some _ => [] | None => [feedUrl] end.
Proof.
  assert (Hretry : writesOnly isAttemptLine
                     (withRetry (parseAlbumFeedAttempt p feedUrl) 3 1000
                        (Some (fun attempt error =>
                                 message <- errorMessage error ;;
                                 logLine (RetryingFeedParse attempt feedUrl message))))).
  { unfold withRetry. apply writesOnly_retryLoop.
    - apply writesOnly_parseAlbumFeedAttempt.
    - intros attempt e. cbn [notify].
      apply writesOnly_bind; [apply writesOnly_errorMessage | ]. intros message.
      now apply writesOnly_logLine. }
  unfold parseAlbumFeed, tryCatch, bind.
  destruct (Hretry st) as (lines & Hlines & Hkind).
  destruct (attemptLines_neither lines Hkind) as [Hreports HgivenUp].
  destruct (withRetry _ _ _ _ st) as [[album | e] st1]; cbn [snd] in Hlines.
  - now exists (Some album), st1, lines.
  - eexists None, _, (lines ++ [FailedToParseFeed feedUrl e]).
    split; [reflexivity | ]. cbn [console logLine ret snd].
    rewrite Hlines, <- app_assoc, filter_app, givenUpFeeds_app, Hreports, HgivenUp.
    now repeat split.
Qed.

Lemma parseAlbumFeed_fulfils (feedUrl : string) (st : TaskState) :
  exists outcome st', parseAlbumFeed p feedUrl st = (Fulfilled outcome, st').
Proof.
  destruct (parseAlbumFeed_console feedUrl st) as (outcome & st' & _ & Hrun & _).
  now exists outcome, st'.
Qed.

(** Hence the retry and the handler around it in the aggregator never
    come into play. *)
Lemma parseInBatch_parseAlbumFeed (url : string) (st : TaskState) :
  parseInBatch p url st = parseAlbumFeed p url st.
Proof.
  unfold parseInBatch, withRetry. cbn [retryLoop]. unfold tryCatch at 1 2.
  destruct (parseAlbumFeed_fulfils url st) as (outcome & st' & ->). reflexivity.
Qed.

End ParserConsoleFacts.

(** ** The batch aggregator *)

Section ListFacts.
Context {A : Type}.

Lemma filter_all (f : A -> bool) (l : list A) :
  Forall (fun x => f x = true) l -> filter f l = l.
Proof. induction 1 as [ | x l Hx _ IH]; cbn; [ | rewrite Hx, IH]; reflexivity. Qed.

Lemma firstn_plus (n m : nat) (l : list A) :
  firstn (n + m) l = firstn n l ++ firstn m (skipn n l).
Proof.
  revert l. induction n as [ | n IH]; intros l; [reflexivity | ].
  destruct l as [ | x l]; cbn [Nat.add firstn skipn app].
  - now rewrite firstn_nil.
  - now rewrite IH.
Qed.

(** The windows of the loop, one after the other, make up the input. *)
Lemma windows_cover (step : nat) (l : list A) :
  0 < step ->
  concat (List.map (fun i => slice i (i + step) l) (loopIndices (List.length l) step)) = l.
Proof.
  intros Hstep. unfold loopIndices. rewrite map_map.
  assert (Hprefix : forall k,
             concat (List.map (fun j => slice (j * step) (j * step + step) l) (seq 0 k))
             = firstn (k * step) l).
  { induction k as [ | k IH]; [reflexivity | ].
    rewrite seq_S, map_app, concat_app, IH. cbn [List.map concat Nat.add].
    rewrite app_nil_r. unfold slice.
    replace (k * step + step - k * step) with step by lia.
    replace (S k * step) with (k * step + step) by lia.
    now rewrite firstn_plus. }
  rewrite Hprefix. apply firstn_all2.
  pose proof (Nat.div_mod_eq (List.length l + step - 1) step) as Hdiv.
  pose proof (Nat.mod_upper_bound (List.length l + step - 1) step) as Hmod.
  nia.
Qed.

End ListFacts.

(** Interleaving keeps every entry of every promise, whatever the order
    of service. *)
Section InterleaveFacts.
Context {A : Type}.

Lemma takeNext_permutation (threads : list (list A)) :
  forall k x threads',
    takeNext k threads = Some (x, threads') ->
    Permutation (concat threads) (x :: concat threads').
Proof.
  induction threads as [ | thread rest IH]; intros k x threads' Htake.
  - destruct k; discriminate Htake.
  - destruct k as [ | k].
    + destruct thread as [ | y thread]; [discriminate Htake | ].
      injection Htake as <- <-. reflexivity.
    + cbn [takeNext] in Htake.
      assert (Hrest : match takeNext k rest with
                      | Some (y, rest') => Some (y, thread :: rest')
                      | None => None
                      end = Some (x, threads')).
      { destruct thread; exact Htake. }
      destruct (takeNext k rest) as [[y rest'] | ] eqn:Hk; [ | discriminate Hrest].
      injection Hrest as <- <-. cbn [concat].
      rewrite (IH k y rest' Hk). symmetry. apply Permutation_middle.
Qed.

Lemma interleave_permutation (choices : list nat) :
  forall threads : list (list A), Permutation (interleave choices threads) (concat threads).
Proof.
  induction choices as [ | k later IH]; intros threads; cbn [interleave]; [reflexivity | ].
  destruct (takeNext k threads) as [[x threads'] | ] eqn:Htake; [ | apply IH].
  rewrite (takeNext_permutation threads k x threads' Htake).
  constructor. apply IH.
Qed.

Lemma joined_permutation (p : Platform) (time : nat) (threads : list (list A)) :
  Permutation (joined p time threads) (concat threads).
Proof. apply interleave_permutation. Qed.

Lemma filter_permutation (f : A -> bool) (l l' : list A) :
  Permutation l l' -> Permutation (filter f l) (filter f l').
Proof.
  induction 1 as [ | x l l' _ IH | x y l | l l' l'' _ IH1 _ IH2]; cbn [filter].
  - constructor.
  - destruct (f x); [now constructor | exact IH].
  - destruct (f x), (f y); try reflexivity. apply perm_swap.
  - now transitivity (filter f l').
Qed.

Lemma filter_none_permutation (f : A -> bool) (l l' : list A) :
  Permutation l l' -> filter f l' = [] -> filter f l = [].
Proof.
  intros Hperm Hnone. apply (filter_permutation f) in Hperm. rewrite Hnone in Hperm.
  symmetry in Hperm. now apply Permutation_nil in Hperm.
Qed.

End InterleaveFacts.

Section AggregatorFacts.
Variable p : Platform.

Lemma successValues_filter (results : list (Outcome (option RSSAlbum))) :
  successValues (filter isSuccessful results) = successValues results.
Proof.
  unfold successValues.
  induction results as [ | result results IH]; [reflexivity | ].
  destruct result as [[album | ] | e]; cbn [filter isSuccessful flat_map app];
    now rewrite ?IH.
Qed.

Lemma forEachIndexed_reports (batch : list string)
      (failed : list (Outcome (option RSSAlbum))) :
  forall index,
    Forall (fun entry => isFailureReport entry = true)
      (forEachIndexed
         (fun result index =>
            match result with
            | Rejected reason => [FeedRejected (nth_error batch index) reason]
            | Fulfilled None => [FeedReturnedNull (nth_error batch index)]
            | Fulfilled (Some _) => []
            end)
         index failed).
Proof.
  induction failed as [ | result failed IH]; intros index; [constructor | ].
  destruct result as [[album | ] | e]; cbn [forEachIndexed app];
    try constructor; auto.
Qed.

Lemma reportFailures_kind (batch : list string) (batchNumber : nat)
      (failed : list (Outcome (option RSSAlbum))) :
  Forall (fun entry => isFailureReport entry = true)
    (reportFailures batch batchNumber failed).
Proof.
  unfold reportFailures.
  destruct (0 <? List.length failed); [ | constructor].
  constructor; [reflexivity | ].
  apply Forall_app. split; [apply forEachIndexed_reports | ].
  destruct (3 <? List.length failed); now repeat constructor.
Qed.

Lemma reports_not_givenUp (lines : list LogEntry) :
  Forall (fun entry => isFailureReport entry = true) lines -> givenUpFeeds lines = [].
Proof.
  induction 1 as [ | entry lines Hentry _ IH]; [reflexivity | ].
  unfold givenUpFeeds in *. cbn [flat_map]. rewrite IH.
  now destruct entry; try discriminate Hentry.
Qed.

(** The join of a window: the results are those of the addresses, in the
    order of the addresses. *)
Lemma allSettled_window (batch : list string) (st : TaskState) :
  exists st' lines,
    allSettled p (List.map (parseInBatch p) batch) st
    = (Fulfilled (windowResults p batch (now st)), st')
    /\ console st' = console st ++ lines
    /\ filter isFailureReport lines = []
    /\ Permutation (givenUpFeeds lines) (nullFeeds p batch (now st)).
Proof.
  unfold allSettled.
  set (runs := List.map (fun t => startTask t st) (List.map (parseInBatch p) batch)).
  set (threads := List.map (fun r => console (snd r)) runs).
  exists {| now := fold_left Nat.max (List.map (fun r => now (snd r)) runs) (now st);
            timers := timers st
                      ++ joined p (now st) (List.map (fun r => timers (snd r)) runs);
            console := console st ++ joined p (now st) threads |}.
  exists (joined p (now st) threads).
  split; [ | split; [reflexivity | ]].
  - f_equal. f_equal. subst runs. unfold windowResults, startTask. rewrite !map_map.
    apply map_ext. intros url. now rewrite parseInBatch_parseAlbumFeed.
  - assert (Hthreads : filter isFailureReport (concat threads) = []
                       /\ givenUpFeeds (concat threads) = nullFeeds p batch (now st)).
    { subst threads runs. unfold nullFeeds.
      induction batch as [ | url batch [IHreports IHgivenUp]]; cbn [List.map flat_map concat];
        [now split | ].
      rewrite filter_app, givenUpFeeds_app, IHreports, IHgivenUp.
      unfold startTask. rewrite parseInBatch_parseAlbumFeed.
      destruct (parseAlbumFeed_console p url (threadStart (now st)))
        as (outcome & st' & lines & -> & Hlines & Hreports & HgivenUp).
      cbn [fst snd]. cbn [console threadStart app] in Hlines.
      rewrite Hlines, Hreports, HgivenUp. now destruct outcome. }
    destruct Hthreads as [Hreports HgivenUp].
    pose proof (joined_permutation p (now st) threads) as Hperm. split.
    + exact (filter_none_permutation _ _ _ Hperm Hreports).
    + rewrite <- HgivenUp. unfold givenUpFeeds. now apply Permutation_flat_map.
Qed.

End AggregatorFacts.

Section LoopFacts.
Variable p : Platform.
Variable feedUrls : list string.

(** One iteration of the loop. *)
Lemma processBatch_spec (i : nat) (results : list RSSAlbum) (st : TaskState) :
  exists w st' lines,
    processBatch p feedUrls i results st = (Fulfilled (results ++ windowAlbums w), st')
    /\ WindowOutcome p feedUrls i w
    /\ console st' = console st ++ lines
    /\ filter isFailureReport lines = windowReports w
    /\ Permutation (givenUpFeeds lines) (windowGivenUp w).
Proof.
  unfold processBatch. cbv zeta.
  set (batch := slice i (i + batchSize) feedUrls).
  set (batchNumber := i / batchSize + 1).
  set (first := ProcessingBatch batchNumber _ _).
  unfold bind at 1. unfold logLine at 1.
  set (st1 := {| now := now st; timers := timers st; console := console st ++ [first] |}).
  destruct (allSettled_window p batch st1)
    as (st2 & settled & Hjoin & Hconsole2 & Hreports2 & HgivenUp2).
  unfold bind at 1. rewrite Hjoin.
  change (now st1) with (now st) in *.
  set (results0 := windowResults p batch (now st)) in *.
  unfold bind at 1. unfold logLines at 1.
  set (reports := reportFailures batch batchNumber (filter isFailed results0)).
  exists {| windowAlbums := successValues results0;
            windowReports := reports;
            windowGivenUp := nullFeeds p batch (now st) |}.
  pose proof (reportFailures_kind batch batchNumber (filter isFailed results0)) as Hkind.
  fold reports in Hkind.
  assert (Hlines : filter isFailureReport ([first] ++ settled ++ reports) = reports).
  { now rewrite !filter_app, Hreports2, (filter_all _ _ Hkind). }
  assert (Hnull : Permutation (givenUpFeeds ([first] ++ settled ++ reports))
                               (nullFeeds p batch (now st))).
  { rewrite !givenUpFeeds_app, (reports_not_givenUp _ Hkind).
    now rewrite app_nil_r. }
  assert (Hwindow :
            WindowOutcome p feedUrls i
              {| windowAlbums := successValues results0;
                 windowReports := reports;
                 windowGivenUp := nullFeeds p batch (now st) |}).
  { exists (now st). now repeat split. }
  rewrite successValues_filter.
  destruct (i + batchSize <? List.length feedUrls);
    eexists; exists ([first] ++ settled ++ reports);
    (split; [reflexivity
            | split; [exact Hwindow | split; [ | split; [exact Hlines | exact Hnull]]]]);
    cbn [console snd]; rewrite Hconsole2; subst st1; cbn [console];
    now rewrite <- !app_assoc.
Qed.

(** The loop: window after window. *)
Lemma batchLoop_spec (indices : list nat) :
  forall results st,
  exists ws st' lines,
    batchLoop p feedUrls indices results st
    = (Fulfilled (results ++ concat (List.map windowAlbums ws)), st')
    /\ Forall2 (WindowOutcome p feedUrls) indices ws
    /\ console st' = console st ++ lines
    /\ filter isFailureReport lines = concat (List.map windowReports ws)
    /\ Permutation (givenUpFeeds lines) (concat (List.map windowGivenUp ws)).
Proof.
  induction indices as [ | i indices IH]; intros results st; cbn [batchLoop].
  - exists [], st, []. cbn. rewrite !app_nil_r. repeat split; constructor.
  - destruct (processBatch_spec i results st)
      as (w & st1 & lines1 & Hone & Hw & Hc1 & Hf1 & Hg1).
    destruct (IH (results ++ windowAlbums w) st1)
      as (ws & st2 & lines2 & Hrest & Hws & Hc2 & Hf2 & Hg2).
    exists (w :: ws), st2, (lines1 ++ lines2).
    unfold bind. rewrite Hone, Hrest. cbn [List.map concat].
    repeat split.
    + now rewrite <- app_assoc.
    + now constructor.
    + now rewrite Hc2, Hc1, <- app_assoc.
    + now rewrite filter_app, Hf1, Hf2.
    + rewrite givenUpFeeds_app. now apply Permutation_app.
Qed.

Lemma parseMultipleFeedsInternal_spec (st : TaskState) :
  exists ws st' lines,
    parseMultipleFeedsInternal p feedUrls st
    = (Fulfilled (concat (List.map windowAlbums ws)), st')
    /\ Forall2 (WindowOutcome p feedUrls) (loopIndices (List.length feedUrls) batchSize) ws
    /\ console st' = console st ++ lines
    /\ filter isFailureReport lines = concat (List.map windowReports ws)
    /\ Permutation (givenUpFeeds lines) (concat (List.map windowGivenUp ws)).
Proof.
  unfold parseMultipleFeedsInternal.
  set (st1 := {| now := now st; timers := timers st;
                 console := console st ++ [ParsingFeeds (List.length feedUrls)] |}).
  destruct (batchLoop_spec (loopIndices (List.length feedUrls) batchSize) [] st1)
    as (ws & st2 & lines & Hloop & Hws & Hconsole & Hreports & HgivenUp).
  exists ws. eexists.
  exists ([ParsingFeeds (List.length feedUrls)] ++ lines
          ++ [ParsedAlbums (List.length (concat (List.map windowAlbums ws)))
                (List.length feedUrls)]).
  unfold bind at 1. unfold logLine at 1. fold st1.
  unfold bind at 1. rewrite Hloop. cbn [app].
  split; [reflexivity | split; [exact Hws | split; [ | split]]].
  - cbn [console snd]. rewrite Hconsole. subst st1. cbn [console].
    now rewrite <- !app_assoc.
  - cbn [app filter isFailureReport]. rewrite filter_app, Hreports.
    cbn [filter isFailureReport]. now rewrite app_nil_r.
  - unfold givenUpFeeds in *. cbn [flat_map app]. rewrite flat_map_app.
    cbn [flat_map]. now rewrite !app_nil_r.
Qed.

End LoopFacts.

(** C2, counterexample.  Of two feeds in one window the second answers
    first (after 100 ms, the first after 500 ms); the albums come back in
    the order of the addresses, not in the order of completion. *)
Lemma window_results_not_in_completion_order :
  let urls := ["https://feeds.example/slow.xml"; "https://feeds.example/fast.xml"] in
  exists albums,
    fst (parseMultipleFeedsInternal samplePlatform urls initialState) = Fulfilled albums
    /\ List.map title albums = ["Slow"; "Fast"]
    /\ List.map settledAt
         (List.map (fun url => startTask (parseInBatch samplePlatform url) initialState) urls)
       = [500; 100]
    /\ List.map title (windowSuccessesByCompletion samplePlatform urls initialState)
       = ["Fast"; "Slow"]
    /\ albums <> windowSuccessesByCompletion samplePlatform urls initialState.
Proof.
  eexists. split; [vm_compute; reflexivity | ].
  split; [reflexivity | ]. split; [vm_compute; reflexivity | ].
  split; [vm_compute; reflexivity | ].
  vm_compute. discriminate.
Qed.

Section AggregateOutcomes.
Variable p : Platform.

Local Abbreviation parsedAs :=
  (fun url outcome =>
     exists time, fst (parseAlbumFeed p url (threadStart time)) = Fulfilled outcome).

Lemma albumsOf_app (o1 o2 : list (option RSSAlbum)) :
  albumsOf (o1 ++ o2) = albumsOf o1 ++ albumsOf o2.
Proof. apply flat_map_app. Qed.

Lemma albumsOf_length (outcomes : list (option RSSAlbum)) :
  List.length (albumsOf outcomes) <= List.length outcomes.
Proof.
  unfold albumsOf.
  induction outcomes as [ | outcome outcomes IH]; [reflexivity | ].
  destruct outcome as [album | ]; cbn [flat_map app List.length]; lia.
Qed.

(** The promises of a window started at [time]: each address settles
    with an album or with [null], and the successes of the window are the
    albums among these outcomes, in the order of the addresses. *)
Lemma window_outcomes_at (batch : list string) (time : nat) :
  exists outcomes,
    Forall2
      (fun url outcome => fst (parseAlbumFeed p url (threadStart time)) = Fulfilled outcome)
      batch outcomes
    /\ successValues (windowResults p batch time) = albumsOf outcomes.
Proof.
  induction batch as [ | url batch IH].
  - exists []. split; [constructor | reflexivity].
  - destruct IH as (outcomes & Hall & Halbums).
    destruct (parseAlbumFeed_fulfils p url (threadStart time)) as (outcome & st' & Hrun).
    exists (outcome :: outcomes). split.
    + constructor; [ | exact Hall]. now rewrite Hrun.
    + unfold windowResults in *. cbn [List.map]. rewrite Hrun. cbn [fst].
      unfold successValues in *. cbn [flat_map]. rewrite Halbums.
      now destruct outcome.
Qed.

Lemma window_outcomes (batch : list string) (time : nat) :
  exists outcomes,
    Forall2 parsedAs batch outcomes
    /\ successValues (windowResults p batch time) = albumsOf outcomes.
Proof.
  destruct (window_outcomes_at batch time) as (outcomes & Hall & Halbums).
  exists outcomes. split; [ | exact Halbums].
  clear Halbums. induction Hall as [ | url outcome batch outcomes Hone _ IH]; constructor.
  - now exists time.
  - exact IH.
Qed.

Lemma windows_outcomes (feedUrls : list string) (indices : list nat)
      (ws : list WindowReport) :
  Forall2 (WindowOutcome p feedUrls) indices ws ->
  exists outcomes,
    Forall2 parsedAs
      (concat (List.map (fun i => slice i (i + batchSize) feedUrls) indices)) outcomes
    /\ concat (List.map windowAlbums ws) = albumsOf outcomes.
Proof.
  induction 1 as [ | i w indices ws Hw _ IH].
  - exists []. split; [constructor | reflexivity].
  - destruct IH as (outcomes & Hall & Halbums).
    destruct Hw as (time & Hfirst & _). cbv zeta in Hfirst.
    destruct (window_outcomes (slice i (i + batchSize) feedUrls) time)
      as (outcomes0 & Hall0 & Halbums0).
    exists (outcomes0 ++ outcomes). cbn [List.map concat]. split.
    + now apply Forall2_app.
    + now rewrite albumsOf_app, Hfirst, Halbums0, Halbums.
Qed.

End AggregateOutcomes.

(** C2 (order of the aggregated albums).  The windows of the loop, one
    after the other, make up the list of addresses.  Every address of a
    window settles with an album or with null, all promises of the window
    being started together at some time; the list returned by the batch
    aggregator is made, window after window and within each window
    address after address, of the albums among these outcomes: the
    addresses in their input order with the failed ones left out,
    whenever the promises complete. *)
Theorem aggregator_returns_windows_in_input_order
        (p : Platform) (feedUrls : list string) (st : TaskState) :
  let windows :=
    List.map (fun i => slice i (i + batchSize) feedUrls)
      (loopIndices (List.length feedUrls) batchSize) in
  concat windows = feedUrls
  /\ exists perWindow : list (list (option RSSAlbum)),
       fst (parseMultipleFeedsInternal p feedUrls st)
       = Fulfilled (concat (List.map albumsOf perWindow))
       /\ Forall2
            (fun window outcomes =>
               exists time,
                 Forall2
                   (fun url outcome =>
                      fst (parseAlbumFeed p url (threadStart time)) = Fulfilled outcome)
                   window outcomes)
            windows perWindow.
Proof.
  cbv zeta. split; [apply windows_cover; unfold batchSize; lia | ].
  destruct (parseMultipleFeedsInternal_spec p feedUrls st)
    as (ws & st' & lines & Hrun & Hws & _).
  rewrite Hrun. cbn [fst]. clear Hrun.
  induction Hws as [ | i w indices ws Hw _ (perWindow & Halbums & Hall)].
  - exists []. split; [reflexivity | constructor].
  - destruct Hw as (time & Hfirst & _). cbv zeta in Hfirst.
    destruct (window_outcomes_at p (slice i (i + batchSize) feedUrls) time)
      as (outcomes & Hone & Hsuccesses).
    exists (outcomes :: perWindow). cbn [List.map concat]. split.
    + injection Halbums as Halbums. now rewrite Hfirst, Hsuccesses, Halbums.
    + constructor; [now exists time | exact Hall].
Qed.

(** Settle the result of one address of a window: by the hypothesis on
    the failing positions, or by the one on the position [k] it is found
    at. *)
Ltac settle_address Hfail Hok u s k :=
  first
    [ rewrite (Hfail u (or_introl eq_refl) s)
    | rewrite (Hfail u (or_intror eq_refl) s)
    | let album := fresh "album" in
      let Halbum := fresh "Halbum" in
      destruct (Hok k u ltac:(discriminate) ltac:(discriminate) eq_refl s)
        as [album Halbum];
      rewrite Halbum; clear Halbum
    | lazymatch k with
      | S ?k' => settle_address Hfail Hok u s k'
      end ].

Ltac settle_window Hfail Hok :=
  repeat match goal with
         | |- context [fst (parseAlbumFeed _ ?u ?s)] => settle_address Hfail Hok u s 24
         end.

(** C3 (the aggregator never fails).  For every list of addresses the
    batch aggregator fulfils, with the albums of the addresses that were
    parsed, in the order of the addresses, and so with no more albums than
    addresses.  With 25 addresses of which those at positions 5 and 17
    (counted from 0, or from 1: indices 4 and 16) always fail and the
    others always succeed, it fulfils with 23 albums; the failures it
    reports on the console are one summary line for 2 failed feeds of
    batch 1 and two lines for feeds that returned null, and the feeds the
    extractor logs as given up after its retries are the two failing
    ones, each once, in the order in which their promises happen to give
    up. *)
Theorem aggregator_never_fails (p : Platform) (feedUrls : list string) (st : TaskState) :
  (exists albums st',
      parseMultipleFeedsInternal p feedUrls st = (Fulfilled albums, st')
      /\ List.length albums <= List.length feedUrls
      /\ exists outcomes,
           Forall2
             (fun url outcome =>
                exists time,
                  fst (parseAlbumFeed p url (threadStart time)) = Fulfilled outcome)
             feedUrls outcomes
           /\ albums = albumsOf outcomes)
  /\ (forall a b,
         (a = 5 /\ b = 17) \/ (a = 4 /\ b = 16) ->
         List.length feedUrls = 25 ->
         (forall url,
             nth_error feedUrls a = Some url \/ nth_error feedUrls b = Some url ->
             forall s, fst (parseAlbumFeed p url s) = Fulfilled None) ->
         (forall i url,
             i <> a -> i <> b -> nth_error feedUrls i = Some url ->
             forall s, exists album, fst (parseAlbumFeed p url s) = Fulfilled (Some album)) ->
         exists albums st' lines,
           parseMultipleFeedsInternal p feedUrls st = (Fulfilled albums, st')
           /\ List.length albums = 23
           /\ console st' = console st ++ lines
           /\ filter isFailureReport lines
              = [ BatchFailures 2 1;
                  FeedReturnedNull (nth_error feedUrls 0);
                  FeedReturnedNull (nth_error feedUrls 1) ]
           /\ Permutation (List.map Some (givenUpFeeds lines))
                          [ nth_error feedUrls a; nth_error feedUrls b ]).
Proof.
  destruct (parseMultipleFeedsInternal_spec p feedUrls st)
    as (ws & st' & lines & Hrun & Hws & Hconsole & Hreports & HgivenUp).
  split.
  - exists (concat (List.map windowAlbums ws)), st'.
    destruct (windows_outcomes p feedUrls _ ws Hws) as (outcomes & Hall & Halbums).
    rewrite windows_cover in Hall by (unfold batchSize; lia).
    split; [exact Hrun | split].
    + rewrite Halbums, (Forall2_length Hall). apply albumsOf_length.
    + now exists outcomes.
  - intros a b Hpositions Hlength Hfail Hok.
    exists (concat (List.map windowAlbums ws)), st', lines.
    split; [exact Hrun | ]. rewrite Hreports, HgivenUp. clear Hrun Hreports HgivenUp.
    rewrite Hlength in Hws. change (loopIndices 25 batchSize) with [0; 20] in Hws.
    do 26 (destruct feedUrls as [ | ? feedUrls]; try discriminate Hlength).
    clear Hlength.
    inversion Hws as [ | i0 w0 indices0 ws0 Hw0 Hws0]; subst.
    inversion Hws0 as [ | i1 w1 indices1 ws1 Hw1 Hws1]; subst.
    inversion Hws1; subst. clear Hws Hws0 Hws1.
    destruct Hw0 as (time0 & Halbums0 & Hlines0 & Hnull0).
    destruct Hw1 as (time1 & Halbums1 & Hlines1 & Hnull1).
    destruct w0 as [albums0 lines0 null0], w1 as [albums1 lines1 null1].
    cbn [windowAlbums windowReports windowGivenUp] in *.
    subst albums0 lines0 null0 albums1 lines1 null1.
    unfold windowResults, nullFeeds.
    cbn [List.map flat_map concat slice batchSize Nat.add Nat.sub skipn firstn app
         nth_error windowAlbums windowReports windowGivenUp].
    destruct Hpositions as [[-> ->] | [-> ->]];
      cbn [nth_error] in Hfail; settle_window Hfail Hok;
      (split; [reflexivity | split; [exact Hconsole | split; reflexivity]]).
Qed.

Lemma aggregator_never_fails_witness :
  exists albums st' lines,
    parseMultipleFeedsInternal samplePlatform sampleFeedUrls initialState
    = (Fulfilled albums, st')
    /\ List.length albums = 23
    /\ console st' = console initialState ++ lines
    /\ filter isFailureReport lines
       = [ BatchFailures 2 1;
           FeedReturnedNull (nth_error sampleFeedUrls 0);
           FeedReturnedNull (nth_error sampleFeedUrls 1) ]
    /\ Permutation (List.map Some (givenUpFeeds lines))
                   [ nth_error sampleFeedUrls 5; nth_error sampleFeedUrls 17 ].
Proof.
  apply (proj2 (aggregator_never_fails samplePlatform sampleFeedUrls initialState) 5 17).
  - left. split; reflexivity.
  - reflexivity.
  - intros url [Hurl | Hurl]; vm_compute in Hurl; injection Hurl as <-;
      intros s; vm_compute; reflexivity.
  - intros i url Hfive Hseventeen Hurl s.
    do 25 (destruct i as [ | i];
           [ first [ now elim Hfive
                   | now elim Hseventeen
                   | vm_compute in Hurl; injection Hurl as <-;
                     eexists; vm_compute; reflexivity ]
           | ]).
    destruct i; discriminate Hurl.
Defined.

(** ** Parsing one feed, end to end *)

Section EndToEnd.
Variable p : Platform.

Lemma fetchFeed_request (feedUrl : string) :
  fetchFeed p feedUrl = fetch p (requestUrl p feedUrl).
Proof.
  unfold fetchFeed, requestUrl. destruct (isServer p); [reflexivity | ].
  now destruct (startsWith _ _).
Qed.

Lemma nonblank_checks (text : string) :
  trim text <> EmptyString ->
  isEmpty text || (String.length (trim text) =? 0) = false.
Proof.
  intros Hnonblank. destruct text as [ | c text]; [now elim Hnonblank | ].
  cbn [isEmpty orb]. destruct (trim (String c text)); [now elim Hnonblank | reflexivity].
Qed.

(** An answer that passes the checks and parses to a document with a
    channel gives the album on the first attempt. *)
Lemma parseAlbumFeed_first_attempt
      (feedUrl : string) (st : TaskState) (latency : nat) (response : Response)
      (xmlDoc : Node) (lines : list LogEntry) (album : RSSAlbum) :
  network p (requestUrl p feedUrl) (now st) = (latency, HttpResponse response) ->
  ok response = true ->
  trim (body response) <> EmptyString ->
  includesChar "<" (body response) = true ->
  includesChar ">" (body response) = true ->
  parseFromString p (body response) = inr xmlDoc ->
  documentElementsByTagName "parsererror" xmlDoc = [] ->
  extractAlbum (extractor p) xmlDoc = (lines, inr album) ->
  fst (parseAlbumFeed p feedUrl st) = Fulfilled (Some album).
Proof.
  intros Hnet Hok Hnonblank Hlt Hgt Hparse Hclean Hextract.
  unfold parseAlbumFeed, withRetry. cbn [retryLoop].
  assert (Hattempt : exists st', parseAlbumFeedAttempt p feedUrl st = (Fulfilled album, st')).
  { unfold parseAlbumFeedAttempt.
    unfold bind at 1. unfold logLine at 1.
    unfold bind at 1. unfold tryCatch at 1.
    rewrite fetchFeed_request. unfold fetch at 1. cbn [now]. rewrite Hnet.
    rewrite Hok. cbn [negb].
    rewrite (nonblank_checks _ Hnonblank), Hlt, Hgt. cbn [negb orb].
    unfold bind at 1. unfold parseXmlChecked, tryCatch.
    unfold bind at 1. rewrite Hparse. cbn [ofResult]. unfold ret at 1.
    rewrite Hclean. unfold ret at 1.
    rewrite Hextract.
    unfold bind at 1. unfold logLines at 1.
    unfold bind at 1. cbn [ofResult]. unfold ret at 1.
    unfold bind at 1. unfold logLine at 1.
    unfold ret. eexists. reflexivity. }
  destruct Hattempt as [st' Hattempt].
  unfold tryCatch, bind. now rewrite Hattempt.
Qed.

(** Cover art resolves whenever the selector engine of the host answers,
    and also without it when the first [itunes:image] element below the
    channel carries an address. *)
Lemma extractCoverArt_resolves (x : Extractor) (channel : Node) (items : list Node) :
  (forall selector element, exists found, querySelector x selector element = inr found) ->
  exists warnings art, extractCoverArt x channel items = (warnings, inr art).
Proof.
  intros Hengine. unfold extractCoverArt.
  destruct (Hengine "itunes\:image" channel) as [found1 ->].
  destruct (Hengine "image url" channel) as [found2 ->].
  destruct (Hengine "image" channel) as [found3 ->].
  destruct (hd_error (getElementsByTagName "itunes:image" channel)) as [element | ].
  - destruct (unlessFound _ _) as [e | art2] eqn:Hstep2.
    { unfold unlessFound in Hstep2. destruct (truthy _); [discriminate Hstep2 | ].
      destruct found2; discriminate Hstep2. }
    destruct (unlessFound art2 _) as [e | art3] eqn:Hstep3.
    { unfold unlessFound in Hstep3. destruct (truthy art2); [discriminate Hstep3 | ].
      destruct found3 as [altImageElement | ]; [ | discriminate Hstep3].
      destruct (truthy (orElse _ _)); discriminate Hstep3. }
    match goal with
    | |- context [match truthy ?art5 with Some _ => _ | None => _ end] =>
        destruct (truthy art5) as [coverArt | ]
    end; [destruct (parseUrl x coverArt) as [[[protocol host] pathname] | ] | ];
      eexists; eexists; reflexivity.
  - destruct (unlessFound _ _) as [e | art2] eqn:Hstep2.
    { unfold unlessFound in Hstep2. destruct (truthy _); [discriminate Hstep2 | ].
      destruct found2; discriminate Hstep2. }
    destruct (unlessFound art2 _) as [e | art3] eqn:Hstep3.
    { unfold unlessFound in Hstep3. destruct (truthy art2); [discriminate Hstep3 | ].
      destruct found3 as [altImageElement | ]; [ | discriminate Hstep3].
      destruct (truthy (orElse _ _)); discriminate Hstep3. }
    match goal with
    | |- context [match truthy ?art5 with Some _ => _ | None => _ end] =>
        destruct (truthy art5) as [coverArt | ]
    end; [destruct (parseUrl x coverArt) as [[[protocol host] pathname] | ] | ];
      eexists; eexists; reflexivity.
Qed.

Lemma extractCoverArt_channel_image (x : Extractor) (channel : Node) (items : list Node)
      (element : Node) (href : string) :
  hd_error (getElementsByTagName "itunes:image" channel) = Some element ->
  truthy (getAttribute "href" element) = Some href ->
  exists warnings art, extractCoverArt x channel items = (warnings, inr art).
Proof.
  intros Himage Hhref. unfold extractCoverArt. rewrite Himage, Hhref.
  apply truthy_some in Hhref. destruct Hhref as [_ Hne].
  destruct href as [ | c href]; [now elim Hne | ].
  cbn [truthy orElse unlessFound].
  destruct (parseUrl x (String c href)) as [[[protocol host] pathname] | ];
    eexists; eexists; reflexivity.
Qed.

(** Without selector engine and without such an element the first call
    of [querySelector] ends the extraction. *)
Lemma extractCoverArt_throws (x : Extractor) (channel : Node) (items : list Node) (e : Exn) :
  (forall selector element, querySelector x selector element = inl e) ->
  ~ (exists element href,
        hd_error (getElementsByTagName "itunes:image" channel) = Some element
        /\ truthy (getAttribute "href" element) = Some href) ->
  extractCoverArt x channel items = ([], inl e).
Proof.
  intros Hthrows Hnone. unfold extractCoverArt.
  destruct (hd_error (getElementsByTagName "itunes:image" channel)) as [element | ].
  - destruct (truthy (getAttribute "href" element)) as [href | ] eqn:Hhref.
    + elim Hnone. now exists element, href.
    + cbn [truthy orElse unlessFound]. now rewrite Hthrows.
  - now rewrite Hthrows.
Qed.

(** An answer that passes the checks and parses, but whose extraction
    throws, makes the attempt reject with what was thrown. *)
Lemma parseAlbumFeedAttempt_throws
      (feedUrl : string) (st : TaskState) (latency : nat) (response : Response)
      (xmlDoc : Node) (lines : list LogEntry) (e : Exn) :
  network p (requestUrl p feedUrl) (now st) = (latency, HttpResponse response) ->
  ok response = true ->
  trim (body response) <> EmptyString ->
  includesChar "<" (body response) = true ->
  includesChar ">" (body response) = true ->
  parseFromString p (body response) = inr xmlDoc ->
  documentElementsByTagName "parsererror" xmlDoc = [] ->
  extractAlbum (extractor p) xmlDoc = (lines, inl e) ->
  exists st', parseAlbumFeedAttempt p feedUrl st = (Rejected e, st').
Proof.
  intros Hnet Hok Hnonblank Hlt Hgt Hparse Hclean Hextract.
  unfold parseAlbumFeedAttempt.
  unfold bind at 1. unfold logLine at 1.
  unfold bind at 1. unfold tryCatch at 1.
  rewrite fetchFeed_request. unfold fetch at 1. cbn [now]. rewrite Hnet.
  rewrite Hok. cbn [negb].
  rewrite (nonblank_checks _ Hnonblank), Hlt, Hgt. cbn [negb orb].
  unfold bind at 1. unfold parseXmlChecked, tryCatch.
  unfold bind at 1. rewrite Hparse. cbn [ofResult]. unfold ret at 1.
  rewrite Hclean. unfold ret at 1.
  rewrite Hextract.
  unfold bind at 1. unfold logLines at 1.
  unfold bind at 1. cbn [ofResult]. unfold throw.
  eexists. reflexivity.
Qed.

(** When every attempt rejects, so does the retry loop, whatever the
    callback does. *)
Lemma retryLoop_all_rejected {T : Type} (fn : Task T) (maxRetries delay : nat)
      (onRetry : option (nat -> Exn -> Task unit)) :
  (forall s, exists e s', fn s = (Rejected e, s')) ->
  forall remaining attempt lastError st,
  exists e st',
    retryLoop fn maxRetries delay onRetry remaining attempt lastError st = (Rejected e, st').
Proof.
  intros Hfails. induction remaining as [ | remaining IH]; intros attempt lastError st.
  - now exists lastError, st.
  - cbn [retryLoop]. unfold tryCatch. destruct (Hfails st) as (e & s1 & ->).
    destruct (attempt =? maxRetries); [now exists e, s1 | ].
    unfold bind at 1.
    destruct (match onRetry with
              | Some callback => callback attempt e
              | None => ret tt
              end s1) as [[[] | e'] s2]; [ | now exists e', s2].
    unfold bind at 1. unfold sleep at 1. apply IH.
Qed.

Lemma parseAlbumFeed_null (feedUrl : string) :
  (forall s, exists e s', parseAlbumFeedAttempt p feedUrl s = (Rejected e, s')) ->
  forall st, fst (parseAlbumFeed p feedUrl st) = Fulfilled None.
Proof.
  intros Hfails st. unfold parseAlbumFeed, withRetry.
  unfold tryCatch at 1. unfold bind at 1.
  match goal with
  | |- context [retryLoop ?fn ?m ?d ?cb ?r ?a ?l st] =>
      destruct (retryLoop_all_rejected fn m d cb Hfails r a l st) as (e & st' & ->)
  end.
  reflexivity.
Qed.

End EndToEnd.

(** C7 (track numbering, end to end).  Take a feed address that answers
    with a text that passes the checks and parses to a document with a
    channel.  On a host whose elements have [querySelector], and on any
    host when the first [itunes:image] element below the channel carries
    an address, [parseAlbumFeed] gives an album with one track per [item]
    element of the document, in document order: the track numbers are 1,
    2, ... (1, 2, 3 for three items), and the track at (0-based) position
    [i] carries number [i + 1] and the title of the item at that position,
    or ["Track N"] with [N = i + 1] when that item has no title.  On a
    host whose elements have no [querySelector] (the server, with the
    parser chosen at lines 497-499) and for a channel without such an
    image element, every attempt throws in the cover-art lookup and
    [parseAlbumFeed] gives [null], however many items the feed has. *)
Theorem tracks_numbered_in_document_order
        (p : Platform) (feedUrl : string) (latency : nat)
        (response : Response) (xmlDoc channel : Node) (others : list Node) :
  (forall time,
      network p (requestUrl p feedUrl) time = (latency, HttpResponse response)) ->
  ok response = true ->
  trim (body response) <> EmptyString ->
  includesChar "<" (body response) = true ->
  includesChar ">" (body response) = true ->
  parseFromString p (body response) = inr xmlDoc ->
  documentElementsByTagName "parsererror" xmlDoc = [] ->
  documentElementsByTagName "channel" xmlDoc = channel :: others ->
  let items := documentElementsByTagName "item" xmlDoc in
  let channelImage :=
    exists element href,
      hd_error (getElementsByTagName "itunes:image" channel) = Some element
      /\ truthy (getAttribute "href" element) = Some href in
  ((forall selector element,
       exists found, querySelector (extractor p) selector element = inr found)
   \/ channelImage ->
   forall st,
   exists album,
     fst (parseAlbumFeed p feedUrl st) = Fulfilled (Some album)
     /\ List.length (tracks album) = List.length items
     /\ List.map trackNumber (tracks album) = List.map Some (seq 1 (List.length items))
     /\ (List.length items = 3 ->
         List.map trackNumber (tracks album) = [Some 1; Some 2; Some 3])
     /\ (forall i item,
            nth_error items i = Some item ->
            exists track,
              nth_error (tracks album) i = Some track
              /\ trackNumber track = Some (i + 1)
              /\ trackTitle track
                 = orDefault (firstText "title" item) ("Track " ++ ofNat (i + 1))
              /\ (getElementsByTagName "title" item = [] ->
                  trackTitle track = ("Track " ++ ofNat (i + 1))%string)))
  /\ (forall e,
         (forall selector element, querySelector (extractor p) selector element = inl e) ->
         ~ channelImage ->
         forall st, fst (parseAlbumFeed p feedUrl st) = Fulfilled None).
Proof.
  intros Hnet Hok Hnonblank Hlt Hgt Hparse Hclean Hchannel items channelImage.
  split.
  - intros Hresolves st.
    assert (Hart : exists warnings art,
               extractCoverArt (extractor p) channel items = (warnings, inr art)).
    { destruct Hresolves as [Hengine | (element & href & Himage & Hhref)].
      - now apply extractCoverArt_resolves.
      - now apply (extractCoverArt_channel_image _ _ _ element href). }
    destruct Hart as (warnings & art & Hfound).
    destruct (buildAlbum (extractor p) channel items art) as [lines album] eqn:Hbuild.
    assert (Hextract : extractAlbum (extractor p) xmlDoc = (warnings ++ lines, inr album)).
    { unfold extractAlbum. rewrite Hchannel. fold items. now rewrite Hfound, Hbuild. }
    exists album.
    split; [exact (parseAlbumFeed_first_attempt p feedUrl st latency response xmlDoc
                     (warnings ++ lines) album
                     (Hnet (now st)) Hok Hnonblank Hlt Hgt Hparse Hclean Hextract) | ].
    assert (Htracks : tracks album = List.map fst (extractTracksFrom 0 items)).
    { rewrite <- (buildAlbum_tracks (extractor p) channel items art). now rewrite Hbuild. }
    assert (Hnumbers :
              List.map trackNumber (tracks album)
              = List.map Some (seq 1 (List.length items))).
    { rewrite Htracks, map_map. apply (extractTracksFrom_numbers items 0). }
    repeat split.
    + now rewrite Htracks, length_map, extractTracksFrom_length.
    + exact Hnumbers.
    + intros Hthree. now rewrite Hnumbers, Hthree.
    + intros i item Hitem.
      exists (fst (extractTrack i item)).
      rewrite Htracks, nth_error_map, extractTracksFrom_nth, Hitem. simpl.
      rewrite extractTrack_number, extractTrack_title.
      repeat split.
      intros Habsent. now rewrite (firstText_absent _ _ Habsent).
  - intros e Hthrows Hnone. apply parseAlbumFeed_null. intros s.
    assert (Hextract : extractAlbum (extractor p) xmlDoc = ([], inl e)).
    { unfold extractAlbum. rewrite Hchannel.
      now rewrite (extractCoverArt_throws _ _ _ e Hthrows Hnone). }
    destruct (parseAlbumFeedAttempt_throws p feedUrl s latency response xmlDoc [] e
                (Hnet (now s)) Hok Hnonblank Hlt Hgt Hparse Hclean Hextract)
      as [s' Hrun].
    now exists e, s'.
Qed.

Lemma tracks_numbered_in_document_order_witness :
  (exists album,
      fst (parseAlbumFeed browserHost "https://feeds.example/three.xml" initialState)
      = Fulfilled (Some album)
      /\ List.map trackNumber (tracks album) = [Some 1; Some 2; Some 3]
      /\ List.map trackTitle (tracks album) = ["Intro"; "Track 2"; "Finale"])
  /\ fst (parseAlbumFeed serverHost "https://feeds.example/three.xml" initialState)
     = Fulfilled None.
Proof.
  set (response := {| ok := true; status := 200; statusText := "OK"; body := "<three/>" |}).
  set (channel := el "channel"
                    [ leaf "title" "Band - Live";
                      el "item" [ leaf "title" "Intro"; leaf "itunes:duration" "125" ];
                      el "item" [ leaf "itunes:duration" "abc" ];
                      el "item" [ leaf "title" " Finale "; leaf "duration" "1:02:03" ] ]).
  split.
  - destruct (proj1 (tracks_numbered_in_document_order
                       browserHost "https://feeds.example/three.xml" 40
                       response threeItemFeed channel []
                       (fun _ => eq_refl) eq_refl ltac:(discriminate)
                       eq_refl eq_refl eq_refl eq_refl eq_refl)
                (or_introl (fun _ _ => ex_intro _ None eq_refl)) initialState)
      as (album & Hrun & _ & _ & Hthree & _).
    exists album. split; [exact Hrun | ]. split; [exact (Hthree eq_refl) | ].
    vm_compute in Hrun. injection Hrun as <-. reflexivity.
  - apply (proj2 (tracks_numbered_in_document_order
                    serverHost "https://feeds.example/three.xml" 40
                    response threeItemFeed channel []
                    (fun _ => eq_refl) eq_refl ltac:(discriminate)
                    eq_refl eq_refl eq_refl eq_refl eq_refl)
             (TypeError "channel.querySelector is not a function")).
    + intros selector element. reflexivity.
    + intros (element & href & Himage & _). discriminate Himage.
Defined.

(* ===================================================================== *)
(** * Further properties *)
(* ===================================================================== *)

(** ** Numbers and their decimal notation *)

Lemma digitsFrom_string_of_uint (d : Decimal.uint) :
  forall a : N,
    digitsFrom 10 (Some a) (NilEmpty.string_of_uint d)
    = Some (DecimalPos.Unsigned.of_lu (Decimal.rev d)
            + a * 10 ^ DecimalPos.Unsigned.usize d)%N.
Proof.
  induction d; intros a;
    [ cbn; f_equal; lia
    | cbn [NilEmpty.string_of_uint digitsFrom];
      match goal with
      | |- context [digitValue 10 ?c] =>
          let v := eval vm_compute in (digitValue 10 c) in
          change (digitValue 10 c) with v
      end;
      cbv iota beta;
      unfold Decimal.rev at 1; cbn [Decimal.revapp];
      rewrite (DecimalPos.Unsigned.of_lu_revapp d);
      rewrite IHd;
      cbn [DecimalPos.Unsigned.usize DecimalPos.Unsigned.of_lu];
      rewrite N.pow_succ_r';
      f_equal; lia .. ].
Qed.

Lemma digitsFrom_decimal (d : Decimal.uint) :
  d <> Decimal.Nil ->
  digitsFrom 10 None (NilEmpty.string_of_uint d) = Some (N.of_uint d).
Proof.
  intros Hd. unfold N.of_uint. rewrite DecimalPos.Unsigned.of_uint_alt.
  destruct d; [ congruence | .. ];
    cbn [NilEmpty.string_of_uint digitsFrom];
    match goal with
    | |- context [digitValue 10 ?c] =>
        let v := eval vm_compute in (digitValue 10 c) in
        change (digitValue 10 c) with v
    end;
    cbv iota beta;
    rewrite digitsFrom_string_of_uint;
    unfold Decimal.rev at 2; cbn [Decimal.revapp];
    rewrite (DecimalPos.Unsigned.of_lu_revapp d);
    cbn [DecimalPos.Unsigned.usize DecimalPos.Unsigned.of_lu];
    f_equal; lia.
Qed.

Lemma digitsFrom_ofN (n : N) :
  digitsFrom 10 None (ofN n) = Some n
  /\ digitsFrom 10 (Some 0%N) (ofN n) = Some n.
Proof.
  unfold ofN. rewrite <- (DecimalN.Unsigned.of_to n) at 2 4.
  destruct (N.to_uint n) as [ | d | d | d | d | d | d | d | d | d | d] eqn:Hd.
  1: split; reflexivity.
  all: cbn [NilZero.string_of_uint]; split;
    [ apply digitsFrom_decimal; discriminate
    | rewrite digitsFrom_string_of_uint; unfold N.of_uint;
      rewrite DecimalPos.Unsigned.of_uint_alt; f_equal; lia ].
Qed.

Lemma digitsFrom_zeros (k : nat) (s : string) :
  digitsFrom 10 (Some 0%N) (zeros k ++ s) = digitsFrom 10 (Some 0%N) s.
Proof. induction k as [ | k IH]; [reflexivity | exact IH]. Qed.

Lemma digitsFrom_padded (k : nat) (n : N) :
  digitsFrom 10 None (zeros k ++ ofN n) = Some n.
Proof.
  destruct k as [ | k]; [apply digitsFrom_ofN | ].
  cbn [zeros append digitsFrom].
  change (digitValue 10 "0") with (Some 0%N). cbv iota beta.
  rewrite digitsFrom_zeros. apply digitsFrom_ofN.
Qed.

Lemma digit_not_space (c : ascii) : isDigit c = true -> isWhiteSpace c = false.
Proof.
  destruct c as [[] [] [] [] [] [] [] []]; intros H; try reflexivity; discriminate H.
Qed.

Lemma trimEnd_digits (s : string) :
  JsString.forallb isDigit s = true -> trimEnd s = s.
Proof.
  induction s as [ | c s IH]; [reflexivity | ].
  cbn [JsString.forallb]. intros H. apply andb_true_iff in H. destruct H as [Hc Hs].
  rewrite (trimEnd_cons c s (digit_not_space c Hc)). now rewrite IH.
Qed.

Lemma trim_digits (s : string) :
  JsString.forallb isDigit s = true -> trim s = s.
Proof.
  intros H. unfold trim. destruct s as [ | c s]; [reflexivity | ].
  cbn [JsString.forallb] in H. pose proof H as H'.
  apply andb_true_iff in H'. destruct H' as [Hc _].
  rewrite (trimStart_cons c s (digit_not_space c Hc)).
  now apply trimEnd_digits.
Qed.

Lemma forallb_append (f : ascii -> bool) (a b : string) :
  JsString.forallb f (a ++ b) = JsString.forallb f a && JsString.forallb f b.
Proof.
  induction a as [ | c a IH]; [reflexivity | ].
  cbn [append JsString.forallb]. now rewrite IH, andb_assoc.
Qed.

Lemma zeros_digits (k : nat) : JsString.forallb isDigit (zeros k) = true.
Proof. induction k as [ | k IH]; [reflexivity | exact IH]. Qed.

Lemma ofN_all_digits (n : N) : JsString.forallb isDigit (ofN n) = true.
Proof.
  pose proof (ofN_digits n) as H. unfold allDigits in H.
  now apply andb_true_iff in H.
Qed.

Lemma ofN_nonempty (n : N) : isEmpty (ofN n) = false.
Proof.
  pose proof (ofN_digits n) as H. unfold allDigits in H.
  apply andb_true_iff in H. destruct H as [H _]. now destruct (isEmpty (ofN n)).
Qed.

(** [parseInt] on a text of decimal digits reads all of it in radix 10. *)
Lemma parseInt_digits (s : string) :
  JsString.forallb isDigit s = true ->
  parseInt s = option_map Z.of_N (digitsFrom 10 None s).
Proof.
  intros H. destruct s as [ | c s]; [reflexivity | ].
  cbn [JsString.forallb] in H. apply andb_true_iff in H. destruct H as [Hc Hs].
  unfold parseInt. rewrite (trimStart_cons c s (digit_not_space c Hc)).
  assert (Hsign : (match String c s with
                   | String "-" rest => (true, rest)
                   | String "+" rest => (false, rest)
                   | _ => (false, String c s)
                   end) = (false, String c s)).
  { destruct c as [[] [] [] [] [] [] [] []]; try reflexivity; discriminate Hc. }
  rewrite Hsign.
  assert (Hhex : stripHexPrefix (String c s) = None).
  { destruct s as [ | d s]; [ destruct c as [[] [] [] [] [] [] [] []]; reflexivity | ].
    cbn [JsString.forallb] in Hs. apply andb_true_iff in Hs. destruct Hs as [Hd _].
    destruct d as [[] [] [] [] [] [] [] []]; try discriminate Hd;
      destruct c as [[] [] [] [] [] [] [] []]; reflexivity. }
  rewrite Hhex. now destruct (digitsFrom 10 None (String c s)).
Qed.

(** Round trip: the decimal notation of a number, with any number of
    zeros in front, is read back as that number. *)
Lemma parseInt_padded (k : nat) (n : N) :
  parseInt (zeros k ++ ofN n) = Some (Z.of_N n).
Proof.
  rewrite parseInt_digits
    by (rewrite forallb_append, zeros_digits, ofN_all_digits; reflexivity).
  now rewrite digitsFrom_padded.
Qed.

Lemma parseInt_ofN (n : N) : parseInt (ofN n) = Some (Z.of_N n).
Proof. exact (parseInt_padded 0 n). Qed.

(** ** Durations, format by format *)

Section DurationFormats.

Lemma append_nonempty (a b : string) : isEmpty b = false -> isEmpty (a ++ b) = false.
Proof. intros Hb. destruct a; [exact Hb | reflexivity]. Qed.

Lemma decimal_digits (k : nat) (n : N) :
  JsString.forallb isDigit (decimal k n) = true.
Proof. unfold decimal. now rewrite forallb_append, zeros_digits, ofN_all_digits. Qed.

Lemma decimal_nonempty (k : nat) (n : N) : isEmpty (decimal k n) = false.
Proof. apply append_nonempty, ofN_nonempty. Qed.

Lemma parseInt_decimal (k : nat) (n : N) : parseInt (decimal k n) = Some (Z.of_N n).
Proof. apply parseInt_padded. Qed.

Lemma minSec_of_N (mins secs : N) :
  minSec (Z.of_N mins) (Z.of_N secs)
  = (ofN mins ++ ":" ++ padStart0 2 (ofN secs))%string.
Proof. unfold minSec. now rewrite !N2Z.id. Qed.

Lemma digits_noWhiteSpace (s : string) :
  JsString.forallb isDigit s = true -> noWhiteSpace s = true.
Proof.
  unfold noWhiteSpace. induction s as [ | c s IH]; [reflexivity | ].
  cbn [JsString.forallb]. intros H. apply andb_true_iff in H. destruct H as [Hc Hs].
  now rewrite (digit_not_space c Hc), IH.
Qed.

Lemma noWhiteSpace_append (a b : string) :
  noWhiteSpace (a ++ b) = noWhiteSpace a && noWhiteSpace b.
Proof. apply forallb_append. Qed.

Lemma trimEnd_noWhiteSpace (s : string) : noWhiteSpace s = true -> trimEnd s = s.
Proof.
  unfold noWhiteSpace. induction s as [ | c s IH]; [reflexivity | ].
  cbn [JsString.forallb]. intros H. apply andb_true_iff in H. destruct H as [Hc Hs].
  apply negb_true_iff in Hc. rewrite (trimEnd_cons c s Hc). now rewrite IH.
Qed.

Lemma trim_noWhiteSpace (s : string) : noWhiteSpace s = true -> trim s = s.
Proof.
  intros H. unfold trim. destruct s as [ | c s]; [reflexivity | ].
  pose proof H as H'. unfold noWhiteSpace in H'. cbn [JsString.forallb] in H'.
  apply andb_true_iff in H'. destruct H' as [Hc _]. apply negb_true_iff in Hc.
  rewrite (trimStart_cons c s Hc). now apply trimEnd_noWhiteSpace.
Qed.

(** How [normalizeDuration] reads a text made of fields of digits with
    colons between them. *)
Lemma colon_fields (a rest : string) :
  JsString.forallb isDigit a = true ->
  noWhiteSpace rest = true ->
  let text := (a ++ String ":" rest)%string in
  isEmpty text = false
  /\ trim text = text
  /\ allDigits text = false
  /\ includesChar ":" text = true
  /\ splitChar ":" text = a :: splitChar ":" rest.
Proof.
  intros Ha Hrest text. subst text. repeat split.
  - now apply append_nonempty.
  - apply trim_noWhiteSpace. rewrite noWhiteSpace_append, (digits_noWhiteSpace a Ha).
    exact Hrest.
  - unfold allDigits. rewrite forallb_append. cbn [JsString.forallb].
    change (isDigit ":") with false. now rewrite andb_false_r, andb_false_r.
  - rewrite includesChar_append. cbn [includesChar]. rewrite Ascii.eqb_refl.
    now rewrite orb_true_r.
  - now apply splitChar_digits.
Qed.

Lemma last_field (a : string) :
  JsString.forallb isDigit a = true -> splitChar ":" a = [a].
Proof. intros Ha. now apply splitChar_absent, digits_no_colon. Qed.

(** Two fields of digits, the second below 60. *)
Lemma normalizeDuration_two_fields
      (a b : nat) (mins secs : N) (trackTitle : option string) :
  (secs < 60)%N ->
  normalizeDuration (decimal a mins ++ ":" ++ decimal b secs) trackTitle
  = ((ofN mins ++ ":" ++ padStart0 2 (ofN secs))%string, []).
Proof.
  intros Hsecs.
  destruct (colon_fields (decimal a mins) (decimal b secs) (decimal_digits a mins)
              (digits_noWhiteSpace _ (decimal_digits b secs)))
    as (Hne & Htrim & Hall & Hcolon & Hsplit).
  cbn [append]. unfold normalizeDuration. cbv zeta.
  rewrite Htrim, Hne, Hall, Hcolon, Hsplit, (last_field _ (decimal_digits b secs)).
  cbn [orb]. rewrite !parseInt_decimal.
  destruct (Z.leb_spec 0 (Z.of_N mins)); [ | lia].
  destruct (Z.leb_spec 0 (Z.of_N secs)); [ | lia].
  destruct (Z.ltb_spec (Z.of_N secs) 60); [ | lia].
  cbn [andb]. now rewrite minSec_of_N.
Qed.

(** The text [M:SS] made by [normalizeDuration] is left as it is. *)
Lemma normalizeDuration_canonical (mins secs : N) (trackTitle : option string) :
  (secs < 60)%N ->
  normalizeDuration (ofN mins ++ ":" ++ padStart0 2 (ofN secs)) trackTitle
  = ((ofN mins ++ ":" ++ padStart0 2 (ofN secs))%string, []).
Proof.
  intros Hsecs.
  exact (normalizeDuration_two_fields 0 (2 - String.length (ofN secs)) mins secs
           trackTitle Hsecs).
Qed.

(** The three ways out of [normalizeDuration]. *)
Lemma normalizeDuration_shape (duration : string) (trackTitle : option string) :
  fst (normalizeDuration duration trackTitle) = "0:00"
  \/ (exists mins secs,
         (secs < 60)%N
         /\ fst (normalizeDuration duration trackTitle)
            = (ofN mins ++ ":" ++ padStart0 2 (ofN secs))%string)
  \/ (isEmpty (trim duration) = false
      /\ fst (normalizeDuration duration trackTitle) = trim duration).
Proof.
  assert (Hcanonical : forall mins secs : Z,
             (0 <= secs < 60)%Z ->
             exists m s, (s < 60)%N
                         /\ minSec mins secs = (ofN m ++ ":" ++ padStart0 2 (ofN s))%string).
  { intros mins secs Hsecs. exists (Z.to_N mins), (Z.to_N secs). split; [lia | reflexivity]. }
  unfold normalizeDuration. cbv zeta.
  destruct (isEmpty duration || isEmpty (trim duration)) eqn:Hempty; [now left | ].
  apply orb_false_iff in Hempty. destruct Hempty as [_ Hempty]. rewrite Hempty.
  right.
  destruct (allDigits (trim duration)).
  - destruct (parseInt (trim duration)) as [seconds | ]; [ | now right].
    destruct (Z.ltb_spec 0 seconds); [ | now right].
    left. apply Hcanonical.
    pose proof (Z.rem_bound_pos seconds 60). lia.
  - destruct (includesChar ":" (trim duration)); [ | now right].
    destruct (splitChar ":" (trim duration)) as [ | p0 [ | p1 [ | p2 [ | ? ?]]]];
      try (now right).
    + destruct (parseInt p0) as [mins | ]; [ | now right].
      destruct (parseInt p1) as [secs | ]; [ | now right].
      destruct ((0 <=? mins)%Z && (0 <=? secs)%Z && (secs <? 60)%Z) eqn:Hvalid;
        [ | now right].
      left. apply Hcanonical.
      repeat (apply andb_true_iff in Hvalid; destruct Hvalid as [Hvalid ?]). lia.
    + destruct (parseInt p0) as [hours | ]; [ | now right].
      destruct (parseInt p1) as [mins | ]; [ | now right].
      destruct (parseInt p2) as [secs | ]; [ | now right].
      destruct ((0 <=? hours)%Z && (0 <=? mins)%Z && (mins <? 60)%Z
                && (0 <=? secs)%Z && (secs <? 60)%Z) eqn:Hvalid; [ | now right].
      left. apply Hcanonical.
      repeat (apply andb_true_iff in Hvalid; destruct Hvalid as [Hvalid ?]). lia.
Qed.

(** The result depends on the text only through its trimmed form, and
    not on the track title. *)
Lemma normalizeDuration_trimmed (duration : string) (t t' : option string) :
  isEmpty (trim duration) = false ->
  fst (normalizeDuration (trim duration) t') = fst (normalizeDuration duration t).
Proof.
  intros Hne.
  assert (Hd : isEmpty duration = false) by (destruct duration; [discriminate Hne | reflexivity]).
  unfold normalizeDuration. cbv zeta.
  rewrite trim_idempotent, Hne, Hd. cbn [orb].
  destruct (allDigits (trim duration)).
  - destruct (parseInt (trim duration)) as [seconds | ]; [ | reflexivity].
    now destruct (0 <? seconds)%Z.
  - destruct (includesChar ":" (trim duration)); [ | reflexivity].
    destruct (splitChar ":" (trim duration)) as [ | p0 [ | p1 [ | p2 [ | ? ?]]]];
      try reflexivity.
    destruct (parseInt p0) as [hours | ]; [ | reflexivity].
    destruct (parseInt p1) as [mins | ]; [ | reflexivity].
    destruct (parseInt p2) as [secs | ]; [ | reflexivity].
    now destruct ((0 <=? hours)%Z && (0 <=? mins)%Z && (mins <? 60)%Z
                    && (0 <=? secs)%Z && (secs <? 60)%Z).
Qed.

Lemma normalizeDuration_nonempty (duration : string) (trackTitle : option string) :
  fst (normalizeDuration duration trackTitle) <> EmptyString.
Proof.
  destruct (normalizeDuration_shape duration trackTitle)
    as [Hzero | [(mins & secs & Hsecs & Hcanonical) | [Hne Hsame]]].
  - rewrite Hzero. discriminate.
  - rewrite Hcanonical. intros Hempty.
    pose proof (append_nonempty (ofN mins) (":" ++ padStart0 2 (ofN secs)) eq_refl) as Hne.
    rewrite Hempty in Hne. discriminate Hne.
  - rewrite Hsame. intros Hempty. rewrite Hempty in Hne. discriminate Hne.
Qed.

End DurationFormats.

(** X1 (durations given in seconds).  A duration text that is a positive
    number of seconds in decimal notation, with any number of zeros in
    front, becomes [M:SS] with [M] the whole minutes and [SS] the
    remaining seconds on two digits; nothing is written to the console.
    (Stated for numbers below 2^53, which the source reads exactly.) *)
Theorem normalizeDuration_seconds (k : nat) (n : N) (trackTitle : option string) :
  (0 < n < 2 ^ 53)%N ->
  normalizeDuration (decimal k n) trackTitle
  = ((ofN (n / 60) ++ ":" ++ padStart0 2 (ofN (n mod 60)))%string, []).
Proof.
  intros [Hpos _]. unfold normalizeDuration. cbv zeta.
  rewrite (trim_digits _ (decimal_digits k n)), (decimal_nonempty k n).
  cbn [orb]. unfold allDigits.
  rewrite (decimal_nonempty k n), (decimal_digits k n). cbn [negb andb].
  rewrite parseInt_decimal.
  destruct (Z.ltb_spec 0 (Z.of_N n)) as [_ | Hle]; [ | lia].
  change 60%Z with (Z.of_N 60).
  rewrite <- N2Z.inj_div, <- N2Z.inj_rem.
  now rewrite minSec_of_N.
Qed.

Lemma normalizeDuration_seconds_witness :
  normalizeDuration "0125" (Some "Intro") = ("2:05", []).
Proof.
  exact (normalizeDuration_seconds 1 125 (Some "Intro") (conj eq_refl eq_refl)).
Defined.

(** X2 (durations given as minutes and seconds).  A text [M:S] of two
    decimal numbers, each with any number of zeros in front and with the
    seconds below 60, becomes the minutes without leading zeros, a colon
    and the seconds on two digits; the minutes are not limited to 59.
    Nothing is written to the console. *)
Theorem normalizeDuration_minutes_seconds
        (a b : nat) (mins secs : N) (trackTitle : option string) :
  (mins < 2 ^ 53)%N -> (secs < 60)%N ->
  normalizeDuration (decimal a mins ++ ":" ++ decimal b secs) trackTitle
  = ((ofN mins ++ ":" ++ padStart0 2 (ofN secs))%string, []).
Proof.
  intros _ Hsecs. now apply normalizeDuration_two_fields.
Qed.

Lemma normalizeDuration_minutes_seconds_witness :
  normalizeDuration "075:5" None = ("75:05", []).
Proof.
  exact (normalizeDuration_minutes_seconds 1 0 75 5 None eq_refl eq_refl).
Defined.

(** X3 (durations given as hours, minutes and seconds).  A text [H:M:S]
    of three decimal numbers, each with any number of zeros in front and
    with minutes and seconds below 60, becomes [(60 H + M):SS]: the hours
    are folded into the minutes.  One line is written to the console
    exactly when a non-empty track title is given and the hours are not
    zero. *)
Theorem normalizeDuration_hours_minutes_seconds
        (a b c : nat) (hours mins secs : N) (trackTitle : option string) :
  (hours * 60 + mins < 2 ^ 53)%N -> (mins < 60)%N -> (secs < 60)%N ->
  let text := (decimal a hours ++ ":" ++ decimal b mins ++ ":" ++ decimal c secs)%string in
  let result := (ofN (hours * 60 + mins) ++ ":" ++ padStart0 2 (ofN secs))%string in
  normalizeDuration text trackTitle
  = (result,
     match trackTitle with
     | Some (String _ _ as t) =>
         if (0 <? hours)%N then [ConvertedDuration text result t] else []
     | _ => []
     end).
Proof.
  intros _ Hmins Hsecs text result. subst text result.
  pose proof (colon_fields (decimal b mins) (decimal c secs) (decimal_digits b mins)
                (digits_noWhiteSpace _ (decimal_digits c secs)))
    as (_ & Htrim2 & _ & _ & Hsplit2).
  cbn [append] in Htrim2, Hsplit2.
  assert (Hrest : noWhiteSpace (decimal b mins ++ String ":" (decimal c secs)) = true).
  { rewrite noWhiteSpace_append, (digits_noWhiteSpace _ (decimal_digits b mins)).
    cbn. apply (digits_noWhiteSpace _ (decimal_digits c secs)). }
  destruct (colon_fields (decimal a hours) _ (decimal_digits a hours) Hrest)
    as (Hne & Htrim & Hall & Hcolon & Hsplit).
  cbn [append]. unfold normalizeDuration. cbv zeta.
  rewrite Htrim, Hne, Hall, Hcolon, Hsplit, Hsplit2, (last_field _ (decimal_digits c secs)).
  cbn [orb]. rewrite !parseInt_decimal.
  destruct (Z.leb_spec 0 (Z.of_N hours)); [ | lia].
  destruct (Z.leb_spec 0 (Z.of_N mins)); [ | lia].
  destruct (Z.ltb_spec (Z.of_N mins) 60); [ | lia].
  destruct (Z.leb_spec 0 (Z.of_N secs)); [ | lia].
  destruct (Z.ltb_spec (Z.of_N secs) 60); [ | lia].
  cbn [andb].
  change 60%Z with (Z.of_N 60).
  rewrite <- N2Z.inj_mul, <- N2Z.inj_add, minSec_of_N.
  f_equal. destruct trackTitle as [[ | ch t] | ]; try reflexivity.
  cbn [isEmpty negb andb].
  destruct (N.ltb_spec 0 hours), (Z.ltb_spec 0 (Z.of_N hours)); try lia; reflexivity.
Qed.

Lemma normalizeDuration_hours_minutes_seconds_witness :
  normalizeDuration "1:02:03" (Some "Finale")
  = ("62:03", [ConvertedDuration "1:02:03" "62:03" "Finale"]).
Proof.
  exact (normalizeDuration_hours_minutes_seconds 0 1 1 1 2 3 (Some "Finale")
           eq_refl eq_refl eq_refl).
Defined.

(** X4 (normalising twice).  [normalizeDuration] is idempotent: applied
    to its own result it gives that result again, whatever the track
    titles.  (Stated for duration texts of at most 15 characters, for
    which the integers read from them stay below 2^53.) *)
Theorem normalizeDuration_idempotent (duration : string) (t t' : option string) :
  String.length duration <= 15 ->
  fst (normalizeDuration (fst (normalizeDuration duration t)) t')
  = fst (normalizeDuration duration t).
Proof.
  intros _.
  destruct (normalizeDuration_shape duration t)
    as [Hzero | [(mins & secs & Hsecs & Hcanonical) | [Hne Hsame]]].
  - rewrite Hzero.
    exact (f_equal fst (normalizeDuration_canonical 0 0 t' eq_refl)).
  - rewrite Hcanonical. now rewrite (normalizeDuration_canonical mins secs t' Hsecs).
  - rewrite Hsame at 1. rewrite (normalizeDuration_trimmed duration t t' Hne).
    reflexivity.
Qed.

Lemma normalizeDuration_idempotent_witness :
  fst (normalizeDuration (fst (normalizeDuration " 1:02:03 " (Some "Finale"))) None)
  = fst (normalizeDuration " 1:02:03 " (Some "Finale")).
Proof.
  apply (normalizeDuration_idempotent " 1:02:03 " (Some "Finale") None).
  vm_compute. lia.
Defined.

(** X5 (shape of a normalised duration).  The text [normalizeDuration]
    returns is never empty and carries no white space at its ends. *)
Theorem normalizeDuration_nonempty_trimmed (duration : string) (trackTitle : option string) :
  fst (normalizeDuration duration trackTitle) <> EmptyString
  /\ trim (fst (normalizeDuration duration trackTitle))
     = fst (normalizeDuration duration trackTitle).
Proof.
  split; [apply normalizeDuration_nonempty | ].
  destruct (normalizeDuration_shape duration trackTitle)
    as [Hzero | [(mins & secs & Hsecs & Hcanonical) | [Hne Hsame]]].
  - now rewrite Hzero.
  - rewrite Hcanonical.
    destruct (colon_fields (decimal 0 mins) (decimal (2 - String.length (ofN secs)) secs)
                (decimal_digits 0 mins)
                (digits_noWhiteSpace _ (decimal_digits _ secs)))
      as (_ & Htrim & _).
    exact Htrim.
  - rewrite Hsame. apply trim_idempotent.
Qed.

(** ** Text cleaning on text without entities *)

Section CleaningFacts.

Lemma indexOfChar_absent (c : ascii) (s : string) :
  includesChar c s = false -> indexOfChar c s = None.
Proof.
  induction s as [ | d s IH]; [reflexivity | ].
  cbn [includesChar indexOfChar]. intros H.
  apply orb_false_iff in H. destruct H as [Hcd Hs]. now rewrite Hcd, (IH Hs).
Qed.

(** Stripping tags brings in no character. *)
Lemma stripTagsFrom_excludes (c : ascii) (s : string) :
  includesChar c s = false ->
  forall skip, includesChar c (stripTagsFrom skip s) = false.
Proof.
  induction s as [ | d s IH]; intros Habs skip; [reflexivity | ].
  cbn [includesChar] in Habs. apply orb_false_iff in Habs. destruct Habs as [Hcd Hs].
  cbn [stripTagsFrom]. destruct skip as [ | k]; [ | now apply IH].
  destruct (Ascii.eqb d "<").
  - destruct (indexOfChar ">" s); [now apply IH | ].
    cbn [includesChar]. now rewrite Hcd, (IH Hs 0).
  - cbn [includesChar]. now rewrite Hcd, (IH Hs 0).
Qed.

Lemma stripTagsFrom_no_tag (s : string) :
  forall skip, hasTag (stripTagsFrom skip s) = false.
Proof.
  induction s as [ | d s IH]; intros skip; [reflexivity | ].
  cbn [stripTagsFrom]. destruct skip as [ | k]; [ | apply IH].
  destruct (Ascii.eqb d "<") eqn:Hd.
  - destruct (indexOfChar ">" s) as [k | ] eqn:Hindex; [apply IH | ].
    cbn [hasTag]. rewrite Hd, (IH 0), orb_false_r. cbn [andb].
    apply stripTagsFrom_excludes.
    destruct (includesChar ">" s) eqn:Hin; [ | reflexivity].
    clear IH Hd. induction s as [ | e s IHs]; [discriminate Hin | ].
    cbn [includesChar indexOfChar] in *.
    destruct (Ascii.eqb ">" e); [discriminate Hindex | ].
    cbn [orb] in Hin. destruct (indexOfChar ">" s); [discriminate Hindex | ].
    now apply IHs.
  - cbn [hasTag]. now rewrite Hd, (IH 0).
Qed.

Lemma stripTags_without_tag (s : string) :
  hasTag s = false -> stripTagsFrom 0 s = s.
Proof.
  induction s as [ | d s IH]; [reflexivity | ].
  cbn [hasTag]. intros H. apply orb_false_iff in H. destruct H as [Hhead Hs].
  cbn [stripTagsFrom]. rewrite (IH Hs).
  destruct (Ascii.eqb d "<"); [ | reflexivity].
  cbn [andb] in Hhead. now rewrite (indexOfChar_absent _ _ Hhead).
Qed.

Lemma trimStart_excludes (c : ascii) (s : string) :
  includesChar c s = false -> includesChar c (trimStart s) = false.
Proof.
  induction s as [ | d s IH]; [reflexivity | ]. intros H.
  cbn [trimStart]. destruct (isWhiteSpace d); [ | exact H].
  cbn [includesChar] in H. apply orb_false_iff in H. now apply IH.
Qed.

Lemma trimEnd_excludes (c : ascii) (s : string) :
  includesChar c s = false -> includesChar c (trimEnd s) = false.
Proof.
  induction s as [ | d s IH]; [reflexivity | ]. intros H.
  cbn [includesChar] in H. apply orb_false_iff in H. destruct H as [Hcd Hs].
  specialize (IH Hs). cbn [trimEnd].
  destruct (trimEnd s) as [ | e kept].
  - destruct (isWhiteSpace d); [reflexivity | ].
    cbn [includesChar]. now rewrite Hcd.
  - cbn [includesChar] in *. now rewrite Hcd, IH.
Qed.

Lemma trim_excludes (c : ascii) (s : string) :
  includesChar c s = false -> includesChar c (trim s) = false.
Proof. intros H. now apply trimEnd_excludes, trimStart_excludes. Qed.

Lemma trimStart_no_tag (s : string) : hasTag s = false -> hasTag (trimStart s) = false.
Proof.
  induction s as [ | d s IH]; [reflexivity | ]. intros H.
  cbn [trimStart]. destruct (isWhiteSpace d); [ | exact H].
  cbn [hasTag] in H. apply orb_false_iff in H. now apply IH.
Qed.

Lemma trimEnd_no_tag (s : string) : hasTag s = false -> hasTag (trimEnd s) = false.
Proof.
  induction s as [ | d s IH]; [reflexivity | ]. intros H.
  cbn [hasTag] in H. apply orb_false_iff in H. destruct H as [Hhead Hs].
  specialize (IH Hs). cbn [trimEnd].
  assert (Hkept : (Ascii.eqb d "<" && includesChar ">" (trimEnd s)) = false).
  { destruct (Ascii.eqb d "<"); [ | reflexivity].
    cbn [andb] in *. now apply trimEnd_excludes. }
  destruct (trimEnd s) as [ | e kept].
  - destruct (isWhiteSpace d); [reflexivity | ].
    cbn [hasTag includesChar]. now rewrite andb_false_r.
  - cbn [hasTag] in *. now rewrite Hkept, IH.
Qed.

(** What [cleanHtmlContent] makes of a text without ampersand. *)
Lemma cleanHtmlContent_without_entities (c : ascii) (s : string) :
  includesChar "&" (String c s) = false ->
  cleanHtmlContent (JsStr (String c s)) = Some (trim (stripTags (String c s)))
  /\ includesChar "&" (trim (stripTags (String c s))) = false
  /\ hasTag (trim (stripTags (String c s))) = false.
Proof.
  intros Hamp.
  assert (Hstripped : includesChar "&" (stripTags (String c s)) = false)
    by (now apply stripTagsFrom_excludes).
  rewrite cleanHtmlContent_nonempty, (decodePasses_plain _ Hstripped).
  split; [reflexivity | split].
  - now apply trim_excludes.
  - apply trimEnd_no_tag, trimStart_no_tag, stripTagsFrom_no_tag.
Qed.

End CleaningFacts.

(** X6 (plain text).  A non-empty text with neither [<] nor ampersand
    comes out of [cleanHtmlContent] trimmed and otherwise unchanged. *)
Theorem cleanHtmlContent_plain_text (s : string) :
  s <> EmptyString ->
  includesChar "<" s = false ->
  includesChar "&" s = false ->
  cleanHtmlContent (JsStr s) = Some (trim s).
Proof.
  intros Hne Hlt Hamp. destruct s as [ | c s]; [now elim Hne | ].
  rewrite cleanHtmlContent_nonempty. unfold stripTags.
  now rewrite (stripTags_absent _ Hlt), (decodePasses_plain _ Hamp).
Qed.

Lemma cleanHtmlContent_plain_text_witness :
  cleanHtmlContent (JsStr "  Live at the 5 > 4 club ") = Some "Live at the 5 > 4 club".
Proof.
  apply (cleanHtmlContent_plain_text "  Live at the 5 > 4 club ");
    [discriminate | reflexivity | reflexivity].
Defined.

(** X7 (no tag survives).  When the text has no ampersand, what
    [cleanHtmlContent] returns contains no tag any more: no [<] that is
    followed by a [>]. *)
Theorem cleanHtmlContent_leaves_no_tag (s cleaned : string) :
  includesChar "&" s = false ->
  cleanHtmlContent (JsStr s) = Some cleaned ->
  hasTag cleaned = false.
Proof.
  intros Hamp Hclean. destruct s as [ | c s]; [discriminate Hclean | ].
  destruct (cleanHtmlContent_without_entities c s Hamp) as (Hrun & _ & Hnone).
  rewrite Hrun in Hclean. injection Hclean as <-. exact Hnone.
Qed.

Lemma cleanHtmlContent_leaves_no_tag_witness :
  hasTag "<p>a < b <i>c</i> > d</p>" = true
  /\ cleanHtmlContent (JsStr "<p>a < b <i>c</i> > d</p>") = Some "a c > d"
  /\ hasTag "a c > d" = false.
Proof.
  split; [reflexivity | split; [reflexivity | ]].
  apply (cleanHtmlContent_leaves_no_tag "<p>a < b <i>c</i> > d</p>" "a c > d");
    reflexivity.
Defined.

(** X8 (cleaning twice).  On a text without ampersand a second pass of
    [cleanHtmlContent] changes nothing: the non-empty result of the first
    pass is returned as it is. *)
Theorem cleanHtmlContent_idempotent_without_entities (s cleaned : string) :
  includesChar "&" s = false ->
  cleanHtmlContent (JsStr s) = Some cleaned ->
  cleaned <> EmptyString ->
  cleanHtmlContent (JsStr cleaned) = Some cleaned.
Proof.
  intros Hamp Hclean Hne. destruct s as [ | c s]; [discriminate Hclean | ].
  destruct (cleanHtmlContent_without_entities c s Hamp) as (Hrun & Hplain & Hnone).
  rewrite Hrun in Hclean. injection Hclean as <-.
  destruct (trim (stripTags (String c s))) as [ | d rest] eqn:Hresult; [now elim Hne | ].
  rewrite cleanHtmlContent_nonempty. unfold stripTags at 1.
  rewrite (stripTags_without_tag _ Hnone), (decodePasses_plain _ Hplain).
  rewrite <- Hresult. now rewrite trim_idempotent.
Qed.

Lemma cleanHtmlContent_idempotent_without_entities_witness :
  cleanHtmlContent (JsStr " <b>Side A</b> < Side B ") = Some "Side A < Side B"
  /\ cleanHtmlContent (JsStr "Side A < Side B") = Some "Side A < Side B".
Proof.
  split; [reflexivity | ].
  apply (cleanHtmlContent_idempotent_without_entities " <b>Side A</b> < Side B ");
    [reflexivity | reflexivity | discriminate].
Defined.

(** ** Timers of the tasks *)

Section TimerFacts.

Lemma keepsTimers_ret {A : Type} (a : A) : keepsTimers (ret a).
Proof. intros st. reflexivity. Qed.

Lemma keepsTimers_throw {A : Type} (e : Exn) : keepsTimers (@throw A e).
Proof. intros st. reflexivity. Qed.

Lemma keepsTimers_bind {A B : Type} (c : Task A) (k : A -> Task B) :
  keepsTimers c -> (forall a, keepsTimers (k a)) -> keepsTimers (bind c k).
Proof.
  intros Hc Hk st. unfold bind. specialize (Hc st).
  destruct (c st) as [[a | e] st1]; cbn [snd] in *; [ | exact Hc].
  now rewrite (Hk a st1).
Qed.

Lemma keepsTimers_tryCatch {A : Type} (body : Task A) (handler : Exn -> Task A) :
  keepsTimers body -> (forall e, keepsTimers (handler e)) ->
  keepsTimers (tryCatch body handler).
Proof.
  intros Hbody Hhandler st. unfold tryCatch. specialize (Hbody st).
  destruct (body st) as [[a | e] st1]; cbn [snd] in *; [exact Hbody | ].
  now rewrite (Hhandler e st1).
Qed.

Lemma keepsTimers_logLine (entry : LogEntry) : keepsTimers (logLine entry).
Proof. intros st. reflexivity. Qed.

Lemma keepsTimers_logLines (entries : list LogEntry) : keepsTimers (logLines entries).
Proof. intros st. reflexivity. Qed.

Lemma keepsTimers_ofResult {A : Type} (r : Exn + A) : keepsTimers (ofResult r).
Proof. destruct r; [apply keepsTimers_throw | apply keepsTimers_ret]. Qed.

Lemma backoffWaits_shift (delay attempt k : nat) :
  delay * 2 ^ attempt :: List.map (fun i => delay * 2 ^ (S attempt + i)) (seq 0 k)
  = List.map (fun i => delay * 2 ^ (attempt + i)) (seq 0 (S k)).
Proof.
  cbn [seq List.map]. rewrite Nat.add_0_r. f_equal.
  rewrite <- seq_shift, map_map. apply map_ext. intros i.
  now rewrite Nat.add_succ_r.
Qed.

(** The waits of the loop from attempt [attempt] on. *)
Lemma retryLoop_timers {T : Type} (fn : Task T) (maxRetries delay : nat)
      (onRetry : option (nat -> Exn -> Task unit)) :
  keepsTimers fn ->
  (forall attempt e, keepsTimers (notify onRetry attempt e)) ->
  forall remaining attempt lastError st,
    attempt + remaining = maxRetries + 1 ->
    1 <= attempt ->
    exists k,
      k <= remaining - 1
      /\ timers (snd (retryLoop fn maxRetries delay onRetry remaining attempt lastError st))
         = timers st ++ List.map (fun i => delay * 2 ^ (attempt - 1 + i)) (seq 0 k)
      /\ ((forall a e s, exists s', notify onRetry a e s = (Fulfilled tt, s')) ->
          forall e,
            fst (retryLoop fn maxRetries delay onRetry remaining attempt lastError st)
            = Rejected e ->
            k = remaining - 1).
Proof.
  intros Hfn Hnotify.
  induction remaining as [ | remaining IH]; intros attempt lastError st Hsum Hattempt.
  - exists 0. cbn. rewrite app_nil_r. repeat split; trivial.
  - pose proof (Hfn st) as Hfirst.
    destruct (fn st) as [[v | e] st1] eqn:Hrun; cbn [snd] in Hfirst.
    + exists 0.
      rewrite (retryLoop_fulfilled fn maxRetries delay onRetry remaining attempt
                 lastError st st1 v Hrun).
      cbn [fst snd seq List.map]. rewrite app_nil_r.
      split; [lia | split; [exact Hfirst | discriminate]].
    + destruct (Nat.eq_dec attempt maxRetries) as [Hlast | Hmore].
      * exists 0. subst attempt.
        rewrite (retryLoop_last fn maxRetries delay onRetry remaining lastError st st1 e Hrun).
        cbn [fst snd seq List.map]. rewrite app_nil_r.
        split; [lia | split; [exact Hfirst | intros; lia]].
      * pose proof (Hnotify attempt e st1) as Hcallback.
        destruct (notify onRetry attempt e st1) as [[[] | e'] st2] eqn:Hcall;
          cbn [snd] in Hcallback.
        -- rewrite (retryLoop_again fn maxRetries delay onRetry remaining attempt
                      lastError st st1 st2 e Hrun ltac:(lia) Hcall).
           destruct (IH (S attempt) e (snd (sleep (delay * 2 ^ (attempt - 1)) st2)))
             as (k & Hk & Htimers & Hexhausted); [lia | lia | ].
           exists (S k). split; [lia | split].
           ++ rewrite Htimers. cbn [sleep snd timers].
              rewrite Hcallback, Hfirst, <- app_assoc.
              cbn [app]. f_equal.
              replace (S attempt - 1) with (S (attempt - 1)) by lia.
              apply backoffWaits_shift.
           ++ intros Hquiet e0 Hrejected.
              rewrite (Hexhausted Hquiet e0 Hrejected). lia.
        -- exists 0.
           assert (Hstop : retryLoop fn maxRetries delay onRetry (S remaining) attempt
                             lastError st = (Rejected e', st2)).
           { cbn [retryLoop]. unfold tryCatch. rewrite Hrun.
             destruct (Nat.eqb_spec attempt maxRetries) as [Heq | _]; [contradiction | ].
             unfold bind at 1. fold (notify onRetry attempt e). now rewrite Hcall. }
           rewrite Hstop. cbn [fst snd seq List.map]. rewrite app_nil_r.
           split; [lia | split; [now rewrite Hcallback | ]].
           intros Hquiet. destruct (Hquiet attempt e st1) as [s' Hs'].
           rewrite Hs' in Hcall. discriminate Hcall.
Qed.

End TimerFacts.

(** X9 (waits of the retry wrapper).  When neither the operation nor the
    callback sets a timer, the timers [withRetry] sets are the first [k]
    waits of the backoff [delay], [2 delay], [4 delay], ... for some [k]
    below the number of attempts allowed: there is no wait after the last
    attempt.  When the callback does not throw and the wrapper rejects,
    all attempts were made: [k] is the number of attempts less one. *)
Theorem withRetry_waits_follow_backoff
        (T : Type) (fn : Task T) (maxRetries delay : nat)
        (onRetry : option (nat -> Exn -> Task unit)) (st : TaskState) :
  keepsTimers fn ->
  (forall attempt e, keepsTimers (notify onRetry attempt e)) ->
  exists k,
    k <= maxRetries - 1
    /\ timers (snd (withRetry fn maxRetries delay onRetry st))
       = timers st ++ backoffWaits delay k
    /\ ((forall attempt e s, exists s', notify onRetry attempt e s = (Fulfilled tt, s')) ->
        forall e,
          fst (withRetry fn maxRetries delay onRetry st) = Rejected e ->
          k = maxRetries - 1).
Proof.
  intros Hfn Hnotify. unfold withRetry, backoffWaits.
  destruct (retryLoop_timers fn maxRetries delay onRetry Hfn Hnotify
              maxRetries 1 ThrownUndefined st) as (k & Hk & Htimers & Hexhausted);
    [lia | lia | ].
  exists k. split; [exact Hk | split; [exact Htimers | exact Hexhausted]].
Qed.

Lemma withRetry_waits_follow_backoff_witness :
  exists k,
    k <= 3 - 1
    /\ timers (snd (withRetry (failsUntil 4000 7) 3 1000 (Some noteRetry) initialState))
       = timers initialState ++ backoffWaits 1000 k
    /\ ((forall attempt e s,
            exists s', notify (Some noteRetry) attempt e s = (Fulfilled tt, s')) ->
        forall e,
          fst (withRetry (failsUntil 4000 7) 3 1000 (Some noteRetry) initialState)
          = Rejected e ->
          k = 3 - 1).
Proof.
  apply (withRetry_waits_follow_backoff nat (failsUntil 4000 7) 3 1000
           (Some noteRetry) initialState).
  - intros st. unfold failsUntil. destruct (now st <? 4000); reflexivity.
  - intros attempt e st. reflexivity.
Defined.

(** ** One feed: waits and given-up feeds *)

Section SingleFeedFacts.
Variable p : Platform.

Lemma keepsTimers_fetch (url : string) : keepsTimers (fetch p url).
Proof.
  intros st. unfold fetch.
  now destruct (network p url (now st)) as [latency [reason | response]].
Qed.

Lemma keepsTimers_fetchFeed (feedUrl : string) : keepsTimers (fetchFeed p feedUrl).
Proof. rewrite fetchFeed_request. apply keepsTimers_fetch. Qed.

Lemma keepsTimers_errorMessage (error : Exn) : keepsTimers (errorMessage error).
Proof. destruct error; [apply keepsTimers_throw | apply keepsTimers_ret ..]. Qed.

Lemma keepsTimers_parseXmlChecked (xmlText : string) :
  keepsTimers (parseXmlChecked p xmlText).
Proof.
  unfold parseXmlChecked. apply keepsTimers_tryCatch.
  - apply keepsTimers_bind; [apply keepsTimers_ofResult | ]. intros xmlDoc.
    destruct (documentElementsByTagName _ _);
      [apply keepsTimers_ret | apply keepsTimers_throw].
  - intros e. apply keepsTimers_throw.
Qed.

Lemma keepsTimers_parseAlbumFeedAttempt (feedUrl : string) :
  keepsTimers (parseAlbumFeedAttempt p feedUrl).
Proof.
  unfold parseAlbumFeedAttempt.
  apply keepsTimers_bind; [apply keepsTimers_logLine | ]. intros _.
  apply keepsTimers_bind.
  { apply keepsTimers_tryCatch; [apply keepsTimers_fetchFeed | ].
    intros e. apply keepsTimers_throw. }
  intros response.
  destruct (negb (ok response)); [apply keepsTimers_throw | ].
  destruct (isEmpty _ || _); [apply keepsTimers_throw | ].
  destruct (negb _ || negb _); [apply keepsTimers_throw | ].
  apply keepsTimers_bind; [apply keepsTimers_parseXmlChecked | ]. intros xmlDoc.
  destruct (extractAlbum (extractor p) xmlDoc) as [lines extracted].
  apply keepsTimers_bind; [apply keepsTimers_logLines | ]. intros _.
  apply keepsTimers_bind; [apply keepsTimers_ofResult | ]. intros album.
  apply keepsTimers_bind; [apply keepsTimers_logLine | ]. intros _.
  apply keepsTimers_ret.
Qed.

(** An attempt that fails the same way whenever it is made is given up
    after the third time. *)
Lemma parseAlbumFeed_gives_up (feedUrl message : string) (st : TaskState) :
  (forall s,
      exists s',
        parseAlbumFeedAttempt p feedUrl s = (Rejected (Error message), s')
        /\ timers s' = timers s
        /\ console s' = console s ++ [ParsingAlbumFeed feedUrl]
        /\ now s <= now s') ->
  exists st',
    parseAlbumFeed p feedUrl st = (Fulfilled None, st')
    /\ timers st' = timers st ++ [1000; 2000]
    /\ console st'
       = console st
         ++ [ ParsingAlbumFeed feedUrl; RetryingFeedParse 1 feedUrl message;
              ParsingAlbumFeed feedUrl; RetryingFeedParse 2 feedUrl message;
              ParsingAlbumFeed feedUrl; FailedToParseFeed feedUrl (Error message) ]
    /\ now st + 3000 <= now st'.
Proof.
  intros Hfail.
  set (onRetry := Some (fun attempt error =>
                          message <- errorMessage error ;;
                          logLine (RetryingFeedParse attempt feedUrl message))).
  assert (Hnote : forall attempt s,
             notify onRetry attempt (Error message) s
             = (Fulfilled tt,
                {| now := now s; timers := timers s;
                   console := console s ++ [RetryingFeedParse attempt feedUrl message] |}))
    by reflexivity.
  destruct (Hfail st) as (s1 & Hrun1 & Htimers1 & Hconsole1 & Hnow1).
  pose proof (retryLoop_again (parseAlbumFeedAttempt p feedUrl) 3 1000 onRetry 2 1
                ThrownUndefined st s1 _ (Error message) Hrun1 ltac:(lia) (Hnote 1 s1))
    as Hstep1.
  match type of Hstep1 with
  | _ = retryLoop _ _ _ _ _ _ _ ?s => set (w1 := s) in *
  end.
  destruct (Hfail w1) as (s2 & Hrun2 & Htimers2 & Hconsole2 & Hnow2).
  pose proof (retryLoop_again (parseAlbumFeedAttempt p feedUrl) 3 1000 onRetry 1 2
                (Error message) w1 s2 _ (Error message) Hrun2 ltac:(lia) (Hnote 2 s2))
    as Hstep2.
  match type of Hstep2 with
  | _ = retryLoop _ _ _ _ _ _ _ ?s => set (w2 := s) in *
  end.
  destruct (Hfail w2) as (s3 & Hrun3 & Htimers3 & Hconsole3 & Hnow3).
  pose proof (retryLoop_last (parseAlbumFeedAttempt p feedUrl) 3 1000 onRetry 0
                (Error message) w2 s3 (Error message) Hrun3) as Hstep3.
  unfold parseAlbumFeed, withRetry. fold onRetry.
  unfold tryCatch at 1. unfold bind at 1.
  rewrite Hstep1, Hstep2, Hstep3.
  eexists. split; [reflexivity | ].
  cbn [logLine ret fst snd timers console now].
  subst w1 w2. cbn [sleep snd timers console now] in *.
  rewrite Htimers3, Htimers2, Htimers1, Hconsole3, Hconsole2, Hconsole1.
  rewrite <- !app_assoc. cbn [app].
  split; [reflexivity | split; [reflexivity | ]].
  cbn [Nat.pow Nat.sub Nat.mul Nat.add] in *. lia.
Qed.

End SingleFeedFacts.

(** X10 (one feed never fails and waits at most twice).  [parseAlbumFeed]
    always fulfils, with an album or with [null], and the timers it sets
    are none, 1000 ms, or 1000 ms and then 2000 ms: the backoff of its
    three attempts. *)
Theorem parseAlbumFeed_fulfils_after_at_most_two_waits
        (p : Platform) (feedUrl : string) (st : TaskState) :
  exists outcome st' k,
    parseAlbumFeed p feedUrl st = (Fulfilled outcome, st')
    /\ k <= 2
    /\ timers st' = timers st ++ firstn k [1000; 2000].
Proof.
  set (onRetry := Some (fun attempt error =>
                          message <- errorMessage error ;;
                          logLine (RetryingFeedParse attempt feedUrl message))).
  destruct (retryLoop_timers (parseAlbumFeedAttempt p feedUrl) 3 1000 onRetry
              (keepsTimers_parseAlbumFeedAttempt p feedUrl)) with
    (remaining := 3) (attempt := 1) (lastError := ThrownUndefined) (st := st)
    as (k & Hk & Htimers & _); [ | lia | lia | ].
  { intros attempt e. cbn [notify onRetry].
    apply keepsTimers_bind; [apply keepsTimers_errorMessage | ]. intros message.
    apply keepsTimers_logLine. }
  unfold parseAlbumFeed, withRetry. fold onRetry.
  unfold tryCatch at 1. unfold bind at 1.
  destruct (retryLoop _ 3 1000 onRetry 3 1 ThrownUndefined st) as [[album | e] st1];
    cbn [snd] in Htimers.
  - exists (Some album), st1, k. split; [reflexivity | split; [lia | ]].
    rewrite Htimers. f_equal.
    destruct k as [ | [ | [ | k]]]; try reflexivity; lia.
  - eexists None, _, k. split; [reflexivity | split; [lia | ]].
    cbn [logLine ret snd timers]. rewrite Htimers. f_equal.
    destruct k as [ | [ | [ | k]]]; try reflexivity; lia.
Qed.

(** X11 (a feed that stays unreachable).  When every request for the feed
    fails in transport with the same error, or is answered with the same
    response whose status is not OK, [parseAlbumFeed] makes three
    attempts and answers [null]: it waits 1000 ms and then 2000 ms (at
    least three seconds pass), and writes the lines of the three
    attempts, of the two retries with the message of the failure, and of
    giving the feed up. *)
Theorem parseAlbumFeed_gives_up_unreachable_feed
        (p : Platform) (feedUrl : string) (st : TaskState) (answer : FetchResult) :
  (forall time, snd (network p (requestUrl p feedUrl) time) = answer) ->
  forall message,
    match answer with
    | NetworkFailure reason =>
        message = ("Failed to fetch RSS feed: " ++ messageOr "Network error" reason)%string
    | HttpResponse response =>
        ok response = false
        /\ message = ("Failed to fetch RSS feed: " ++ ofNat (status response)
                      ++ " " ++ statusText response)%string
    end ->
    exists st',
      parseAlbumFeed p feedUrl st = (Fulfilled None, st')
      /\ timers st' = timers st ++ [1000; 2000]
      /\ console st'
         = console st
           ++ [ ParsingAlbumFeed feedUrl; RetryingFeedParse 1 feedUrl message;
                ParsingAlbumFeed feedUrl; RetryingFeedParse 2 feedUrl message;
                ParsingAlbumFeed feedUrl; FailedToParseFeed feedUrl (Error message) ]
      /\ now st + 3000 <= now st'.
Proof.
  intros Hnetwork message Hmessage.
  apply parseAlbumFeed_gives_up. intros s.
  unfold parseAlbumFeedAttempt.
  unfold bind at 1. unfold logLine at 1.
  unfold bind at 1. unfold tryCatch at 1.
  rewrite fetchFeed_request. unfold fetch at 1. cbn [now timers console].
  specialize (Hnetwork (now s)).
  destruct (network p (requestUrl p feedUrl) (now s)) as [latency answer'].
  cbn [snd] in Hnetwork. subst answer'.
  destruct answer as [reason | response].
  - subst message. eexists. split; [reflexivity | ].
    cbn [timers console now]. repeat split. lia.
  - destruct Hmessage as [Hok ->]. rewrite Hok. cbn [negb].
    eexists. split; [reflexivity | ].
    cbn [timers console now]. repeat split. lia.
Qed.

Lemma parseAlbumFeed_gives_up_unreachable_feed_witness :
  exists st',
    parseAlbumFeed samplePlatform "https://feeds.example/missing.xml" initialState
    = (Fulfilled None, st')
    /\ timers st' = timers initialState ++ [1000; 2000]
    /\ console st'
       = console initialState
         ++ [ ParsingAlbumFeed "https://feeds.example/missing.xml";
              RetryingFeedParse 1 "https://feeds.example/missing.xml"
                "Failed to fetch RSS feed: 404 Not Found";
              ParsingAlbumFeed "https://feeds.example/missing.xml";
              RetryingFeedParse 2 "https://feeds.example/missing.xml"
                "Failed to fetch RSS feed: 404 Not Found";
              ParsingAlbumFeed "https://feeds.example/missing.xml";
              FailedToParseFeed "https://feeds.example/missing.xml"
                (Error "Failed to fetch RSS feed: 404 Not Found") ]
    /\ now initialState + 3000 <= now st'.
Proof.
  apply (parseAlbumFeed_gives_up_unreachable_feed samplePlatform
           "https://feeds.example/missing.xml" initialState
           (snd (network samplePlatform "https://feeds.example/missing.xml" 0))).
  - intros time. reflexivity.
  - vm_compute. split; reflexivity.
Defined.

(** ** What an album never contains *)

Section AlbumFacts.

Lemma orDefault_nonempty (x : option string) (fallback : string) :
  fallback <> EmptyString -> orDefault x fallback <> EmptyString.
Proof. intros Hne. destruct x as [[ | c s] | ]; cbn; congruence. Qed.

Lemma orElse_nonempty (x y : option string) :
  y <> Some EmptyString -> orElse x y <> Some EmptyString.
Proof. intros Hy. destruct x as [[ | c s] | ]; cbn; congruence. Qed.

Lemma truthy_nonempty (x : option string) : truthy x <> Some EmptyString.
Proof. apply orElse_nonempty. discriminate. Qed.

Lemma nonEmptyList_some {A : Type} (l l' : list A) :
  nonEmptyList l = Some l' -> l' = l /\ l <> [].
Proof. destruct l; [discriminate | ]. intros [= <-]. split; [reflexivity | discriminate]. Qed.

Lemma keywordList_entries (text : option string) :
  Forall (fun k => k <> EmptyString /\ trim k = k) (keywordList text).
Proof.
  destruct text as [t | ]; [ | constructor]. cbn [keywordList].
  apply Forall_forall. intros k Hin. apply filter_In in Hin. destruct Hin as [Hin Hne].
  apply in_map_iff in Hin. destruct Hin as (raw & <- & _).
  split; [ | apply trim_idempotent].
  intros Hempty. rewrite Hempty in Hne. discriminate Hne.
Qed.

(** The text in front of the first [" - "] of a trimmed, non-empty
    title is not blank. *)
Lemma beforeFirst_dash (t : string) :
  t <> EmptyString -> trim t = t -> trim (beforeFirst " - " t) <> EmptyString.
Proof.
  intros Hne Htrim. unfold trim in Htrim.
  destruct (trimStart_head t) as [Hblank | (c & rest & Hhead & Hc)].
  - rewrite Hblank in Htrim. cbn in Htrim. congruence.
  - rewrite Hhead, (trimEnd_cons c rest Hc) in Htrim. subst t.
    cbn [beforeFirst].
    rewrite (prefix_head_mismatch " " c "- " (trimEnd rest))
      by (intros <-; discriminate Hc).
    unfold trim. rewrite (trimStart_cons c _ Hc), (trimEnd_cons c _ Hc). discriminate.
Qed.

Lemma extractArtist_nonempty (channel : Node) (title : string) :
  title <> EmptyString -> trim title = title ->
  extractArtist channel title <> EmptyString.
Proof.
  intros Hne Htrim. unfold extractArtist.
  destruct (match getElementsByTagName "itunes:author" channel with
            | first :: _ => Some first
            | [] => hd_error (getElementsByTagName "author" channel)
            end) as [el | ].
  - apply orDefault_nonempty. discriminate.
  - destruct (includes " - " title); [now apply beforeFirst_dash | discriminate].
Qed.

Lemma albumTitle_trimmed (channel : Node) :
  let title := orDefault (firstText "title" channel) "Unknown Album" in
  title <> EmptyString /\ trim title = title.
Proof.
  cbv zeta. split; [apply orDefault_nonempty; discriminate | ].
  destruct (firstText "title" channel) as [t | ] eqn:Htitle; [ | reflexivity].
  apply firstText_trimmed in Htitle.
  destruct t as [ | c t]; [reflexivity | exact Htitle].
Qed.

Lemma extractTrack_texts (i : nat) (item : Node) :
  let track := fst (extractTrack i item) in
  trackTitle track <> EmptyString
  /\ trackDuration track <> EmptyString
  /\ trackUrl track <> Some EmptyString
  /\ trackImage track <> Some EmptyString
  /\ trackKeywords track <> Some []
  /\ (forall l, trackKeywords track = Some l ->
                Forall (fun k => k <> EmptyString /\ trim k = k) l).
Proof.
  cbv zeta. split; [ | split].
  - rewrite extractTrack_title. apply orDefault_nonempty. discriminate.
  - rewrite extractTrack_duration. apply normalizeDuration_nonempty.
  - unfold extractTrack. destruct (normalizeDuration _ _) as [normalized converted].
    cbn [fst trackUrl trackImage trackKeywords].
    split; [ | split; [apply truthy_nonempty | split]].
    + destruct (hd_error (getElementsByTagName "enclosure" item)) as [enclosure | ].
      * destruct (truthy (getAttribute "url" enclosure)) as [u | ] eqn:Hurl.
        -- rewrite <- Hurl. apply truthy_nonempty.
        -- destruct (hd_error (getElementsByTagName "link" item)) as [linkEl | ].
           ++ destruct (truthy (Some (trim (textContent linkEl)))) as [u | ] eqn:Hlink.
              ** rewrite <- Hlink. apply truthy_nonempty.
              ** destruct (hd_error (getElementsByTagName "media:content" item));
                   [apply truthy_nonempty | discriminate].
           ++ destruct (hd_error (getElementsByTagName "media:content" item));
                [apply truthy_nonempty | discriminate].
      * destruct (hd_error (getElementsByTagName "link" item)) as [linkEl | ].
        -- destruct (truthy (Some (trim (textContent linkEl)))) as [u | ] eqn:Hlink.
           ++ rewrite <- Hlink. apply truthy_nonempty.
           ++ destruct (hd_error (getElementsByTagName "media:content" item));
                [apply truthy_nonempty | discriminate].
        -- destruct (hd_error (getElementsByTagName "media:content" item));
             [apply truthy_nonempty | discriminate].
    + intros Hnone. apply nonEmptyList_some in Hnone.
      destruct Hnone as [Hsame Hne]. apply Hne. now rewrite <- Hsame.
    + intros l Hsome. apply nonEmptyList_some in Hsome. destruct Hsome as [-> _].
      apply keywordList_entries.
Qed.

Lemma extractTracksFrom_all (P : RSSTrack -> Prop) (items : list Node) :
  (forall i item, P (fst (extractTrack i item))) ->
  forall k, Forall P (List.map fst (extractTracksFrom k items)).
Proof.
  intros HP. induction items as [ | item items IH]; intros k; cbn [extractTracksFrom List.map].
  - constructor.
  - constructor; [apply HP | apply IH].
Qed.

Lemma extractFunding_entries (channel : Node) :
  Forall (fun f => fundingUrl f <> EmptyString /\ fundingMessage f <> Some EmptyString)
         (extractFunding channel).
Proof.
  unfold extractFunding. apply Forall_flat_map, Forall_forall. intros element _.
  destruct (truthy (orElse (getAttribute "url" element) (Some (trim (textContent element)))))
    as [u | ] eqn:Hurl; [ | constructor].
  constructor; [ | constructor]. cbn [fundingUrl fundingMessage].
  split; [ | apply truthy_nonempty].
  apply truthy_some in Hurl. tauto.
Qed.

Lemma extractPodroll_entries (channel : Node) :
  Forall (fun r => podrollUrl r <> EmptyString
                   /\ (exists t, podrollTitle r = Some t /\ t <> EmptyString)
                   /\ podrollDescription r <> Some EmptyString)
         (extractPodroll channel).
Proof.
  unfold extractPodroll. apply Forall_flat_map, Forall_forall. intros podrollEl _.
  apply Forall_flat_map, Forall_forall. intros remoteEl _.
  destruct (truthy (getAttribute "feedUrl" remoteEl)) as [u | ] eqn:Hurl; [ | constructor].
  constructor; [ | constructor]. cbn [podrollUrl podrollTitle podrollDescription].
  apply truthy_some in Hurl.
  split; [tauto | split; [ | apply truthy_nonempty]].
  eexists. split; [reflexivity | ].
  apply orDefault_nonempty. discriminate.
Qed.

End AlbumFacts.

(** X12 (texts that are never empty).  In every album the extractor
    returns, the title and the artist are not empty, the release date is
    not empty when the current date of the host is not, and every track
    has a non-empty title and a non-empty duration. *)
Theorem album_required_texts_nonempty
        (x : Extractor) (xmlDoc : Node) (lines : list LogEntry) (album : RSSAlbum) :
  extractAlbum x xmlDoc = (lines, inr album) ->
  title album <> EmptyString
  /\ artist album <> EmptyString
  /\ (currentDate x <> EmptyString -> releaseDate album <> EmptyString)
  /\ Forall (fun track => trackTitle track <> EmptyString
                          /\ trackDuration track <> EmptyString)
            (tracks album).
Proof.
  intros Hok.
  destruct (extractAlbum_success _ _ _ _ Hok)
    as (channel & others & warnings & art & _ & _ & ->).
  destruct (albumTitle_trimmed channel) as [Htitle Htrimmed].
  unfold buildAlbum. cbn [snd title artist releaseDate tracks].
  split; [exact Htitle | split; [ | split]].
  - now apply extractArtist_nonempty.
  - apply orDefault_nonempty.
  - apply extractTracksFrom_all. intros i item.
    destruct (extractTrack_texts i item) as (Ht & Hd & _). now split.
Qed.

Lemma album_required_texts_nonempty_witness :
  exists album,
    snd (extractAlbum sampleExtractor threeItemFeed) = inr album
    /\ title album <> EmptyString
    /\ artist album <> EmptyString
    /\ Forall (fun track => trackTitle track <> EmptyString
                            /\ trackDuration track <> EmptyString)
              (tracks album).
Proof.
  destruct (extractAlbum sampleExtractor threeItemFeed) as [lines [e | album]] eqn:Hrun;
    [vm_compute in Hrun; discriminate | ].
  exists album. split; [reflexivity | ].
  destruct (album_required_texts_nonempty sampleExtractor threeItemFeed lines album Hrun)
    as (Htitle & Hartist & _ & Htracks).
  repeat split; assumption.
Defined.

(** X13 (optional fields are left out rather than empty).  In every
    album the extractor returns, the lists of funding entries, keywords,
    categories and pod-roll entries are absent rather than empty; a
    keyword is a non-empty trimmed text, a category is not empty, a
    funding entry has a non-empty URL, a pod-roll entry a non-empty URL
    and a non-empty title; their optional message and description are
    absent rather than empty.  For every track the URL and the image are
    absent rather than empty, and so is its keyword list, whose entries
    are non-empty trimmed texts. *)
Theorem album_optional_fields_absent_or_nonempty
        (x : Extractor) (xmlDoc : Node) (lines : list LogEntry) (album : RSSAlbum) :
  extractAlbum x xmlDoc = (lines, inr album) ->
  (forall l, funding album = Some l ->
             l <> []
             /\ Forall (fun f => fundingUrl f <> EmptyString
                                 /\ fundingMessage f <> Some EmptyString) l)
  /\ (forall l, keywords album = Some l ->
                l <> [] /\ Forall (fun k => k <> EmptyString /\ trim k = k) l)
  /\ (forall l, categories album = Some l ->
                l <> [] /\ Forall (fun c => c <> EmptyString) l)
  /\ (forall l, podroll album = Some l ->
                l <> []
                /\ Forall (fun r => podrollUrl r <> EmptyString
                                    /\ (exists t, podrollTitle r = Some t /\ t <> EmptyString)
                                    /\ podrollDescription r <> Some EmptyString) l)
  /\ Forall (fun track =>
               trackUrl track <> Some EmptyString
               /\ trackImage track <> Some EmptyString
               /\ trackKeywords track <> Some []
               /\ (forall l, trackKeywords track = Some l ->
                             Forall (fun k => k <> EmptyString /\ trim k = k) l))
            (tracks album).
Proof.
  intros Hok.
  destruct (extractAlbum_success _ _ _ _ Hok)
    as (channel & others & warnings & art & _ & _ & ->).
  unfold buildAlbum. cbn [snd funding keywords categories podroll tracks].
  repeat match goal with |- _ /\ _ => split end.
  - intros l Hl. apply nonEmptyList_some in Hl. destruct Hl as [-> Hne].
    split; [exact Hne | apply extractFunding_entries].
  - intros l Hl. apply nonEmptyList_some in Hl. destruct Hl as [-> Hne].
    split; [exact Hne | apply keywordList_entries].
  - intros l Hl. apply nonEmptyList_some in Hl. destruct Hl as [-> Hne].
    split; [exact Hne | ].
    apply Forall_flat_map, Forall_forall. intros cat _.
    destruct (truthy (getAttribute "text" cat)) as [t | ] eqn:Htext; [ | constructor].
    constructor; [ | constructor]. apply truthy_some in Htext. tauto.
  - intros l Hl. apply nonEmptyList_some in Hl. destruct Hl as [-> Hne].
    split; [exact Hne | apply extractPodroll_entries].
  - apply extractTracksFrom_all. intros i item.
    destruct (extractTrack_texts i item) as (_ & _ & Hrest). exact Hrest.
Qed.

Lemma album_optional_fields_absent_or_nonempty_witness :
  exists album,
    snd (extractAlbum sampleExtractor threeItemFeed) = inr album
    /\ Forall (fun track =>
                 trackUrl track <> Some EmptyString
                 /\ trackImage track <> Some EmptyString
                 /\ trackKeywords track <> Some []
                 /\ (forall l, trackKeywords track = Some l ->
                               Forall (fun k => k <> EmptyString /\ trim k = k) l))
              (tracks album).
Proof.
  destruct (extractAlbum sampleExtractor threeItemFeed) as [lines [e | album]] eqn:Hrun;
    [vm_compute in Hrun; discriminate | ].
  exists album. split; [reflexivity | ].
  exact (proj2 (proj2 (proj2 (proj2
           (album_optional_fields_absent_or_nonempty
              sampleExtractor threeItemFeed lines album Hrun))))).
Defined.

(** ** Cover art *)

(** X14 (the [itunes:image] comes first).  When the first
    [itunes:image] element below the channel, in document order, has a
    non-empty [href], that address is the cover art, whatever the other
    strategies would find and on every host: the selector engine is not
    consulted.  The address is returned as protocol, host and path (query
    and fragment dropped) when it parses as a URL, and as it is, with a
    warning, when it does not. *)
Theorem extractCoverArt_channel_image_first
        (x : Extractor) (channel : Node) (items : list Node) (element : Node)
        (href : string) :
  hd_error (getElementsByTagName "itunes:image" channel) = Some element ->
  getAttribute "href" element = Some href ->
  href <> EmptyString ->
  extractCoverArt x channel items
  = match parseUrl x href with
    | Some (protocol, host, pathname) =>
        ([], inr (Some (protocol ++ "//" ++ host ++ pathname)%string))
    | None => ([InvalidCoverArtUrl href], inr (Some href))
    end.
Proof.
  intros Hfirst Hhref Hne. unfold extractCoverArt.
  rewrite Hfirst, Hhref.
  destruct href as [ | c href]; [now elim Hne | ].
  cbn [truthy orElse unlessFound]. reflexivity.
Qed.

Lemma extractCoverArt_channel_image_first_witness :
  extractCoverArt selectorlessExtractor artChannel []
  = ([], inr (Some "https://cdn.example/cover.jpg")).
Proof.
  apply (extractCoverArt_channel_image_first selectorlessExtractor artChannel []
           (Element "itunes:image" [("href", "https://cdn.example/cover.jpg?size=600")] [])
           "https://cdn.example/cover.jpg?size=600");
    [reflexivity | reflexivity | discriminate].
Defined.

(** X15 (a host without selector engine).  On a host whose
    [querySelector] throws, the extraction of a feed fails, with what
    [querySelector] throws, exactly when the first [itunes:image] element
    below the channel is missing or has no non-empty [href]: artwork of
    another kind, of the channel or of an item, does not help. *)
Theorem extractAlbum_needs_selector_engine
        (x : Extractor) (xmlDoc channel : Node) (others : list Node) (e : Exn) :
  (forall selector element, querySelector x selector element = inl e) ->
  documentElementsByTagName "channel" xmlDoc = channel :: others ->
  extractAlbum x xmlDoc = ([], inl e)
  <-> match hd_error (getElementsByTagName "itunes:image" channel) with
      | Some element => truthy (getAttribute "href" element) = None
      | None => True
      end.
Proof.
  intros Hthrows Hchannel. unfold extractAlbum. rewrite Hchannel.
  unfold extractCoverArt.
  destruct (hd_error (getElementsByTagName "itunes:image" channel)) as [element | ].
  - destruct (truthy (getAttribute "href" element)) as [href | ] eqn:Hhref.
    + apply truthy_some in Hhref. destruct Hhref as [_ Hne].
      destruct href as [ | c href]; [now elim Hne | ].
      cbn [truthy orElse unlessFound].
      split; [ | discriminate].
      destruct (parseUrl x (String c href)) as [[[protocol host] pathname] | ];
        destruct (buildAlbum x channel _ _); discriminate.
    + cbn [truthy orElse unlessFound]. rewrite Hthrows. now split.
  - rewrite Hthrows. now split.
Qed.

Lemma extractAlbum_needs_selector_engine_witness :
  extractAlbum selectorlessExtractor itemArtFeed
  = ([], inl (TypeError "channel.querySelector is not a function")).
Proof.
  apply (extractAlbum_needs_selector_engine selectorlessExtractor itemArtFeed
           (el "channel"
              [ leaf "title" "Album";
                el "item"
                  [ leaf "title" "One";
                    Element "enclosure"
                      [("type", "image/jpeg"); ("url", "https://cdn.example/track.jpg")]
                      [] ] ])
           []).
  - intros selector element. reflexivity.
  - reflexivity.
  - cbn. exact I.
Defined.

Section CoverArtFacts.

Lemma unlessFound_clean (coverArt : option string) (strategy : Exn + option string)
      (found : option string) :
  coverArt <> Some EmptyString ->
  (forall art, strategy = inr art -> art <> Some EmptyString) ->
  unlessFound coverArt strategy = inr found ->
  found <> Some EmptyString.
Proof.
  intros Hclean Hstrategy. unfold unlessFound.
  destruct (truthy coverArt); [now intros [= <-] | apply Hstrategy].
Qed.

Lemma inr_injective {A B : Type} (a b : B) : @inr A B a = inr b -> a = b.
Proof. now intros [= ->]. Qed.

End CoverArtFacts.

(** X16 (cover art is absent rather than empty).  When the description
    matcher of the host never yields an empty image address, the cover
    art [extractCoverArt] returns is absent or a non-empty text. *)
Theorem extractCoverArt_absent_or_nonempty
        (x : Extractor) (channel : Node) (items : list Node)
        (warnings : list LogEntry) (coverArt : option string) :
  (forall text source, matchImageSource x text = Some source -> source <> EmptyString) ->
  extractCoverArt x channel items = (warnings, inr coverArt) ->
  coverArt <> Some EmptyString.
Proof.
  intros Hmatch. unfold extractCoverArt.
  destruct (match hd_error (getElementsByTagName "itunes:image" channel) with
            | Some found => inr (Some found)
            | None => querySelector x "itunes\:image" channel
            end) as [e | imageElement]; [discriminate | ].
  set (art1 := match imageElement with
               | Some element => truthy (getAttribute "href" element)
               | None => None
               end).
  assert (Hart1 : art1 <> Some EmptyString)
    by (subst art1; destruct imageElement; [apply truthy_nonempty | discriminate]).
  destruct (unlessFound art1 _) as [e | art2] eqn:Hstep2; [discriminate | ].
  assert (Hart2 : art2 <> Some EmptyString).
  { apply (unlessFound_clean _ _ _ Hart1) in Hstep2; [exact Hstep2 | ].
    intros art. destruct (querySelector x "image url" channel) as [e | [imageUrl | ]];
      [discriminate
      | intros Heq; apply inr_injective in Heq; subst art; apply truthy_nonempty
      | now intros [= <-]]. }
  destruct (unlessFound art2 _) as [e | art3] eqn:Hstep3; [discriminate | ].
  assert (Hart3 : art3 <> Some EmptyString).
  { apply (unlessFound_clean _ _ _ Hart2) in Hstep3; [exact Hstep3 | ].
    intros art. destruct (querySelector x "image" channel) as [e | [altImageElement | ]];
      [discriminate | | now intros [= <-]].
    destruct (truthy (orElse _ _)) as [altUrl | ] eqn:Halt; [ | now intros [= <-]].
    intros Heq. apply inr_injective in Heq. subst art.
    rewrite <- Halt. apply truthy_nonempty. }
  clear Hstep2 Hstep3.
  match goal with
  | |- context [match truthy ?a with Some _ => ?a | None => _ end] => set (art4 := a)
  end.
  assert (Hart4 : art4 <> Some EmptyString).
  { subst art4. destruct (truthy art3); [exact Hart3 | ].
    destruct items as [ | firstItem rest]; [exact Hart3 | ].
    repeat match goal with
           | |- context [match ?scrutinee with _ => _ end] =>
               lazymatch scrutinee with
               | truthy _ => destruct scrutinee eqn:?
               | hd_error _ => destruct scrutinee
               | hasImageType _ => destruct scrutinee
               end
           | |- (if ?scrutinee then _ else _) <> _ => destruct scrutinee
           end;
      first [exact Hart3 | apply truthy_nonempty | idtac]. }
  set (art5 := match truthy art4 with
               | Some _ => art4
               | None => _
               end).
  assert (Hart5 : art5 <> Some EmptyString).
  { subst art5. destruct (truthy art4); [exact Hart4 | ].
    destruct (matchImageSource x _) as [source | ] eqn:Hsource; [ | exact Hart4].
    intros [= ->]. now apply (Hmatch _ _ Hsource). }
  destruct (truthy art5) as [found | ] eqn:Hfound.
  - apply truthy_some in Hfound. destruct Hfound as [_ Hne].
    destruct (parseUrl x found) as [[[protocol host] pathname] | ].
    + intros [= _ <-]. now destruct protocol.
    + intros [= _ <-]. congruence.
  - now intros [= _ <-].
Qed.

Lemma extractCoverArt_absent_or_nonempty_witness :
  snd (extractCoverArt selectorlessExtractor artChannel [])
  = inr (Some "https://cdn.example/cover.jpg")
  /\ Some "https://cdn.example/cover.jpg" <> Some EmptyString.
Proof.
  split; [reflexivity | ].
  apply (extractCoverArt_absent_or_nonempty selectorlessExtractor artChannel [] []).
  - intros text source Hsource. discriminate Hsource.
  - reflexivity.
Defined.

(** ** The listing of a publisher feed *)

(** X17 (what a publisher listing contains).  When
    [parsePublisherFeedFromUrl] fulfils, every item of the list has the
    medium ["music"], a non-empty feed GUID, a non-empty feed address and
    a title (possibly empty); there are no more items than
    [podcast:remoteItem] elements below the first channel of the
    document; the call sets no timer and writes one line, which gives the
    number of items. *)
Theorem parsePublisherFeedFromUrl_lists_music_items
        (p : Platform) (feedUrl : string) (st st' : TaskState)
        (items : list RSSPublisherItem) :
  parsePublisherFeedFromUrl p feedUrl st = (Fulfilled items, st') ->
  Forall (fun item => itemMedium item = "music"
                      /\ itemFeedGuid item <> EmptyString
                      /\ itemFeedUrl item <> EmptyString
                      /\ itemTitle item <> None)
         items
  /\ (exists response xmlDoc channel others,
         parseFromString p (body response) = inr xmlDoc
         /\ documentElementsByTagName "channel" xmlDoc = channel :: others
         /\ List.length items
            <= List.length (getElementsByTagName "podcast:remoteItem" channel))
  /\ timers st' = timers st
  /\ console st' = console st ++ [FoundMusicItems (List.length items) feedUrl].
Proof.
  unfold parsePublisherFeedFromUrl. unfold bind at 1.
  pose proof (keepsTimers_fetchFeed p feedUrl st) as Htimers.
  destruct (writesOnly_fetchFeed p (fun _ => false) feedUrl st) as (written & Hconsole & Hnone).
  destruct (fetchFeed p feedUrl st) as [[response | e] st1]; [ | discriminate].
  cbn [snd] in Htimers, Hconsole.
  assert (Hwritten : written = []).
  { destruct written as [ | entry written]; [reflexivity | ].
    inversion Hnone as [ | ? ? Hentry _]. discriminate Hentry. }
  subst written. rewrite app_nil_r in Hconsole.
  destruct (negb (ok response)); [discriminate | ].
  unfold bind at 1.
  destruct (parseFromString p (body response)) as [e | xmlDoc] eqn:Hparse; [discriminate | ].
  cbn [ofResult ret].
  destruct (documentElementsByTagName "parsererror" xmlDoc); [ | discriminate].
  unfold documentElementsByTagName at 1.
  destruct (filter (hasTagName "channel") (xmlDoc :: descendants xmlDoc))
    as [ | channel others] eqn:Hchannel; [discriminate | ].
  set (publisherItems := flat_map _ (getElementsByTagName "podcast:remoteItem" channel)).
  unfold bind, logLine, ret. intros [= <- <-]. cbn [timers console].
  rewrite Htimers, Hconsole.
  split; [ | split; [ | split; reflexivity]].
  - subst publisherItems. apply Forall_flat_map, Forall_forall. intros element _.
    destruct (truthy (getAttribute "feedGuid" element)) as [guid | ] eqn:Hguid;
      [ | constructor].
    destruct (truthy (getAttribute "feedUrl" element)) as [url | ] eqn:Hurl;
      [ | constructor].
    destruct (optionEqb (getAttribute "medium" element) "music"); [ | constructor].
    constructor; [ | constructor].
    cbn [itemMedium itemFeedGuid itemFeedUrl itemTitle].
    apply truthy_some in Hguid. apply truthy_some in Hurl.
    repeat split; try tauto.
    destruct (getAttribute "title" element) as [[ | c t] | ]; discriminate.
  - exists response, xmlDoc, channel, others.
    split; [exact Hparse | split; [exact Hchannel | ]].
    subst publisherItems.
    generalize (getElementsByTagName "podcast:remoteItem" channel) as elements.
    induction elements as [ | element elements IH]; [apply le_n | ].
    cbn [flat_map]. rewrite length_app. cbn [List.length].
    destruct (truthy (getAttribute "feedGuid" element));
      destruct (truthy (getAttribute "feedUrl" element));
      try destruct (optionEqb (getAttribute "medium" element) "music");
      cbn [List.length]; lia.
Qed.

Lemma parsePublisherFeedFromUrl_lists_music_items_witness :
  exists items st',
    parsePublisherFeedFromUrl publisherPlatform "https://feeds.example/label.xml"
      initialState = (Fulfilled items, st')
    /\ List.map itemFeedGuid items = ["guid-a"; "guid-b"]
    /\ Forall (fun item => itemMedium item = "music"
                           /\ itemFeedGuid item <> EmptyString
                           /\ itemFeedUrl item <> EmptyString
                           /\ itemTitle item <> None)
              items
    /\ console st' = [FoundMusicItems 2 "https://feeds.example/label.xml"].
Proof.
  destruct (parsePublisherFeedFromUrl publisherPlatform "https://feeds.example/label.xml"
              initialState) as [[items | e] st'] eqn:Hrun;
    [ | vm_compute in Hrun; discriminate].
  exists items, st'. split; [reflexivity | ].
  destruct (parsePublisherFeedFromUrl_lists_music_items publisherPlatform
              "https://feeds.example/label.xml" initialState st' items Hrun)
    as (Hitems & _ & _ & Hconsole).
  vm_compute in Hrun. injection Hrun as <- <-.
  split; [reflexivity | split; [exact Hitems | reflexivity]].
Defined.

(** ** The publisher functions *)

Section PublisherInfoFacts.
Variable p : Platform.

(** Where the listing rejects, the attempt of [parsePublisherFeedInfo]
    rejects in the same way, having written nothing. *)
Lemma listing_rejects_early (feedUrl : string) (s s1 : TaskState) (e : Exn) :
  parsePublisherFeedFromUrl p feedUrl s = (Rejected e, s1) ->
  parsePublisherFeedInfoAttempt p feedUrl s = (Rejected e, s1)
  /\ timers s1 = timers s
  /\ console s1 = console s.
Proof.
  intros Hlisting.
  unfold parsePublisherFeedFromUrl in Hlisting. unfold bind at 1 in Hlisting.
  unfold parsePublisherFeedInfoAttempt. unfold bind at 1.
  pose proof (keepsTimers_fetchFeed p feedUrl s) as Htimers.
  destruct (writesOnly_fetchFeed p (fun _ => false) feedUrl s) as (lines & Hconsole & Hnone).
  assert (Hlines : lines = []).
  { destruct lines as [ | entry lines]; [reflexivity | ].
    inversion Hnone as [ | ? ? Hentry _]. discriminate Hentry. }
  subst lines. rewrite app_nil_r in Hconsole.
  destruct (fetchFeed p feedUrl s) as [[response | e0] st1]; cbn [snd] in Htimers, Hconsole.
  - destruct (negb (ok response)).
    + injection Hlisting as <- <-. now repeat split.
    + unfold bind at 1 in Hlisting. unfold bind at 1.
      destruct (parseFromString p (body response)) as [e0 | xmlDoc];
        cbn [ofResult throw ret] in *.
      * injection Hlisting as <- <-. now repeat split.
      * destruct (documentElementsByTagName "parsererror" xmlDoc).
        -- destruct (documentElementsByTagName "channel" xmlDoc).
           ++ injection Hlisting as <- <-. now repeat split.
           ++ unfold bind, logLine, ret in Hlisting. discriminate Hlisting.
        -- injection Hlisting as <- <-. now repeat split.
  - injection Hlisting as <- <-. now repeat split.
Qed.

Lemma keepsTimers_parsePublisherFeedInfoAttempt (feedUrl : string) :
  keepsTimers (parsePublisherFeedInfoAttempt p feedUrl).
Proof.
  unfold parsePublisherFeedInfoAttempt.
  apply keepsTimers_bind; [apply keepsTimers_fetchFeed | ]. intros response.
  destruct (negb (ok response)); [apply keepsTimers_throw | ].
  apply keepsTimers_bind; [apply keepsTimers_ofResult | ]. intros xmlDoc.
  destruct (documentElementsByTagName "parsererror" xmlDoc); [ | apply keepsTimers_throw].
  destruct (documentElementsByTagName "channel" xmlDoc) as [ | channel others];
    [apply keepsTimers_throw | ].
  destruct (publisherInfoOf p channel) as [warnings info].
  apply keepsTimers_bind; [apply keepsTimers_logLines | ]. intros _.
  apply keepsTimers_ofResult.
Qed.

End PublisherInfoFacts.

(** X18 (publisher information fails softly).  [parsePublisherFeedInfo]
    never rejects and sets no timer.  Wherever the listing of the same
    feed, [parsePublisherFeedFromUrl], rejects (transport failure, status
    not OK, unparsable text, no channel), [parsePublisherFeedInfo]
    answers [null] and writes one line, which carries that error. *)
Theorem parsePublisherFeedInfo_fails_softly
        (p : Platform) (feedUrl : string) (st : PublisherState) :
  (exists outcome st',
      parsePublisherFeedInfo p feedUrl st = (Fulfilled outcome, st')
      /\ timersSet st' = timersSet st)
  /\ (forall e s1,
         parsePublisherFeedFromUrl p feedUrl (parserState st) = (Rejected e, s1) ->
         parsePublisherFeedInfo p feedUrl st
         = (Fulfilled None,
            {| clock := now s1;
               timersSet := timersSet st;
               written := written st ++ [ErrorParsingPublisherFeedInfo e] |})).
Proof.
  split.
  - unfold parsePublisherFeedInfo, tryCatchP, bindP, call.
    pose proof (keepsTimers_parsePublisherFeedInfoAttempt p feedUrl (parserState st))
      as Htimers.
    destruct (parsePublisherFeedInfoAttempt p feedUrl (parserState st)) as [[info | e] s1];
      cbn [snd] in Htimers.
    + eexists (Some info), _. split; [reflexivity | exact Htimers].
    + eexists None, _. split; [reflexivity | exact Htimers].
  - intros e s1 Hlisting.
    destruct (listing_rejects_early p feedUrl _ _ _ Hlisting) as (Hattempt & Htimers & Hconsole).
    unfold parsePublisherFeedInfo, tryCatchP, bindP, call. rewrite Hattempt.
    unfold logLineP, retP. cbn [clock timersSet written].
    rewrite Htimers, Hconsole. cbn [parserState timers console List.map].
    now rewrite app_nil_r.
Qed.

Lemma parsePublisherFeedInfo_fails_softly_witness :
  parsePublisherFeedInfo samplePlatform "https://feeds.example/missing.xml"
    initialPublisherState
  = (Fulfilled None,
     {| clock := 20;
        timersSet := [];
        written := [ErrorParsingPublisherFeedInfo
                      (Error "Failed to fetch publisher feed: 404")] |}).
Proof.
  exact (proj2 (parsePublisherFeedInfo_fails_softly samplePlatform
                  "https://feeds.example/missing.xml" initialPublisherState)
           (Error "Failed to fetch publisher feed: 404")
           {| now := 20; timers := []; console := [] |} eq_refl).
Defined.

Section PublisherAlbumFacts.
Variable p : Platform.

(** The aggregator fulfils, with no more albums than addresses. *)
Lemma aggregator_fulfils_bounded (feedUrls : list string) (st : TaskState) :
  exists albums st',
    parseMultipleFeedsInternal p feedUrls st = (Fulfilled albums, st')
    /\ List.length albums <= List.length feedUrls.
Proof.
  destruct (parseMultipleFeedsInternal_spec p feedUrls st)
    as (ws & st' & lines & Hrun & Hws & _).
  exists (concat (List.map windowAlbums ws)), st'. split; [exact Hrun | ].
  destruct (windows_outcomes p feedUrls _ ws Hws) as (outcomes & Hall & Halbums).
  rewrite windows_cover in Hall by (unfold batchSize; lia).
  rewrite Halbums, (Forall2_length Hall). apply albumsOf_length.
Qed.

Lemma filter_parserLines (Q : PublisherLogEntry -> bool) (lines : list LogEntry) :
  (forall entry, Q (ParserLine entry) = false) ->
  filter Q (List.map ParserLine lines) = [].
Proof.
  intros HQ. induction lines as [ | entry lines IH]; [reflexivity | ].
  cbn [List.map filter]. now rewrite HQ.
Qed.

Section Batches.
Variable musicFeedUrls : list string.
Variable batchSize delayMs : nat.

Local Abbreviation batchLine :=
  (fun i =>
     ProcessingPublisherBatch (i / batchSize + 1)
       ((List.length musicFeedUrls + batchSize - 1) / batchSize)
       (List.length (slice i (i + batchSize) musicFeedUrls))).

(** One batch: it cannot fail, and its handler writes nothing. *)
Lemma publisherBatch_spec (i : nat) (allAlbums : list RSSAlbum) (st : PublisherState) :
  exists batchAlbums st' lines,
    publisherBatch p musicFeedUrls batchSize delayMs i allAlbums st
    = (Fulfilled (allAlbums ++ batchAlbums), st')
    /\ List.length batchAlbums <= List.length (slice i (i + batchSize) musicFeedUrls)
    /\ written st' = written st ++ lines
    /\ filter isBatchError lines = []
    /\ filter isBatchStart lines = [batchLine i].
Proof.
  unfold publisherBatch. cbv zeta.
  unfold bindP at 1. unfold logLineP at 1.
  unfold bindP at 1. unfold tryCatchP at 1. unfold bindP at 1. unfold call at 1.
  match goal with
  | |- context [parseMultipleFeedsInternal p ?batch ?s] =>
      destruct (aggregator_fulfils_bounded batch s) as (batchAlbums & s1 & Hrun & Hbound)
  end.
  rewrite Hrun. unfold bindP at 1. unfold logLineP at 1. unfold retP at 1.
  exists batchAlbums.
  destruct (i + batchSize <? List.length musicFeedUrls);
    unfold bindP, sleepP, retP; cbn [written];
    eexists; eexists; (split; [reflexivity | split; [exact Hbound | ]]);
    cbn [written]; rewrite <- !app_assoc;
    (split; [reflexivity | ]);
    cbn [app filter isBatchError isBatchStart];
    rewrite !filter_app; cbn [filter isBatchError isBatchStart];
    rewrite !filter_parserLines by reflexivity; split; reflexivity.
Qed.

(** The loop: batch after batch. *)
Lemma publisherLoop_spec (indices : list nat) :
  forall allAlbums st,
  exists loaded st' lines,
    publisherLoop p musicFeedUrls batchSize delayMs indices allAlbums st
    = (Fulfilled (allAlbums ++ loaded), st')
    /\ List.length loaded
       <= List.length (concat (List.map (fun i => slice i (i + batchSize) musicFeedUrls)
                                 indices))
    /\ written st' = written st ++ lines
    /\ filter isBatchError lines = []
    /\ filter isBatchStart lines = List.map batchLine indices.
Proof.
  induction indices as [ | i indices IH]; intros allAlbums st; cbn [publisherLoop].
  - exists [], st, []. cbn. rewrite !app_nil_r. repeat split. apply le_n.
  - destruct (publisherBatch_spec i allAlbums st)
      as (batchAlbums & st1 & lines1 & Hone & Hbound1 & Hw1 & He1 & Hs1).
    destruct (IH (allAlbums ++ batchAlbums) st1)
      as (loaded & st2 & lines2 & Hrest & Hbound2 & Hw2 & He2 & Hs2).
    exists (batchAlbums ++ loaded), st2, (lines1 ++ lines2).
    unfold bindP. rewrite Hone, Hrest. cbn [List.map concat].
    repeat split.
    + now rewrite <- app_assoc.
    + rewrite !length_app. lia.
    + now rewrite Hw2, Hw1, <- app_assoc.
    + now rewrite filter_app, He1, He2.
    + now rewrite filter_app, Hs1, Hs2.
Qed.

End Batches.

End PublisherAlbumFacts.

Ltac filter_lines :=
  repeat first
    [ rewrite filter_app
    | rewrite filter_parserLines by reflexivity
    | progress cbn [app filter isBatchError isBatchStart] ].

(** X19 (albums of a publisher).  Once the listing of the publisher feed
    is there, [parsePublisherFeedAlbums] cannot fail: it fulfils with no
    more albums than the listing has items; the handler around a batch
    never writes its line; the batches it announces are those of the
    music feed addresses cut into windows of 5, or of 8 when there are
    more than 20 of them.  For an empty listing it answers the empty list
    and announces no batch. *)
Theorem parsePublisherFeedAlbums_loads_listed_feeds
        (p : Platform) (feedUrl : string) (st : PublisherState)
        (items : list RSSPublisherItem) (s1 : TaskState) :
  parsePublisherFeed p (UrlString feedUrl) (parserState st) = (Fulfilled items, s1) ->
  exists albums st' lines,
    parsePublisherFeedAlbums p feedUrl st = (Fulfilled albums, st')
    /\ List.length albums <= List.length items
    /\ written st' = written st ++ lines
    /\ filter isBatchError lines = []
    /\ filter isBatchStart lines
       = (let urls := List.map itemFeedUrl items in
          let size := if 20 <? List.length items then 8 else 5 in
          if List.length items =? 0 then []
          else
            List.map
              (fun i =>
                 ProcessingPublisherBatch (i / size + 1)
                   ((List.length items + size - 1) / size)
                   (List.length (slice i (i + size) urls)))
              (loopIndices (List.length items) size))
    /\ (items = [] -> albums = []).
Proof.
  intros Hlisting. unfold parsePublisherFeedAlbums.
  unfold bindP at 1. unfold logLineP at 1.
  unfold bindP at 1. unfold call at 1.
  change (parserState _) with (parserState st). rewrite Hlisting.
  destruct items as [ | item items].
  - cbn [List.length Nat.eqb]. unfold bindP, logLineP, retP. cbn [written].
    eexists [], _, _. split; [reflexivity | split; [apply le_n | ]].
    rewrite <- !app_assoc. split; [reflexivity | ].
    filter_lines. now repeat split.
  - set (publisherItems := item :: items).
    assert (Hsome : (List.length publisherItems =? 0) = false) by reflexivity.
    rewrite Hsome. cbv zeta. rewrite !length_map.
    set (size := if 20 <? List.length publisherItems then 8 else 5).
    assert (Hsize : 0 < size) by (subst size; destruct (20 <? _); lia).
    unfold bindP at 1. unfold logLineP at 1.
    unfold bindP at 1.
    match goal with
    | |- context [publisherLoop p ?urls size ?delayMs ?indices [] ?s] =>
        destruct (publisherLoop_spec p urls size delayMs indices [] s)
          as (loaded & st2 & lines & Hloop & Hbound & Hwritten & Herrors & Hstarts)
    end.
    rewrite ?length_map in Hstarts. rewrite Hloop. cbn [app].
    unfold bindP, logLineP, retP.
    exists loaded. eexists. eexists.
    split; [reflexivity | split; [ | split; [ | split; [ | split]]]].
    + rewrite <- (length_map itemFeedUrl publisherItems) in Hbound.
      rewrite windows_cover in Hbound by exact Hsize.
      now rewrite length_map in Hbound.
    + cbn [written]. rewrite Hwritten. cbn [written]. rewrite <- !app_assoc.
      reflexivity.
    + filter_lines. now rewrite Herrors.
    + filter_lines. rewrite Hstarts, app_nil_r. reflexivity.
    + discriminate.
Qed.

Lemma parsePublisherFeedAlbums_loads_listed_feeds_witness :
  exists albums st',
    parsePublisherFeedAlbums publisherPlatform "https://feeds.example/label.xml"
      initialPublisherState = (Fulfilled albums, st')
    /\ List.map title albums = ["Slow"]
    /\ List.length albums <= 2
    /\ filter isBatchError (written st') = []
    /\ filter isBatchStart (written st') = [ProcessingPublisherBatch 1 1 2].
Proof.
  destruct (parsePublisherFeed publisherPlatform (UrlString "https://feeds.example/label.xml")
              (parserState initialPublisherState)) as [[items | e] s1] eqn:Hlisting;
    [ | vm_compute in Hlisting; discriminate].
  destruct (parsePublisherFeedAlbums_loads_listed_feeds publisherPlatform
              "https://feeds.example/label.xml" initialPublisherState items s1 Hlisting)
    as (albums & st' & lines & Hrun & Hbound & Hwritten & Herrors & Hstarts & _).
  vm_compute in Hlisting. injection Hlisting as <- <-.
  exists albums, st'. split; [exact Hrun | ].
  cbn [initialPublisherState written app] in Hwritten. rewrite Hwritten.
  split; [ | split; [exact Hbound | split; [exact Herrors | exact Hstarts]]].
  vm_compute in Hrun. injection Hrun as <- _. reflexivity.
Defined.

(** X20 (the listing is not guarded).  [parsePublisherFeedAlbums] does
    not catch a failure of the listing: when [parsePublisherFeedFromUrl]
    rejects for the feed address (other than the catalogue alias), the
    call rejects with the same error, having written its opening line
    only. *)
Theorem parsePublisherFeedAlbums_rejects_with_listing
        (p : Platform) (feedUrl : string) (st : PublisherState) (e : Exn) (s1 : TaskState) :
  String.eqb feedUrl "iroh-aggregated" = false ->
  parsePublisherFeedFromUrl p feedUrl (parserState st) = (Rejected e, s1) ->
  parsePublisherFeedAlbums p feedUrl st
  = (Rejected e,
     {| clock := now s1;
        timersSet := timersSet st;
        written := written st ++ [ParsingPublisherFeedForAlbums feedUrl] |}).
Proof.
  intros Halias Hlisting.
  destruct (listing_rejects_early p feedUrl _ _ _ Hlisting) as (_ & Htimers & Hconsole).
  unfold parsePublisherFeedAlbums.
  unfold bindP at 1. unfold logLineP at 1.
  unfold bindP at 1. unfold call at 1.
  change (parserState _) with (parserState st).
  unfold parsePublisherFeed. rewrite Halias.
  unfold bind at 1. unfold tryCatch at 1. unfold ret at 1.
  rewrite Hlisting. cbn [written].
  rewrite Htimers, Hconsole. cbn [parserState timers console List.map].
  now rewrite app_nil_r.
Qed.

Lemma parsePublisherFeedAlbums_rejects_with_listing_witness :
  parsePublisherFeedAlbums samplePlatform "https://feeds.example/down.xml"
    initialPublisherState
  = (Rejected (TypeError "Failed to fetch"),
     {| clock := 30;
        timersSet := [];
        written := [ParsingPublisherFeedForAlbums "https://feeds.example/down.xml"] |}).
Proof.
  exact (parsePublisherFeedAlbums_rejects_with_listing samplePlatform
           "https://feeds.example/down.xml" initialPublisherState
           (TypeError "Failed to fetch")
           {| now := 30; timers := []; console := [] |} eq_refl eq_refl).
Defined.

(** ** The handler of the aggregator *)

Section HandlerFacts.
Variable p : Platform.

Local Abbreviation quiet := (fun entry => negb (isHandlerLine entry)).

Lemma writesOnly_weaken {A : Type} (Q Q' : LogEntry -> bool) (t : Task A) :
  (forall entry, Q entry = true -> Q' entry = true) ->
  writesOnly Q t -> writesOnly Q' t.
Proof.
  intros Himpl Ht st. destruct (Ht st) as (lines & Hlines & Hkind).
  exists lines. split; [exact Hlines | ].
  eapply Forall_impl; [ | exact Hkind]. exact Himpl.
Qed.

Lemma writesOnly_allSettled {A : Type} (Q : LogEntry -> bool) (promises : list (Task A)) :
  Forall (writesOnly Q) promises -> writesOnly Q (allSettled p promises).
Proof.
  intros Hall st. unfold allSettled. cbn [snd console].
  eexists. split; [reflexivity | ].
  eapply Permutation_Forall; [symmetry; apply joined_permutation | ].
  induction Hall as [ | t promises Ht _ IH]; cbn [List.map concat]; [constructor | ].
  apply Forall_app. split; [ | exact IH].
  unfold startTask. destruct (Ht (threadStart (now st))) as (lines & Hlines & Hkind).
  rewrite Hlines. exact Hkind.
Qed.

Lemma writesOnly_parseInBatch (url : string) : writesOnly quiet (parseInBatch p url).
Proof.
  intros st. rewrite parseInBatch_parseAlbumFeed.
  set (onRetry := Some (fun attempt error =>
                          message <- errorMessage error ;;
                          logLine (RetryingFeedParse attempt url message))).
  assert (Hretry : writesOnly quiet
                     (withRetry (parseAlbumFeedAttempt p url) 3 1000 onRetry)).
  { apply (writesOnly_weaken isAttemptLine).
    - intros entry Hentry. now destruct entry.
    - unfold withRetry. apply writesOnly_retryLoop.
      + apply writesOnly_parseAlbumFeedAttempt.
      + intros attempt e. cbn [notify onRetry].
        apply writesOnly_bind; [apply writesOnly_errorMessage | ]. intros message.
        now apply writesOnly_logLine. }
  revert st. unfold parseAlbumFeed. fold onRetry.
  apply writesOnly_tryCatch.
  - apply writesOnly_bind; [exact Hretry | ]. intros album. apply writesOnly_ret.
  - intros e. apply writesOnly_bind; [now apply writesOnly_logLine | ]. intros _.
    apply writesOnly_ret.
Qed.

Lemma writesOnly_processBatch (feedUrls : list string) (i : nat) (results : list RSSAlbum) :
  writesOnly quiet (processBatch p feedUrls i results).
Proof.
  unfold processBatch. cbv zeta.
  apply writesOnly_bind; [now apply writesOnly_logLine | ]. intros _.
  apply writesOnly_bind.
  { apply writesOnly_allSettled, Forall_forall. intros t Hin.
    apply in_map_iff in Hin. destruct Hin as (url & <- & _).
    apply writesOnly_parseInBatch. }
  intros batchResults.
  apply writesOnly_bind.
  { apply writesOnly_logLines.
    eapply Forall_impl; [ | apply reportFailures_kind].
    intros entry Hentry. now destruct entry. }
  intros _.
  apply writesOnly_bind; [ | intros _; apply writesOnly_ret].
  destruct (_ <? _); [apply writesOnly_sleep | apply writesOnly_ret].
Qed.

Lemma writesOnly_batchLoop (feedUrls : list string) (indices : list nat) :
  forall results, writesOnly quiet (batchLoop p feedUrls indices results).
Proof.
  induction indices as [ | i indices IH]; intros results; cbn [batchLoop].
  - apply writesOnly_ret.
  - apply writesOnly_bind; [apply writesOnly_processBatch | exact IH].
Qed.

End HandlerFacts.

(** X21 (the handler of the aggregator is never reached).  Each promise
    of a window settles exactly as [parseAlbumFeed] does for its address:
    the retry around it makes one attempt, and the handler around that
    is never entered.  So the aggregator writes none of the lines of
    that handler. *)
Theorem aggregator_handler_never_runs (p : Platform) :
  (forall url st, parseInBatch p url st = parseAlbumFeed p url st)
  /\ (forall feedUrls st,
         exists lines,
           console (snd (parseMultipleFeedsInternal p feedUrls st)) = console st ++ lines
           /\ filter isHandlerLine lines = []).
Proof.
  split; [apply parseInBatch_parseAlbumFeed | ].
  intros feedUrls st.
  assert (Hquiet : writesOnly (fun entry => negb (isHandlerLine entry))
                     (parseMultipleFeedsInternal p feedUrls)).
  { unfold parseMultipleFeedsInternal.
    apply writesOnly_bind; [now apply writesOnly_logLine | ]. intros _.
    apply writesOnly_bind; [apply writesOnly_batchLoop | ]. intros results.
    apply writesOnly_bind; [now apply writesOnly_logLine | ]. intros _.
    apply writesOnly_ret. }
  destruct (Hquiet st) as (lines & Hlines & Hkind).
  exists lines. split; [exact Hlines | ].
  clear Hlines. induction Hkind as [ | entry lines Hentry _ IH]; [reflexivity | ].
  cbn [filter]. apply negb_true_iff in Hentry. now rewrite Hentry.
Qed.

(** ** Requests *)

(** X22 (requests of the browser go through the proxy).  In the browser
    every feed is requested at an address of the same-origin proxy
    [/api/fetch-rss]: the feed address itself when it already is one, and
    the proxy address with the encoded feed address as its [url]
    parameter otherwise.  An address obtained in this way is requested as
    it is: nothing is wrapped twice.  On the server the feed address is
    requested directly. *)
Theorem fetchFeed_goes_through_proxy (p : Platform) (feedUrl : string) :
  (isServer p = false ->
   exists target,
     fetchFeed p feedUrl = fetch p target
     /\ startsWith "/api/fetch-rss" target = true
     /\ (startsWith "/api/fetch-rss" feedUrl = true -> target = feedUrl)
     /\ (startsWith "/api/fetch-rss" feedUrl = false ->
         target = ("/api/fetch-rss?url=" ++ encodeURIComponent p feedUrl)%string)
     /\ fetchFeed p target = fetch p target)
  /\ (isServer p = true -> fetchFeed p feedUrl = fetch p feedUrl).
Proof.
  split; intros Hserver; unfold fetchFeed; rewrite Hserver; [ | reflexivity].
  destruct (startsWith "/api/fetch-rss" feedUrl) eqn:Hproxied.
  - exists feedUrl. rewrite Hproxied. now repeat split.
  - exists ("/api/fetch-rss?url=" ++ encodeURIComponent p feedUrl)%string.
    assert (Htarget : startsWith "/api/fetch-rss"
                        ("/api/fetch-rss?url=" ++ encodeURIComponent p feedUrl) = true)
      by reflexivity.
    rewrite Htarget. repeat split; trivial; discriminate.
Qed.

Lemma fetchFeed_goes_through_proxy_witness :
  exists target,
    fetchFeed browserPlatform "https://feeds.example/slow.xml" = fetch browserPlatform target
    /\ target = "/api/fetch-rss?url=https://feeds.example/slow.xml".
Proof.
  destruct (proj1 (fetchFeed_goes_through_proxy browserPlatform
                     "https://feeds.example/slow.xml") eq_refl)
    as (target & Hrequest & _ & _ & Hwrapped & _).
  exists target. split; [exact Hrequest | ]. now apply Hwrapped.
Defined.

(** ** Feeds that answer but cannot be parsed *)

Section UnparsableFacts.
Variable p : Platform.

(** The attempt, once the response is there. *)
Lemma parseAlbumFeedAttempt_response
      (feedUrl : string) (response : Response) (s : TaskState) :
  snd (network p (requestUrl p feedUrl) (now s)) = HttpResponse response ->
  ok response = true ->
  exists s1,
    now s <= now s1 /\ timers s1 = timers s
    /\ console s1 = console s ++ [ParsingAlbumFeed feedUrl]
    /\ parseAlbumFeedAttempt p feedUrl s
       = (let xmlText := body response in
          if isEmpty xmlText || (String.length (trim xmlText) =? 0)
          then throw (Error "Empty response from RSS feed")
          else if negb (includesChar "<" xmlText) || negb (includesChar ">" xmlText)
          then throw (Error "Response is not valid XML")
          else
            xmlDoc <- parseXmlChecked p xmlText ;;
            let '(lines, extracted) := extractAlbum (extractor p) xmlDoc in
            logLines lines ;;
            album <- ofResult extracted ;;
            logLine (ParsedFeed feedUrl (List.length (tracks album))) ;;
            ret album) s1.
Proof.
  intros Hnetwork Hok. unfold parseAlbumFeedAttempt.
  unfold bind at 1. unfold logLine at 1.
  unfold bind at 1. unfold tryCatch at 1.
  rewrite fetchFeed_request. unfold fetch at 1. cbn [now timers console].
  destruct (network p (requestUrl p feedUrl) (now s)) as [latency answer].
  cbn [snd] in Hnetwork. subst answer. rewrite Hok. cbn [negb].
  eexists. split; [ | split; [ | split; [ | reflexivity]]]; cbn [now timers console];
    [lia | reflexivity | reflexivity].
Qed.

Lemma blank_checks (text : string) :
  trim text = EmptyString ->
  isEmpty text || (String.length (trim text) =? 0) = true.
Proof. intros ->. apply orb_true_r. Qed.

End UnparsableFacts.

(** X23 (a feed that answers with something that is no feed).  When
    every request for the feed gets the same response with an OK status,
    [parseAlbumFeed] gives the feed up, after three attempts and the
    waits of 1000 ms and 2000 ms, with [null] and with the message that
    names the defect: a blank text; a text without [<] or without [>];
    a text the XML parser throws on; a document with a [parsererror]
    element, whose message is wrapped a second time by the handler
    around the parser; a document without channel. *)
Theorem parseAlbumFeed_gives_up_unparsable_feed
        (p : Platform) (feedUrl : string) (st : TaskState) (response : Response) :
  (forall time, snd (network p (requestUrl p feedUrl) time) = HttpResponse response) ->
  ok response = true ->
  (trim (body response) = EmptyString ->
   givesUpWith p feedUrl st "Empty response from RSS feed")
  /\ (trim (body response) <> EmptyString ->
      includesChar "<" (body response) && includesChar ">" (body response) = false ->
      givesUpWith p feedUrl st "Response is not valid XML")
  /\ (trim (body response) <> EmptyString ->
      includesChar "<" (body response) && includesChar ">" (body response) = true ->
      (forall e,
          parseFromString p (body response) = inl e ->
          givesUpWith p feedUrl st
            ("Failed to parse XML content: " ++ messageOr "Parse error" e))
      /\ (forall xmlDoc parserError others,
             parseFromString p (body response) = inr xmlDoc ->
             documentElementsByTagName "parsererror" xmlDoc = parserError :: others ->
             givesUpWith p feedUrl st
               ("Failed to parse XML content: Invalid XML format: "
                ++ textContent parserError))
      /\ (forall xmlDoc,
             parseFromString p (body response) = inr xmlDoc ->
             documentElementsByTagName "parsererror" xmlDoc = [] ->
             documentElementsByTagName "channel" xmlDoc = [] ->
             givesUpWith p feedUrl st "Invalid RSS feed: no channel found")).
Proof.
  intros Hnetwork Hok.
  assert (Hattempt : forall message,
             (forall s1,
                 (let xmlText := body response in
                  if isEmpty xmlText || (String.length (trim xmlText) =? 0)
                  then throw (Error "Empty response from RSS feed")
                  else if negb (includesChar "<" xmlText) || negb (includesChar ">" xmlText)
                  then throw (Error "Response is not valid XML")
                  else
                    xmlDoc <- parseXmlChecked p xmlText ;;
                    let '(lines, extracted) := extractAlbum (extractor p) xmlDoc in
                    logLines lines ;;
                    album <- ofResult extracted ;;
                    logLine (ParsedFeed feedUrl (List.length (tracks album))) ;;
                    ret album) s1
                 = (Rejected (Error message), s1)) ->
             givesUpWith p feedUrl st message).
  { intros message Hfails. apply parseAlbumFeed_gives_up. intros s.
    destruct (parseAlbumFeedAttempt_response p feedUrl response s (Hnetwork (now s)) Hok)
      as (s1 & Hnow & Htimers & Hconsole & Hrun).
    exists s1. rewrite Hrun, Hfails. now repeat split. }
  split; [ | split].
  - intros Hblank. apply Hattempt. intros s1. cbv zeta.
    now rewrite (blank_checks _ Hblank).
  - intros Hnonblank Hbrackets. apply Hattempt. intros s1. cbv zeta.
    rewrite (nonblank_checks _ Hnonblank).
    apply andb_false_iff in Hbrackets.
    destruct Hbrackets as [-> | ->]; [reflexivity | ].
    now rewrite orb_true_r.
  - intros Hnonblank Hbrackets.
    apply andb_true_iff in Hbrackets. destruct Hbrackets as [Hlt Hgt].
    split; [ | split].
    + intros e Hparse. apply Hattempt. intros s1. cbv zeta.
      rewrite (nonblank_checks _ Hnonblank), Hlt, Hgt. cbn [negb orb].
      unfold bind at 1. unfold parseXmlChecked, tryCatch. unfold bind at 1.
      now rewrite Hparse.
    + intros xmlDoc parserError others Hparse Herror. apply Hattempt. intros s1. cbv zeta.
      rewrite (nonblank_checks _ Hnonblank), Hlt, Hgt. cbn [negb orb].
      unfold bind at 1. unfold parseXmlChecked, tryCatch. unfold bind at 1.
      rewrite Hparse. cbn [ofResult]. unfold ret at 1. now rewrite Herror.
    + intros xmlDoc Hparse Hclean Hchannel. apply Hattempt. intros s1. cbv zeta.
      rewrite (nonblank_checks _ Hnonblank), Hlt, Hgt. cbn [negb orb].
      unfold bind at 1. unfold parseXmlChecked, tryCatch. unfold bind at 1.
      rewrite Hparse. cbn [ofResult]. unfold ret at 1. rewrite Hclean. unfold ret at 1.
      unfold extractAlbum. rewrite Hchannel.
      unfold bind at 1. unfold logLines at 1. unfold bind at 1. cbn [ofResult throw].
      rewrite app_nil_r. now destruct s1.
Qed.

Lemma parseAlbumFeed_gives_up_unparsable_feed_witness :
  givesUpWith samplePlatform "https://feeds.example/broken.xml" initialState
    "Failed to parse XML content: Invalid XML format: mismatched tag"
  /\ givesUpWith samplePlatform "https://feeds.example/empty.xml" initialState
       "Invalid RSS feed: no channel found".
Proof.
  split.
  - apply (proj1 (proj2 (proj2 (proj2
             (parseAlbumFeed_gives_up_unparsable_feed samplePlatform
                "https://feeds.example/broken.xml" initialState
                {| ok := true; status := 200; statusText := "OK"; body := "<broken>" |}
                (fun time => eq_refl) eq_refl)) ltac:(discriminate) eq_refl))
            (el "parsererror" [Text "mismatched tag"]) (el "parsererror" [Text "mismatched tag"])
            []);
      reflexivity.
  - apply (proj2 (proj2 (proj2 (proj2
             (parseAlbumFeed_gives_up_unparsable_feed samplePlatform
                "https://feeds.example/empty.xml" initialState
                {| ok := true; status := 200; statusText := "OK"; body := "<rss/>" |}
                (fun time => eq_refl) eq_refl)) ltac:(discriminate) eq_refl))
            (el "rss" []));
      reflexivity.
Defined.

(** X24 (a healthy feed).  When the first request is answered with a text
    that passes the checks and from which the album is extracted,
    [parseAlbumFeed] returns that album after this one request: it sets
    no timer, the clock advances by the latency of the request, and the
    console receives the opening line, the lines of the extraction and
    the closing line with the number of tracks. *)
Theorem parseAlbumFeed_healthy_feed
        (p : Platform) (feedUrl : string) (st : TaskState) (latency : nat)
        (response : Response) (xmlDoc : Node) (lines : list LogEntry) (album : RSSAlbum) :
  network p (requestUrl p feedUrl) (now st) = (latency, HttpResponse response) ->
  ok response = true ->
  trim (body response) <> EmptyString ->
  includesChar "<" (body response) = true ->
  includesChar ">" (body response) = true ->
  parseFromString p (body response) = inr xmlDoc ->
  documentElementsByTagName "parsererror" xmlDoc = [] ->
  extractAlbum (extractor p) xmlDoc = (lines, inr album) ->
  parseAlbumFeed p feedUrl st
  = (Fulfilled (Some album),
     {| now := now st + latency;
        timers := timers st;
        console := console st
                   ++ ParsingAlbumFeed feedUrl
                      :: lines ++ [ParsedFeed feedUrl (List.length (tracks album))] |}).
Proof.
  intros Hnet Hok Hnonblank Hlt Hgt Hparse Hclean Hextract.
  unfold parseAlbumFeed, withRetry. cbn [retryLoop].
  assert (Hattempt :
            parseAlbumFeedAttempt p feedUrl st
            = (Fulfilled album,
               {| now := now st + latency;
                  timers := timers st;
                  console := console st
                             ++ ParsingAlbumFeed feedUrl
                                :: lines
                                ++ [ParsedFeed feedUrl (List.length (tracks album))] |})).
  { unfold parseAlbumFeedAttempt.
    unfold bind at 1. unfold logLine at 1.
    unfold bind at 1. unfold tryCatch at 1.
    rewrite fetchFeed_request. unfold fetch at 1. cbn [now]. rewrite Hnet.
    rewrite Hok. cbn [negb].
    rewrite (nonblank_checks _ Hnonblank), Hlt, Hgt. cbn [negb orb].
    unfold bind at 1. unfold parseXmlChecked, tryCatch.
    unfold bind at 1. rewrite Hparse. cbn [ofResult]. unfold ret at 1.
    rewrite Hclean. unfold ret at 1.
    rewrite Hextract.
    unfold bind at 1. unfold logLines at 1.
    unfold bind at 1. cbn [ofResult]. unfold ret at 1.
    unfold bind at 1. unfold logLine at 1.
    unfold ret. cbn [now timers console].
    rewrite <- !app_assoc. reflexivity. }
  unfold tryCatch, bind. now rewrite Hattempt.
Qed.

Lemma parseAlbumFeed_healthy_feed_witness :
  exists album,
    parseAlbumFeed samplePlatform "https://feeds.example/fast.xml" initialState
    = (Fulfilled (Some album),
       {| now := 100;
          timers := [];
          console := [ ParsingAlbumFeed "https://feeds.example/fast.xml";
                       NoCoverArt "Fast";
                       FoundItems 0;
                       ParsedFeed "https://feeds.example/fast.xml" 0 ] |})
    /\ title album = "Fast".
Proof.
  destruct (extractAlbum sampleExtractor (feedDocument "Fast")) as [lines [e | album]] eqn:Hrun;
    [vm_compute in Hrun; discriminate | ].
  exists album.
  rewrite (parseAlbumFeed_healthy_feed samplePlatform "https://feeds.example/fast.xml"
             initialState 100
             {| ok := true; status := 200; statusText := "OK"; body := "<fast/>" |}
             (feedDocument "Fast") lines album
             eq_refl eq_refl ltac:(discriminate) eq_refl eq_refl eq_refl eq_refl Hrun).
  vm_compute in Hrun. injection Hrun as <- <-. split; reflexivity.
Defined.

(** ** Podcasting 2.0 features *)

Section FeatureFacts.

Lemma truthy_is_defined (v : JsValue) : isTruthy v = true -> isDefined v = true.
Proof. destruct v; try reflexivity; discriminate. Qed.

Lemma in_pushIf (name : string) (v : bool) (feature : string) :
  In name (pushIf v feature) <-> v = true /\ name = feature.
Proof.
  destruct v; cbn; split.
  - intros [<- | []]. now split.
  - intros [_ ->]. now left.
  - intros [].
  - intros [Hfalse _]. discriminate Hfalse.
Qed.

Lemma existsb_truthy (read : PC20Item -> JsValue) (l : list PC20Item) :
  existsb (fun item => isTruthy (read item)) l = true
  <-> exists item, In item l /\ isTruthy (read item) = true.
Proof. apply existsb_exists. Qed.

Lemma features_membership (feed : PC20Feed) (name : string) :
  In name (getPC20Features feed)
  <-> (isTruthy (podcastLocked feed) = true /\ name = "Locked")
      \/ (isTruthy (podcastFunding feed) = true /\ name = "Funding")
      \/ (isTruthy (podcastValue feed) = true /\ name = "Value4Value")
      \/ (isTruthy (podcastGuid feed) = true /\ name = "GUID")
      \/ (isTruthy (podcastPerson feed) = true /\ name = "Person Tags")
      \/ (isTruthy (podcastLocation feed) = true /\ name = "Location")
      \/ (existsb (fun item => isTruthy (podcastChapters item)) (items feed) = true
          /\ name = "Chapters")
      \/ (existsb (fun item => isTruthy (podcastTranscript item)) (items feed) = true
          /\ name = "Transcripts")
      \/ (existsb (fun item => isTruthy (podcastSoundbite item)) (items feed) = true
          /\ name = "Soundbites").
Proof.
  unfold getPC20Features. cbv zeta.
  rewrite !in_app_iff, !in_pushIf. tauto.
Qed.

End FeatureFacts.

(** X25 (the list of features).  [getPC20Features] lists each feature at
    most once and in a fixed order: its result is the list Locked,
    Funding, Value4Value, GUID, Person Tags, Location, Chapters,
    Transcripts, Soundbites with some names left out.  A feature of the
    channel is listed exactly when the property of the feed is truthy, a
    feature of the items exactly when the property is truthy on some
    item. *)
Theorem getPC20Features_fixed_order (feed : PC20Feed) :
  isSubsequence (getPC20Features feed) (channelFeatures ++ itemFeatures) = true
  /\ (In "Locked" (getPC20Features feed) <-> isTruthy (podcastLocked feed) = true)
  /\ (In "Funding" (getPC20Features feed) <-> isTruthy (podcastFunding feed) = true)
  /\ (In "Value4Value" (getPC20Features feed) <-> isTruthy (podcastValue feed) = true)
  /\ (In "GUID" (getPC20Features feed) <-> isTruthy (podcastGuid feed) = true)
  /\ (In "Person Tags" (getPC20Features feed) <-> isTruthy (podcastPerson feed) = true)
  /\ (In "Location" (getPC20Features feed) <-> isTruthy (podcastLocation feed) = true)
  /\ (In "Chapters" (getPC20Features feed)
      <-> exists item, In item (items feed) /\ isTruthy (podcastChapters item) = true)
  /\ (In "Transcripts" (getPC20Features feed)
      <-> exists item, In item (items feed) /\ isTruthy (podcastTranscript item) = true)
  /\ (In "Soundbites" (getPC20Features feed)
      <-> exists item, In item (items feed) /\ isTruthy (podcastSoundbite item) = true).
Proof.
  rewrite <- !existsb_truthy. split.
  - unfold getPC20Features. cbv zeta.
    destruct (isTruthy (podcastLocked feed)), (isTruthy (podcastFunding feed)),
      (isTruthy (podcastValue feed)), (isTruthy (podcastGuid feed)),
      (isTruthy (podcastPerson feed)), (isTruthy (podcastLocation feed)),
      (existsb (fun item => isTruthy (podcastChapters item)) (items feed)),
      (existsb (fun item => isTruthy (podcastTranscript item)) (items feed)),
      (existsb (fun item => isTruthy (podcastSoundbite item)) (items feed));
      reflexivity.
  - rewrite !features_membership.
    repeat split; intros H;
      try (decompose [or and] H; first [assumption | discriminate]);
      tauto.
Qed.

Lemma getPC20Features_fixed_order_witness :
  getPC20Features chaptersOnlyFeed = ["Chapters"]
  /\ In "Chapters" (getPC20Features chaptersOnlyFeed).
Proof.
  split; [reflexivity | ].
  apply (proj2 (proj1 (proj2 (proj2 (proj2 (proj2 (proj2 (proj2 (proj2
           (getPC20Features_fixed_order chaptersOnlyFeed)))))))))).
  exists {| podcastChapters := ValueObject;
            podcastTranscript := ValueUndefined;
            podcastSoundbite := ValueUndefined |}.
  split; [right; left; reflexivity | reflexivity].
Defined.

(** X26 (features and extensions).  A feature of the channel that
    [getPC20Features] lists makes [hasPC20Extensions] answer [true]: a
    truthy property is a defined one.  So for a feed without extensions
    [getPC20Features] lists features of the items only.
    [hasPC20Extensions] does not look at the items. *)
Theorem listed_channel_feature_has_extensions (feed : PC20Feed) :
  (forall name,
      In name channelFeatures -> In name (getPC20Features feed) ->
      hasPC20Extensions feed = true)
  /\ (hasPC20Extensions feed = false ->
      isSubsequence (getPC20Features feed) itemFeatures = true)
  /\ (forall others,
         hasPC20Extensions
           {| podcastLocked := podcastLocked feed;
              podcastFunding := podcastFunding feed;
              podcastValue := podcastValue feed;
              podcastGuid := podcastGuid feed;
              podcastPerson := podcastPerson feed;
              podcastLocation := podcastLocation feed;
              items := others |}
         = hasPC20Extensions feed).
Proof.
  assert (Hnone : hasPC20Extensions feed = false ->
                  isTruthy (podcastLocked feed) = false
                  /\ isTruthy (podcastFunding feed) = false
                  /\ isTruthy (podcastValue feed) = false
                  /\ isTruthy (podcastGuid feed) = false
                  /\ isTruthy (podcastPerson feed) = false
                  /\ isTruthy (podcastLocation feed) = false).
  { unfold hasPC20Extensions. cbn [existsb]. intros Hfalse.
    repeat (apply orb_false_iff in Hfalse; destruct Hfalse as [? Hfalse]).
    repeat split;
      match goal with
      | |- isTruthy ?v = false =>
          destruct (isTruthy v) eqn:Htruthy; [ | reflexivity];
          apply truthy_is_defined in Htruthy; congruence
      end. }
  split; [ | split; [ | reflexivity]].
  - intros name Hchannel Hlisted.
    destruct (hasPC20Extensions feed) eqn:Hextensions; [reflexivity | ].
    destruct (Hnone eq_refl) as (H1 & H2 & H3 & H4 & H5 & H6).
    apply features_membership in Hlisted.
    rewrite H1, H2, H3, H4, H5, H6 in Hlisted.
    cbn [channelFeatures In] in Hchannel.
    decompose [or and] Hlisted; try discriminate; subst name;
      decompose [or] Hchannel; try discriminate; contradiction.
  - intros Hextensions.
    destruct (Hnone Hextensions) as (H1 & H2 & H3 & H4 & H5 & H6).
    unfold getPC20Features. cbv zeta. rewrite H1, H2, H3, H4, H5, H6.
    cbn [pushIf app].
    destruct (existsb _ _), (existsb _ _), (existsb _ _); reflexivity.
Qed.

Lemma listed_channel_feature_has_extensions_witness :
  hasPC20Extensions transcriptOnlyFeed = false
  /\ getPC20Features transcriptOnlyFeed = ["Transcripts"]
  /\ isSubsequence (getPC20Features transcriptOnlyFeed) itemFeatures = true.
Proof.
  split; [reflexivity | split; [reflexivity | ]].
  exact (proj1 (proj2 (listed_channel_feature_has_extensions transcriptOnlyFeed)) eq_refl).
Defined.

(** ** The failure report of a window *)

Section ReportFacts.

Lemma namedFeeds_app (l1 l2 : list LogEntry) :
  namedFeeds (l1 ++ l2) = namedFeeds l1 ++ namedFeeds l2.
Proof. apply flat_map_app. Qed.

Lemma forEachIndexed_names (batch : list string)
      (failed : list (Outcome (option RSSAlbum))) :
  Forall (fun result => isFailed result = true) failed ->
  forall index,
    let lines :=
      forEachIndexed
        (fun result index =>
           match result with
           | Rejected reason => [FeedRejected (nth_error batch index) reason]
           | Fulfilled None => [FeedReturnedNull (nth_error batch index)]
           | Fulfilled (Some _) => []
           end)
        index failed in
    namedFeeds lines = List.map (nth_error batch) (seq index (List.length failed))
    /\ List.length lines = List.length failed.
Proof.
  cbv zeta. induction 1 as [ | result failed Hresult _ IH]; intros index; [now split | ].
  destruct (IH (S index)) as [IHnames IHlength].
  cbn [forEachIndexed List.length seq List.map].
  rewrite namedFeeds_app, length_app, IHnames, IHlength.
  destruct result as [[album | ] | e]; [discriminate Hresult | split; reflexivity ..].
Qed.

End ReportFacts.

(** X27 (which feeds a failure report names).  The report of a window
    with failures has one summary line, one line for each of the first
    three failures and, beyond three, one line with the number of the
    others: five lines at most.  The address named for the failure at
    position [k] of the failures is the address at position [k] of the
    window, so the report always names the first addresses of the window,
    whichever feeds failed.  Without failure nothing is reported. *)
Theorem reportFailures_names_first_addresses
        (batch : list string) (batchNumber : nat)
        (failed : list (Outcome (option RSSAlbum))) :
  Forall (fun result => isFailed result = true) failed ->
  namedFeeds (reportFailures batch batchNumber failed)
  = List.map (nth_error batch) (seq 0 (Nat.min 3 (List.length failed)))
  /\ List.length (reportFailures batch batchNumber failed) <= 5
  /\ (failed = [] <-> reportFailures batch batchNumber failed = []).
Proof.
  intros Hfailed. unfold reportFailures.
  destruct failed as [ | result failed]; [cbn; repeat split; lia | ].
  set (all := result :: failed) in *.
  assert (Hsome : (0 <? List.length all) = true) by reflexivity.
  rewrite Hsome.
  assert (Hfirst : Forall (fun r => isFailed r = true) (firstn 3 all))
    by (rewrite <- (firstn_skipn 3 all) in Hfailed;
        apply Forall_app in Hfailed; exact (proj1 Hfailed)).
  destruct (forEachIndexed_names batch (firstn 3 all) Hfirst 0) as [Hnames Hlength].
  rewrite length_firstn in Hnames, Hlength.
  split; [ | split].
  - cbn [namedFeeds flat_map app]. fold (namedFeeds).
    change (flat_map _ ?l) with (namedFeeds l).
    rewrite namedFeeds_app, Hnames.
    destruct (3 <? List.length all); cbn; now rewrite app_nil_r.
  - cbn [List.length]. rewrite length_app, Hlength.
    destruct (3 <? List.length all); cbn [List.length]; lia.
  - split; discriminate.
Qed.

Lemma reportFailures_names_first_addresses_witness :
  reportFailures ["a.xml"; "b.xml"; "c.xml"; "d.xml"] 1 [Fulfilled None]
  = [BatchFailures 1 1; FeedReturnedNull (Some "a.xml")]
  /\ namedFeeds (reportFailures ["a.xml"; "b.xml"; "c.xml"; "d.xml"] 1 [Fulfilled None])
     = [Some "a.xml"].
Proof.
  split; [reflexivity | ].
  apply (reportFailures_names_first_addresses
           ["a.xml"; "b.xml"; "c.xml"; "d.xml"] 1 [Fulfilled None]).
  repeat constructor.
Defined.

(** ** Attempts made by the aggregator *)

Section AttemptFacts.
Variable p : Platform.

Local Abbreviation silent := (fun entry => isNoAnnouncement entry = true).

Lemma attemptedFeeds_app (l1 l2 : list LogEntry) :
  attemptedFeeds (l1 ++ l2) = attemptedFeeds l1 ++ attemptedFeeds l2.
Proof. apply flat_map_app. Qed.

Lemma attemptedFeeds_silent (lines : list LogEntry) :
  Forall silent lines -> attemptedFeeds lines = [].
Proof.
  induction 1 as [ | entry lines Hentry _ IH]; [reflexivity | ].
  unfold attemptedFeeds in *. cbn [flat_map]. rewrite IH.
  now destruct entry.
Qed.

Lemma normalizeDuration_silent (duration : string) (trackTitle : option string) :
  Forall silent (snd (normalizeDuration duration trackTitle)).
Proof.
  unfold normalizeDuration. cbv zeta.
  repeat match goal with
         | |- Forall _ (snd (if ?c then _ else _)) => destruct c
         | |- Forall _ (snd (match ?x with _ => _ end)) => destruct x
         | |- Forall _ (snd (_, match ?x with _ => _ end)) => destruct x
         | |- Forall _ (snd (_, if ?c then _ else _)) => destruct c
         end;
    cbn [snd]; repeat constructor.
Qed.

Lemma extractTracksFrom_silent (items : list Node) :
  forall k, Forall silent (flat_map snd (extractTracksFrom k items)).
Proof.
  induction items as [ | item items IH]; intros k; cbn [extractTracksFrom flat_map].
  - constructor.
  - apply Forall_app. split; [ | apply IH].
    unfold extractTrack.
    pose proof (normalizeDuration_silent (rawDuration item)
                  (Some (orDefault (firstText "title" item) ("Track " ++ ofNat (k + 1)))))
      as Hlines.
    destruct (normalizeDuration _ _) as [normalized converted]. cbn [snd] in *.
    apply Forall_app. split; [exact Hlines | now repeat constructor].
Qed.

Lemma extractAlbum_silent (x : Extractor) (xmlDoc : Node) :
  Forall silent (fst (extractAlbum x xmlDoc)).
Proof.
  unfold extractAlbum.
  destruct (documentElementsByTagName "channel" xmlDoc) as [ | channel others];
    [constructor | ].
  assert (Hwarnings : Forall silent
                        (fst (extractCoverArt x channel
                                (documentElementsByTagName "item" xmlDoc)))).
  { unfold extractCoverArt.
    repeat match goal with
           | |- Forall _ (fst (match ?c with _ => _ end)) => destruct c
           | |- Forall _ (fst (let (_, _) := ?c in _)) => destruct c
           end;
      cbn [fst]; repeat constructor. }
  destruct (extractCoverArt x channel _) as [warnings [e | art]]; cbn [fst] in *;
    [exact Hwarnings | ].
  unfold buildAlbum. cbn [fst]. apply Forall_app. split; [exact Hwarnings | ].
  constructor; [now destruct (truthy art) | ].
  constructor; [reflexivity | apply extractTracksFrom_silent].
Qed.

(** An attempt announces itself once. *)
Lemma parseAlbumFeedAttempt_announced (url : string) (st : TaskState) :
  exists lines,
    console (snd (parseAlbumFeedAttempt p url st)) = console st ++ lines
    /\ attemptedFeeds lines = [url].
Proof.
  assert (Hrest : forall k : Response -> Task RSSAlbum,
             (forall response, writesOnly isNoAnnouncement (k response)) ->
             writesOnly isNoAnnouncement
               (response <-
                  tryCatch (fetchFeed p url)
                    (fun error =>
                       throw (Error ("Failed to fetch RSS feed: "
                                     ++ messageOr "Network error" error))) ;;
                k response)).
  { intros k Hk. apply writesOnly_bind; [ | exact Hk].
    apply writesOnly_tryCatch; [apply writesOnly_fetchFeed | ].
    intros e. apply writesOnly_throw. }
  unfold parseAlbumFeedAttempt. unfold bind at 1. unfold logLine at 1.
  match goal with
  | |- context [bind (tryCatch _ _) ?k ?s] =>
      destruct (Hrest k) with (st := s) as (lines & Hlines & Hkind)
  end.
  - intros response.
    destruct (negb (ok response)); [apply writesOnly_throw | ].
    destruct (isEmpty _ || _); [apply writesOnly_throw | ].
    destruct (negb _ || negb _); [apply writesOnly_throw | ].
    apply writesOnly_bind; [apply writesOnly_parseXmlChecked | ]. intros xmlDoc.
    pose proof (extractAlbum_silent (extractor p) xmlDoc) as Hsilent.
    destruct (extractAlbum (extractor p) xmlDoc) as [lines extracted]. cbn [fst] in Hsilent.
    apply writesOnly_bind; [now apply writesOnly_logLines | ]. intros _.
    apply writesOnly_bind; [apply writesOnly_ofResult | ]. intros album.
    apply writesOnly_bind; [now apply writesOnly_logLine | ]. intros _.
    apply writesOnly_ret.
  - exists (ParsingAlbumFeed url :: lines). split.
    + rewrite Hlines. cbn [console]. now rewrite <- app_assoc.
    + unfold attemptedFeeds. cbn [flat_map app]. f_equal.
      now apply attemptedFeeds_silent.
Qed.

(** The attempts of the loop from attempt [attempt] on. *)
Lemma retryLoop_attempts (url : string) (onRetry : option (nat -> Exn -> Task unit)) :
  (forall attempt e, writesOnly isNoAnnouncement (notify onRetry attempt e)) ->
  forall remaining attempt lastError st,
  exists lines k,
    console (snd (retryLoop (parseAlbumFeedAttempt p url) 3 1000 onRetry
                    remaining attempt lastError st))
    = console st ++ lines
    /\ attemptedFeeds lines = repeat url k
    /\ k <= remaining
    /\ (1 <= remaining -> 1 <= k).
Proof.
  intros Hnotify.
  induction remaining as [ | remaining IH]; intros attempt lastError st.
  - exists [], 0. cbn. rewrite app_nil_r. repeat split; lia.
  - cbn [retryLoop]. unfold tryCatch.
    destruct (parseAlbumFeedAttempt_announced url st) as (lines1 & Hlines1 & Hone).
    destruct (parseAlbumFeedAttempt p url st) as [[album | e] st1]; cbn [snd] in Hlines1.
    + exists lines1, 1. cbn [snd repeat]. repeat split; trivial; lia.
    + destruct (attempt =? 3).
      * exists lines1, 1. cbn [snd throw repeat]. repeat split; trivial; lia.
      * unfold bind at 1. fold (notify onRetry attempt e).
        destruct (Hnotify attempt e st1) as (lines2 & Hlines2 & Hkind2).
        destruct (notify onRetry attempt e st1) as [[[] | e'] st2]; cbn [snd] in Hlines2.
        -- unfold bind at 1. unfold sleep at 1.
           match goal with
           | |- context [retryLoop _ _ _ _ remaining (S attempt) e ?s] =>
               destruct (IH (S attempt) e s) as (lines3 & k & Hlines3 & Hk & Hle & _)
           end.
           exists (lines1 ++ lines2 ++ lines3), (S k).
           rewrite Hlines3. cbn [console]. rewrite Hlines2, Hlines1, <- !app_assoc.
           rewrite !attemptedFeeds_app, Hone, (attemptedFeeds_silent _ Hkind2), Hk.
           repeat split; trivial; lia.
        -- exists (lines1 ++ lines2), 1. cbn [snd].
           rewrite Hlines2, Hlines1, <- app_assoc.
           rewrite attemptedFeeds_app, Hone, (attemptedFeeds_silent _ Hkind2).
           repeat split; trivial; lia.
Qed.

(** One feed: between one and three attempts. *)
Lemma parseAlbumFeed_attempts (url : string) (st : TaskState) :
  exists lines k,
    console (snd (parseAlbumFeed p url st)) = console st ++ lines
    /\ attemptedFeeds lines = repeat url k
    /\ 1 <= k <= 3.
Proof.
  set (onRetry := Some (fun attempt error =>
                          message <- errorMessage error ;;
                          logLine (RetryingFeedParse attempt url message))).
  destruct (retryLoop_attempts url onRetry) with
    (remaining := 3) (attempt := 1) (lastError := ThrownUndefined) (st := st)
    as (lines & k & Hlines & Hk & Hle & Hge).
  { intros attempt e. cbn [notify onRetry].
    apply writesOnly_bind; [apply writesOnly_errorMessage | ]. intros message.
    now apply writesOnly_logLine. }
  unfold parseAlbumFeed, withRetry. fold onRetry.
  unfold tryCatch at 1. unfold bind at 1.
  destruct (retryLoop _ 3 1000 onRetry 3 1 ThrownUndefined st) as [[album | e] st1];
    cbn [snd] in Hlines.
  - exists lines, k. cbn [ret snd]. repeat split; trivial; lia.
  - exists (lines ++ [FailedToParseFeed url e]), k.
    unfold bind, logLine, ret. cbn [snd console].
    rewrite Hlines, <- app_assoc, attemptedFeeds_app, Hk. cbn. rewrite app_nil_r.
    repeat split; trivial; lia.
Qed.

(** The promises of a window. *)
Lemma allSettled_attempts (batch : list string) (st : TaskState) :
  exists lines attempts,
    console (snd (allSettled p (List.map (parseInBatch p) batch) st)) = console st ++ lines
    /\ Forall2 (fun url made => exists k, 1 <= k <= 3 /\ made = repeat url k) batch attempts
    /\ Permutation (attemptedFeeds lines) (concat attempts).
Proof.
  unfold allSettled. cbn [snd console].
  eexists. cut (exists attempts,
                   Forall2 (fun url made => exists k, 1 <= k <= 3 /\ made = repeat url k)
                           batch attempts
                   /\ attemptedFeeds
                        (concat
                           (List.map (fun r => console (snd r))
                              (List.map (fun t => startTask t st)
                                 (List.map (parseInBatch p) batch))))
                      = concat attempts).
  { intros (attempts & Hall & Hmade). exists attempts.
    split; [reflexivity | split; [exact Hall | ]].
    rewrite <- Hmade. unfold attemptedFeeds.
    apply Permutation_flat_map, joined_permutation. }
  induction batch as [ | url batch (attempts & Hall & Hmade)].
  - exists []. split; [constructor | reflexivity].
  - cbn [List.map concat]. unfold startTask at 1.
    rewrite parseInBatch_parseAlbumFeed.
    destruct (parseAlbumFeed_attempts url (threadStart (now st)))
      as (lines & k & Hlines & Hk & Hbounds).
    cbn [threadStart console app] in Hlines.
    exists (repeat url k :: attempts). split.
    + constructor; [now exists k | exact Hall].
    + rewrite attemptedFeeds_app, Hlines, Hk, Hmade. reflexivity.
Qed.

Section Windows.
Variable feedUrls : list string.

Lemma processBatch_attempts (i : nat) (results : list RSSAlbum) (st : TaskState) :
  exists results' st' lines attempts,
    processBatch p feedUrls i results st = (Fulfilled results', st')
    /\ console st' = console st ++ lines
    /\ Forall2 (fun url made => exists k, 1 <= k <= 3 /\ made = repeat url k)
               (slice i (i + batchSize) feedUrls) attempts
    /\ Permutation (attemptedFeeds lines) (concat attempts).
Proof.
  unfold processBatch. cbv zeta.
  unfold bind at 1. unfold logLine at 1.
  unfold bind at 1.
  match goal with
  | |- context [allSettled p ?promises ?s] =>
      destruct (allSettled_attempts (slice i (i + batchSize) feedUrls) s)
        as (lines & attempts & Hlines & Hall & Hmade);
      destruct (allSettled p promises s) as [[batchResults | e] st1] eqn:Hjoin;
        [ | unfold allSettled in Hjoin; discriminate Hjoin]
  end.
  cbn [snd console] in Hlines.
  unfold bind at 1. unfold logLines at 1.
  pose proof (reportFailures_kind (slice i (i + batchSize) feedUrls)
                (i / batchSize + 1) (filter isFailed batchResults)) as Hreports.
  assert (Hquiet : attemptedFeeds
                     (reportFailures (slice i (i + batchSize) feedUrls)
                        (i / batchSize + 1) (filter isFailed batchResults)) = []).
  { apply attemptedFeeds_silent. eapply Forall_impl; [ | exact Hreports].
    intros entry Hentry. now destruct entry. }
  destruct (i + batchSize <? List.length feedUrls);
    unfold bind, sleep, ret; cbn [console];
    eexists; eexists; eexists; exists attempts;
    (split; [reflexivity | ]); cbn [console];
    rewrite Hlines, <- !app_assoc;
    (split; [reflexivity | split; [exact Hall | ]]);
    rewrite !attemptedFeeds_app, Hquiet; cbn; now rewrite app_nil_r.
Qed.

Lemma batchLoop_attempts (indices : list nat) :
  forall results st,
  exists results' st' lines attempts,
    batchLoop p feedUrls indices results st = (Fulfilled results', st')
    /\ console st' = console st ++ lines
    /\ Forall2 (fun url made => exists k, 1 <= k <= 3 /\ made = repeat url k)
               (concat (List.map (fun i => slice i (i + batchSize) feedUrls) indices))
               attempts
    /\ Permutation (attemptedFeeds lines) (concat attempts).
Proof.
  induction indices as [ | i indices IH]; intros results st; cbn [batchLoop].
  - exists results, st, [], []. cbn. rewrite app_nil_r. repeat split; constructor.
  - destruct (processBatch_attempts i results st)
      as (results1 & st1 & lines1 & attempts1 & Hone & Hlines1 & Hall1 & Hmade1).
    destruct (IH results1 st1)
      as (results2 & st2 & lines2 & attempts2 & Hrest & Hlines2 & Hall2 & Hmade2).
    exists results2, st2, (lines1 ++ lines2), (attempts1 ++ attempts2).
    unfold bind. rewrite Hone, Hrest. cbn [List.map concat].
    repeat split.
    + now rewrite Hlines2, Hlines1, <- app_assoc.
    + now apply Forall2_app.
    + rewrite attemptedFeeds_app, concat_app. now apply Permutation_app.
Qed.

End Windows.

End AttemptFacts.

(** X28 (every feed is attempted, at most three times).  The aggregator
    leaves no address out and makes no request beyond the retries of
    [parseAlbumFeed]: the attempts announced on the console are, in the
    order in which the promises of each window happen to be served,
    between one and three attempts for each address of the input and
    nothing else. *)
Theorem aggregator_attempts_every_feed
        (p : Platform) (feedUrls : list string) (st : TaskState) :
  exists lines attempts,
    console (snd (parseMultipleFeedsInternal p feedUrls st)) = console st ++ lines
    /\ Forall2 (fun url made => exists k, 1 <= k <= 3 /\ made = repeat url k)
               feedUrls attempts
    /\ Permutation (attemptedFeeds lines) (concat attempts).
Proof.
  unfold parseMultipleFeedsInternal.
  unfold bind at 1. unfold logLine at 1.
  unfold bind at 1.
  match goal with
  | |- context [batchLoop p feedUrls ?indices [] ?s] =>
      destruct (batchLoop_attempts p feedUrls indices [] s)
        as (results & st1 & lines & attempts & Hloop & Hlines & Hall & Hmade)
  end.
  rewrite Hloop. rewrite windows_cover in Hall by (unfold batchSize; lia).
  unfold bind, logLine, ret. cbn [snd console] in *.
  eexists. exists attempts. rewrite Hlines, <- !app_assoc.
  split; [reflexivity | split; [exact Hall | ]].
  rewrite !attemptedFeeds_app. cbn. now rewrite app_nil_r.
Qed.
